(** * Always-defined attribute analysis (mypyc/analysis/attrdefined.py)

    A shallow embedding of the analysis pass and of the IR fragments it
    reads, followed by the properties of the pass.

    Objects that Python compares by identity (ClassIR, Register, FuncIR,
    BasicBlock) are represented by natural-number identities.  The mutable
    ClassIR objects live in a heap [cid -> ClassIR] that every pass threads
    explicitly, next to the pass's [seen] set. *)

From stdpp Require Import base option list sets gmap strings pretty.

#[local] Set Warnings "-clear-no-such-hyp".

(** ** IR data model *)

(** Identity of a ClassIR object. *)
Definition cid := nat.
(** Identity of a Value (a Register or the result of an Op). *)
Definition Value := nat.
Definition Register := Value.
(** A BasicBlock is referred to by its position in the block list of its
    function. *)
Definition Label := nat.

(** Value representations, as far as the pass looks at them. *)
Record RType := {
  rtype_name : string;
  error_overlap : bool
}.

(** The declaration a [Call] refers to.  The source reads the class of a
    method off the RInstance type of its first argument
    ([op.fn.sig.args[0].type.class_ir], under an assertion that the type is
    an RInstance); a declaration carries that class here. *)
Record FuncDecl := {
  fn_name : string;
  fn_class_name : option string;
  fn_self_class : cid
}.

Inductive Op :=
| Goto (label : Label)
| Branch (value : Value) (true_label false_label : Label)
| Return (value : Value)
| Unreachable
| Assign (dest : Register) (src : Value)
| AssignMulti (dest : Register) (src : list Value)
| SetMem (dest : Value) (src : Value)
| GetAttr (obj : Value) (attr : string)
| SetAttr (obj : Value) (attr : string) (src : Value)
| Call (fn : FuncDecl) (args : list Value)
| MethodCall (obj : Value) (method : string) (args : list Value)
| OtherOp (sources : list Value).

Record BasicBlock := { ops : list Op }.

Record FuncIR := {
  fn_id : nat;
  arg_regs : list Register;
  blocks : list BasicBlock
}.

(** [isinstance(op, ControlOp)] and [op.targets()]. *)
Definition is_control_op (op : Op) : bool :=
  match op with
  | Goto _ | Branch _ _ _ | Return _ | Unreachable => true
  | _ => false
  end.

Definition targets (op : Op) : list Label :=
  match op with
  | Goto l => [l]
  | Branch _ t f => [t; f]
  | _ => []
  end.

Definition is_return (op : Op) : bool :=
  match op with Return _ => true | _ => false end.

(** Truthiness of an optional string ([op.fn.class_name and ...]). *)
Definition str_truthy (s : option string) : bool :=
  match s with
  | Some s => negb (String.eqb s "")
  | None => false
  end.

(** ** Class descriptors *)

(** The fields of a ClassIR that the pass reads or writes.  [attributes]
    is the insertion-ordered dict of the source, as an association list;
    [children] is [None] when the subclasses are unknown; [serializable]
    holds the value of [cl.is_serializable()] and [init_method] the value
    of [cl.get_method("__init__")].  The last four fields are the results
    the pass writes. *)
Record ClassIR := {
  name : string;
  is_trait : bool;
  inherits_python : bool;
  allow_interpreted_subclasses : bool;
  builtin_base : option string;
  children : option (list cid);
  serializable : bool;
  mro : list cid;
  base_mro : list cid;
  attributes : list (string * RType);
  attrs_with_defaults : gset string;
  deletable : list string;
  init_method : option FuncIR;
  _always_initialized_attrs : gset string;
  _sometimes_initialized_attrs : gset string;
  init_self_leak : bool;
  bitmap_attrs : list string
}.

Definition set_always (v : gset string) (c : ClassIR) : ClassIR :=
  {| name := name c; is_trait := is_trait c;
     inherits_python := inherits_python c;
     allow_interpreted_subclasses := allow_interpreted_subclasses c;
     builtin_base := builtin_base c; children := children c;
     serializable := serializable c; mro := mro c; base_mro := base_mro c;
     attributes := attributes c;
     attrs_with_defaults := attrs_with_defaults c;
     deletable := deletable c; init_method := init_method c;
     _always_initialized_attrs := v;
     _sometimes_initialized_attrs := _sometimes_initialized_attrs c;
     init_self_leak := init_self_leak c; bitmap_attrs := bitmap_attrs c |}.

Definition set_sometimes (v : gset string) (c : ClassIR) : ClassIR :=
  {| name := name c; is_trait := is_trait c;
     inherits_python := inherits_python c;
     allow_interpreted_subclasses := allow_interpreted_subclasses c;
     builtin_base := builtin_base c; children := children c;
     serializable := serializable c; mro := mro c; base_mro := base_mro c;
     attributes := attributes c;
     attrs_with_defaults := attrs_with_defaults c;
     deletable := deletable c; init_method := init_method c;
     _always_initialized_attrs := _always_initialized_attrs c;
     _sometimes_initialized_attrs := v;
     init_self_leak := init_self_leak c; bitmap_attrs := bitmap_attrs c |}.

Definition set_init_self_leak (v : bool) (c : ClassIR) : ClassIR :=
  {| name := name c; is_trait := is_trait c;
     inherits_python := inherits_python c;
     allow_interpreted_subclasses := allow_interpreted_subclasses c;
     builtin_base := builtin_base c; children := children c;
     serializable := serializable c; mro := mro c; base_mro := base_mro c;
     attributes := attributes c;
     attrs_with_defaults := attrs_with_defaults c;
     deletable := deletable c; init_method := init_method c;
     _always_initialized_attrs := _always_initialized_attrs c;
     _sometimes_initialized_attrs := _sometimes_initialized_attrs c;
     init_self_leak := v; bitmap_attrs := bitmap_attrs c |}.

Definition set_bitmap_attrs (v : list string) (c : ClassIR) : ClassIR :=
  {| name := name c; is_trait := is_trait c;
     inherits_python := inherits_python c;
     allow_interpreted_subclasses := allow_interpreted_subclasses c;
     builtin_base := builtin_base c; children := children c;
     serializable := serializable c; mro := mro c; base_mro := base_mro c;
     attributes := attributes c;
     attrs_with_defaults := attrs_with_defaults c;
     deletable := deletable c; init_method := init_method c;
     _always_initialized_attrs := _always_initialized_attrs c;
     _sometimes_initialized_attrs := _sometimes_initialized_attrs c;
     init_self_leak := init_self_leak c; bitmap_attrs := v |}.

(** The heap of class descriptors. *)
Definition Heap := cid -> ClassIR.

Definition upd (cl : cid) (f : ClassIR -> ClassIR) (h : Heap) : Heap :=
  fun c => if decide (c = cl) then f (h c) else h c.

(** The declaration part of a descriptor: the descriptor with the four
    result fields of the analysis reset. *)
Definition decl_of (c : ClassIR) : ClassIR :=
  set_bitmap_attrs [] (set_init_self_leak false (set_sometimes ∅ (set_always ∅ c))).

(** Modelled from the spec: [ClassIR.is_deletable] (mypyc/ir/class_ir.py is
    not among the sources).  The data model gives every descriptor its
    [deletable_attrs]; an attribute is deletable when it is listed there. *)
Definition is_deletable (c : ClassIR) (a : string) : bool :=
  bool_decide (a ∈ deletable c).

(** Modelled from the spec: [ClassIR.is_always_defined] (class_ir.py is not
    among the sources).  The spec reads it as membership in the class's
    already-computed [always_initialized_attrs]. *)
Definition is_always_defined (c : ClassIR) (a : string) : bool :=
  bool_decide (a ∈ _always_initialized_attrs c).

(** Modelled from the spec: [cl.get_method("__init__")] (class_ir.py is not
    among the sources): the explicit constructor of the class, if any. *)
Definition get_init_method (c : ClassIR) : option FuncIR := init_method c.

(** ** Dataflow results *)

Definition GenAndKill := (gset string * gset string)%type.

(** Modelled from the spec: [AnalysisResult] (mypyc/analysis/dataflow.py is
    not among the sources): a mapping from (block, op-index) to the set
    before and the set after the op.  The engine fills it for every op of
    every block, so indexing is total here. *)
Record AnalysisResult (T : Type) `{Countable T} := {
  before : Label -> nat -> gset T;
  after : Label -> nat -> gset T
}.
Arguments before {T _ _} _ _ _.
Arguments after {T _ _} _ _ _.

Inductive AnalysisKind := MUST_ANALYSIS | MAYBE_ANALYSIS.

(** Truthiness of a Python set. *)
Definition nonempty {T} `{Countable T} (X : gset T) : bool :=
  bool_decide (X ≠ ∅).

(** ** Gen/kill visitors *)

(** Modelled from the spec: [BaseAnalysisVisitor] and [Op.accept]
    (dataflow.py and ops.py are not among the sources): one case per op
    kind; a goto has empty gen and kill sets, and every op kind without a
    case of its own is handed to [visit_register_op]. *)
Record BaseAnalysisVisitor := {
  visit_branch : Op -> GenAndKill;
  visit_return : Op -> GenAndKill;
  visit_unreachable : Op -> GenAndKill;
  visit_register_op : Op -> GenAndKill;
  visit_assign : Op -> GenAndKill;
  visit_assign_multi : Op -> GenAndKill;
  visit_set_mem : Op -> GenAndKill
}.

Definition visit_goto (v : BaseAnalysisVisitor) (op : Op) : GenAndKill := (∅, ∅).

Definition accept (v : BaseAnalysisVisitor) (op : Op) : GenAndKill :=
  match op with
  | Goto _ => visit_goto v op
  | Branch _ _ _ => visit_branch v op
  | Return _ => visit_return v op
  | Unreachable => visit_unreachable v op
  | Assign _ _ => visit_assign v op
  | AssignMulti _ _ => visit_assign_multi v op
  | SetMem _ _ => visit_set_mem v op
  | _ => visit_register_op v op
  end.

(** Attributes always initialized by a super().__init__ call. *)
Definition attributes_initialized_by_init_call (h : Heap) (fn : FuncDecl) : gset string :=
  let cl := h (fn_self_class fn) in
  ⋃ (map (fun base : cid =>
            list_to_set (filter (fun a => is_always_defined (h base) a)
                                (map fst (attributes (h base)))))
          (mro cl)).

(** Attributes that may be initialized by a super().__init__ call. *)
Definition attributes_maybe_initialized_by_init_call (h : Heap) (fn : FuncDecl) : gset string :=
  let cl := h (fn_self_class fn) in
  attributes_initialized_by_init_call h fn ∪ _sometimes_initialized_attrs cl.

Definition is_init_call (fn : FuncDecl) : bool :=
  str_truthy (fn_class_name fn) && String.eqb (fn_name fn) "__init__".

Definition AttributeMaybeDefinedVisitor (h : Heap) (self_reg : Register) : BaseAnalysisVisitor :=
  {| visit_branch := fun _ => (∅, ∅);
     visit_return := fun _ => (∅, ∅);
     visit_unreachable := fun _ => (∅, ∅);
     visit_register_op := fun op =>
       match op with
       | SetAttr obj attr _ =>
           if decide (obj = self_reg) then ({[attr]}, ∅) else (∅, ∅)
       | Call fn _ =>
           if is_init_call fn
           then (attributes_maybe_initialized_by_init_call h fn, ∅)
           else (∅, ∅)
       | _ => (∅, ∅)
       end;
     visit_assign := fun _ => (∅, ∅);
     visit_assign_multi := fun _ => (∅, ∅);
     visit_set_mem := fun _ => (∅, ∅) |}.

Definition AttributeMaybeUndefinedVisitor (h : Heap) (self_reg : Register) : BaseAnalysisVisitor :=
  {| visit_branch := fun _ => (∅, ∅);
     visit_return := fun _ => (∅, ∅);
     visit_unreachable := fun _ => (∅, ∅);
     visit_register_op := fun op =>
       match op with
       | SetAttr obj attr _ =>
           if decide (obj = self_reg) then (∅, {[attr]}) else (∅, ∅)
       | Call fn _ =>
           if is_init_call fn
           then (∅, attributes_initialized_by_init_call h fn)
           else (∅, ∅)
       | _ => (∅, ∅)
       end;
     visit_assign := fun _ => (∅, ∅);
     visit_assign_multi := fun _ => (∅, ∅);
     visit_set_mem := fun _ => (∅, ∅) |}.

(** ** The single-class resolver: walks over the constructor's ops *)

Section Walks.
Variable self_reg : Register.
Variable maybe_defined maybe_undefined : AnalysisResult string.
Variable dirty : AnalysisResult unit.

(** The freeze applied on the control edges out of op [i] of [block]. *)
Definition always_targets (block : Label) (i : nat) (ts : list Label)
    (attrs : gset string) : gset string :=
  foldl (fun attrs target =>
           if negb (nonempty (after dirty block i)) && nonempty (before dirty target 0)
           then attrs ∩ (after maybe_defined target 0 ∖ after maybe_undefined target 0)
           else attrs)
        attrs ts.

(** The two checks on reads and writes of the receiver's attributes. *)
Definition always_checks (block : Label) (i : nat) (op : Op)
    (attrs : gset string) : gset string :=
  let attrs :=
    match op with
    | GetAttr obj attr =>
        if bool_decide (obj = self_reg)
           && bool_decide (attr ∈ before maybe_undefined block i)
        then attrs ∖ {[attr]} else attrs
    | _ => attrs
    end in
  match op with
  | SetAttr obj attr _ =>
      if bool_decide (obj = self_reg)
         && (bool_decide (attr ∈ before maybe_undefined block i)
             && bool_decide (attr ∈ before maybe_defined block i))
      then attrs ∖ {[attr]} else attrs
  | _ => attrs
  end.

(** The body of [for i, op in enumerate(block.ops)], from index [i] on. *)
Fixpoint always_ops (block : Label) (i : nat) (l : list Op)
    (attrs : gset string) : gset string :=
  match l with
  | [] => attrs
  | op :: rest =>
      let attrs := always_checks block i op attrs in
      if nonempty (after dirty block i) then
        (* ... break *)
        if negb (nonempty (before dirty block i))
        then attrs ∩ (after maybe_defined block i ∖ after maybe_undefined block i)
        else attrs
      else
        let attrs :=
          if is_control_op op then always_targets block i (targets op) attrs
          else attrs in
        always_ops block (S i) rest attrs
  end.

(** The loop [for block in blocks], from block number [b] on. *)
Fixpoint always_blocks (b : Label) (bs : list BasicBlock)
    (attrs : gset string) : gset string :=
  match bs with
  | [] => attrs
  | block :: rest => always_blocks (S b) rest (always_ops b 0 (ops block) attrs)
  end.

Definition find_always_defined_attributes (blocks : list BasicBlock)
    (all_attrs : gset string) : gset string :=
  always_blocks 0 blocks all_attrs.

Definition sometimes_targets (block : Label) (i : nat) (ts : list Label)
    (attrs : gset string) : gset string :=
  foldl (fun attrs target =>
           if negb (nonempty (after dirty block i)) && nonempty (before dirty target 0)
           then attrs ∪ after maybe_defined target 0
           else attrs)
        attrs ts.

Fixpoint sometimes_ops (block : Label) (i : nat) (l : list Op)
    (attrs : gset string) : gset string :=
  match l with
  | [] => attrs
  | op :: rest =>
      if nonempty (after dirty block i) then
        if negb (nonempty (before dirty block i))
        then attrs ∪ after maybe_defined block i
        else attrs
      else
        let attrs :=
          if is_control_op op then sometimes_targets block i (targets op) attrs
          else attrs in
        sometimes_ops block (S i) rest attrs
  end.

Fixpoint sometimes_blocks (b : Label) (bs : list BasicBlock)
    (attrs : gset string) : gset string :=
  match bs with
  | [] => attrs
  | block :: rest => sometimes_blocks (S b) rest (sometimes_ops b 0 (ops block) attrs)
  end.

Definition find_sometimes_defined_attributes (blocks : list BasicBlock) : gset string :=
  sometimes_blocks 0 blocks ∅.

(** Whether the walk of [find_always_defined_attributes] and
    [find_sometimes_defined_attributes] meets a freeze point: an op with
    [dirty.after] set and [dirty.before] clear at which the walk of its
    block arrives, or a control edge into a block whose first op has
    [dirty.before] set. *)
Definition freeze_targets (block : Label) (i : nat) (ts : list Label) (met : bool) : bool :=
  foldl (fun met target =>
           if negb (nonempty (after dirty block i)) && nonempty (before dirty target 0)
           then true else met)
        met ts.

Fixpoint freeze_ops (block : Label) (i : nat) (l : list Op) (met : bool) : bool :=
  match l with
  | [] => met
  | op :: rest =>
      if nonempty (after dirty block i) then
        if negb (nonempty (before dirty block i)) then true else met
      else
        let met :=
          if is_control_op op then freeze_targets block i (targets op) met
          else met in
        freeze_ops block (S i) rest met
  end.

Fixpoint freeze_blocks (b : Label) (bs : list BasicBlock) (met : bool) : bool :=
  match bs with
  | [] => met
  | block :: rest => freeze_blocks (S b) rest (freeze_ops b 0 (ops block) met)
  end.

Definition has_freeze_point (blocks : list BasicBlock) : bool :=
  freeze_blocks 0 blocks false.

(** [mark_attr_initialization_ops] calls [op.mark_as_initializer()] on
    some SetAttr ops; the marked ops are collected here by their program
    point (block, index). *)
Fixpoint mark_ops (block : Label) (i : nat) (l : list Op) : list (Label * nat) :=
  match l with
  | [] => []
  | op :: rest =>
      let here :=
        match op with
        | SetAttr obj attr _ =>
            if bool_decide (obj = self_reg)
               && (negb (bool_decide (attr ∈ before maybe_defined block i))
                   && negb (nonempty (after dirty block i)))
            then [(block, i)] else []
        | _ => []
        end in
      here ++ mark_ops block (S i) rest
  end.

Fixpoint mark_blocks (b : Label) (bs : list BasicBlock) : list (Label * nat) :=
  match bs with
  | [] => []
  | block :: rest => mark_ops b 0 (ops block) ++ mark_blocks (S b) rest
  end.

Definition mark_attr_initialization_ops (blocks : list BasicBlock) : list (Label * nat) :=
  mark_blocks 0 blocks.

(** The loop that computes [any_dirty]; its [break] leaves the inner loop
    only. *)
Fixpoint any_dirty_ops (block : Label) (i : nat) (l : list Op) (any_dirty : bool) : bool :=
  match l with
  | [] => any_dirty
  | op :: rest =>
      if nonempty (after dirty block i) && negb (is_return op)
      then true
      else any_dirty_ops block (S i) rest any_dirty
  end.

Fixpoint any_dirty_blocks (b : Label) (bs : list BasicBlock) (any_dirty : bool) : bool :=
  match bs with
  | [] => any_dirty
  | block :: rest => any_dirty_blocks (S b) rest (any_dirty_ops b 0 (ops block) any_dirty)
  end.
End Walks.

(** ** The passes over the class heap *)

(** The analysis state: the heap of class descriptors and the set of
    SetAttr ops tagged as initializers (function identity, block, index). *)
Record State := {
  classes : Heap;
  initializers : gset (nat * (Label * nat))
}.

(** A Python [for x in l: f(x)] over a state, where [f] may fail to
    return. *)
Fixpoint for_each {A S : Type} (f : A -> S -> option S) (l : list A) (s : S) : option S :=
  match l with
  | [] => Some s
  | x :: l => match f x s with
              | Some s' => for_each f l s'
              | None => None
              end
  end.

(** The guard of [analyze_always_defined_attrs_in_class]: "Give up -- we
    can't enforce that attributes are always defined." *)
Definition gives_up (c : ClassIR) : bool :=
  is_trait c
  || inherits_python c
  || allow_interpreted_subclasses c
  || bool_decide (builtin_base c ≠ None)
  || bool_decide (children c = None)
  || serializable c.

(** [all_attrs]: the attributes declared anywhere in the MRO. *)
Definition all_attrs_of (h : Heap) (c : ClassIR) : gset string :=
  ⋃ (map (fun base : cid => list_to_set (map fst (attributes (h base)))) (mro c)).

Section Analysis.
(** The collaborators that are consumed as services: CFG construction,
    the dataflow fixpoint engine and the self-leak analysis. *)
Variable CFG : Type.
Variable get_cfg : list BasicBlock -> CFG.
Variable run_analysis :
  list BasicBlock -> CFG -> BaseAnalysisVisitor -> gset string ->
  bool -> AnalysisKind -> AnalysisResult string.
Variable analyze_self_leaks :
  list BasicBlock -> Register -> CFG -> AnalysisResult unit.

Definition analyze_maybe_defined_attrs_in_init (h : Heap)
    (blocks : list BasicBlock) (self_reg : Register)
    (attrs_with_defaults : gset string) (cfg : CFG) : AnalysisResult string :=
  run_analysis blocks cfg (AttributeMaybeDefinedVisitor h self_reg)
               attrs_with_defaults false MAYBE_ANALYSIS.

Definition analyze_maybe_undefined_attrs_in_init (h : Heap)
    (blocks : list BasicBlock) (self_reg : Register)
    (initial_undefined : gset string) (cfg : CFG) : AnalysisResult string :=
  run_analysis blocks cfg (AttributeMaybeUndefinedVisitor h self_reg)
               initial_undefined false MAYBE_ANALYSIS.

(** The part of [analyze_always_defined_attrs_in_class] after the lookup
    of [__init__] succeeded. *)
Definition analyze_init (cl : cid) (m : FuncIR) (self_reg : Register)
    (st : State) : State :=
  let h := classes st in
  let c := h cl in
  let cfg := get_cfg (blocks m) in
  let dirty := analyze_self_leaks (blocks m) self_reg cfg in
  let maybe_defined :=
    analyze_maybe_defined_attrs_in_init h (blocks m) self_reg
                                        (attrs_with_defaults c) cfg in
  let all_attrs := all_attrs_of h c in
  let maybe_undefined :=
    analyze_maybe_undefined_attrs_in_init h (blocks m) self_reg
                                          (all_attrs ∖ attrs_with_defaults c) cfg in
  let always_defined :=
    find_always_defined_attributes self_reg maybe_defined maybe_undefined dirty
                                   (blocks m) all_attrs in
  let always_defined := filter (fun a => negb (is_deletable c a)) always_defined in
  let sometimes :=
    find_sometimes_defined_attributes maybe_defined dirty (blocks m) in
  let marked := mark_attr_initialization_ops self_reg maybe_defined dirty (blocks m) in
  let any_dirty := any_dirty_blocks dirty 0 (blocks m) false in
  {| classes :=
       upd cl (fun c => set_init_self_leak any_dirty
                          (set_sometimes sometimes (set_always always_defined c))) h;
     initializers :=
       initializers st ∪ list_to_set (map (fun p => (fn_id m, p)) marked) |}.

(** The recursion of the source is bounded by [fuel]; the result is [None]
    when the fuel runs out, and also where the source raises (the
    IndexError of [m.arg_regs[0]] for a constructor without arguments). *)
Fixpoint analyze_always_defined_attrs_in_class (fuel : nat) (cl : cid)
    (s : State * gset cid) : option (State * gset cid) :=
  match fuel with
  | 0 => None
  | S fuel =>
      let '(st, seen) := s in
      if decide (cl ∈ seen) then Some s
      else
        let seen := {[cl]} ∪ seen in
        if gives_up (classes st cl) then Some (st, seen)
        else
          match for_each (analyze_always_defined_attrs_in_class fuel)
                         (drop 1 (mro (classes st cl))) (st, seen) with
          | None => None
          | Some (st, seen) =>
              let c := classes st cl in
              match get_init_method c with
              | None =>
                  Some ({| classes :=
                             upd cl (fun c => set_sometimes (attrs_with_defaults c)
                                                (set_always (attrs_with_defaults c) c))
                                 (classes st);
                           initializers := initializers st |}, seen)
              | Some m =>
                  match arg_regs m with
                  | [] => None
                  | self_reg :: _ => Some (analyze_init cl m self_reg st, seen)
                  end
              end
          end
  end.

(** The two nested loops of
    [update_always_defined_attrs_using_subclasses]; the state carries the
    heap, the [seen] set and the local set [removed]. *)
Definition update_children (rec : cid -> Heap * gset cid -> option (Heap * gset cid))
    (attr : string) (child : cid) (s : Heap * gset cid * gset string)
    : option (Heap * gset cid * gset string) :=
  let '(hs, removed) := s in
  match rec child hs with
  | None => None
  | Some (h, seen) =>
      if bool_decide (attr ∈ _always_initialized_attrs (h child))
      then Some (h, seen, removed)
      else Some (h, seen, {[attr]} ∪ removed)
  end.

(** The source iterates over the set [cl._always_initialized_attrs] in an
    unspecified order; the order of [elements] stands for it. *)
Fixpoint update_always_defined_attrs_using_subclasses (fuel : nat) (cl : cid)
    (s : Heap * gset cid) : option (Heap * gset cid) :=
  match fuel with
  | 0 => None
  | S fuel =>
      let '(h, seen) := s in
      if decide (cl ∈ seen) then Some s
      else
        match children (h cl) with
        | None => Some s
        | Some chs =>
            match for_each
                    (fun attr =>
                       for_each
                         (update_children
                            (update_always_defined_attrs_using_subclasses fuel) attr)
                         chs)
                    (elements (_always_initialized_attrs (h cl)))
                    (h, seen, ∅) with
            | None => None
            | Some (h, seen, removed) =>
                Some (upd cl (fun c => set_always (_always_initialized_attrs c ∖ removed) c) h,
                      {[cl]} ∪ seen)
            end
        end
  end.

(** The slots a class appends for its own attributes. *)
Definition own_bitmap_attrs (c : ClassIR) (bm : list string) : list string :=
  foldl (fun bm nt =>
           if error_overlap (snd nt) && negb (is_always_defined c (fst nt))
           then bm ++ [fst nt] else bm)
        bm (attributes c).

(** The slots a class appends for the attributes of the traits in its
    MRO. *)
Definition trait_bitmap_attrs (h : Heap) (c : ClassIR) (bm : list string) : list string :=
  foldl (fun bm base =>
           if is_trait (h base)
           then foldl (fun bm nt =>
                         if error_overlap (snd nt)
                            && negb (is_always_defined c (fst nt))
                            && negb (bool_decide (fst nt ∈ bm))
                         then bm ++ [fst nt] else bm)
                      bm (attributes (h base))
           else bm)
        bm (drop 1 (mro c)).

(** The loop over [cl.base_mro[1:]] calls the function on [cl] itself, as
    the source does. *)
Fixpoint detect_undefined_bitmap (fuel : nat) (cl : cid)
    (s : Heap * gset cid) : option (Heap * gset cid) :=
  match fuel with
  | 0 => None
  | S fuel =>
      let '(h, seen) := s in
      if is_trait (h cl) then Some s
      else if decide (cl ∈ seen) then Some s
      else
        (* for base in cl.base_mro[1:]: detect_undefined_bitmap(cl, seen) *)
        match for_each (fun base : cid => detect_undefined_bitmap fuel cl)
                       (drop 1 (base_mro (h cl))) (h, {[cl]} ∪ seen) with
        | None => None
        | Some (h, seen) =>
            let c := h cl in
            let bm :=
              match base_mro c !! 1 with
              | Some base => bitmap_attrs c ++ bitmap_attrs (h base)
              | None => bitmap_attrs c
              end in
            let bm := own_bitmap_attrs c bm in
            let bm := trait_bitmap_attrs h c bm in
            Some (upd cl (set_bitmap_attrs bm) h, seen)
        end
  end.

(** The three passes of the entry point, each with a [seen] set of its
    own. *)
Definition first_pass (fuel : nat) (class_irs : list cid) (st : State) : option State :=
  fst <$> for_each (analyze_always_defined_attrs_in_class fuel) class_irs (st, ∅).

Definition second_pass (fuel : nat) (class_irs : list cid) (h : Heap) : option Heap :=
  fst <$> for_each (update_always_defined_attrs_using_subclasses fuel) class_irs (h, ∅).

Definition final_pass (fuel : nat) (class_irs : list cid) (h : Heap) : option Heap :=
  fst <$> for_each (detect_undefined_bitmap fuel) class_irs (h, ∅).

Definition analyze_always_defined_attrs (fuel : nat) (class_irs : list cid)
    (st : State) : option State :=
  st1 ← first_pass fuel class_irs st;
  h2 ← second_pass fuel class_irs (classes st1);
  h3 ← final_pass fuel class_irs h2;
  Some {| classes := h3; initializers := initializers st1 |}.
(** The result of the escape oracle for a constructor; the receiver is the
    constructor's first argument register. *)
Definition init_dirty (m : FuncIR) : AnalysisResult unit :=
  analyze_self_leaks (blocks m) (default 0 (head (arg_regs m))) (get_cfg (blocks m)).

(** What the single-class resolver leaves in the descriptor of a class it
    does not give up on: the result fields are those computed from the
    constructor (for some results of the two definedness passes), or
    [attrs_with_defaults] when there is no constructor. *)
Definition resolved (c : ClassIR) : Prop :=
  match get_init_method c with
  | None =>
      _always_initialized_attrs c = attrs_with_defaults c
      ∧ _sometimes_initialized_attrs c = attrs_with_defaults c
  | Some m =>
      exists self_reg rest maybe_defined maybe_undefined all_attrs,
        arg_regs m = self_reg :: rest
        ∧ let dirty := analyze_self_leaks (blocks m) self_reg (get_cfg (blocks m)) in
          _always_initialized_attrs c
            = filter (fun a => negb (is_deletable c a))
                     (find_always_defined_attributes self_reg maybe_defined
                        maybe_undefined dirty (blocks m) all_attrs)
          ∧ _sometimes_initialized_attrs c
              = find_sometimes_defined_attributes maybe_defined dirty (blocks m)
          ∧ init_self_leak c = any_dirty_blocks dirty 0 (blocks m) false
  end.

(** How a step of the first pass relates the states before and after it:
    [seen] grows, the classes seen before are untouched, declarations never
    change, and the classes newly seen are resolved. *)
Definition first_pass_step (s s' : State * gset cid) : Prop :=
  s.2 ⊆ s'.2
  ∧ (forall c, c ∈ s.2 -> classes s'.1 c = classes s.1 c)
  ∧ (forall c, decl_of (classes s'.1 c) = decl_of (classes s.1 c))
  ∧ (forall c, c ∈ s'.2 -> c ∉ s.2 -> gives_up (classes s'.1 c) = false ->
               resolved (classes s'.1 c)).
End Analysis.

(** A step of the second pass changes [_always_initialized_attrs] only, and
    only by removing attributes. *)
Definition second_pass_step (h h' : Heap) : Prop :=
  forall c, set_always ∅ (h' c) = set_always ∅ (h c)
            ∧ _always_initialized_attrs (h' c) ⊆ _always_initialized_attrs (h c).

(** The class hierarchy is acyclic: a rank decreases from every class to
    its children. *)
Definition acyclic_children (h : Heap) (rank : cid -> nat) : Prop :=
  forall c chs d, children (h c) = Some chs -> d ∈ chs -> rank d < rank c.

(** The MROs are acyclic: a rank decreases from every class to the other
    classes of its MRO. *)
Definition acyclic_bases (h : Heap) (rank : cid -> nat) : Prop :=
  forall c b, b ∈ drop 1 (mro (h c)) -> rank b < rank c.

(** Every constructor has the receiver as its first argument register. *)
Definition constructors_have_self (h : Heap) : Prop :=
  forall c m, init_method (h c) = Some m -> arg_regs m ≠ [].

(** The descendants of a class through the [children] lists. *)
Inductive descendant (h : Heap) : cid -> cid -> Prop :=
| descendant_child (c : cid) (chs : list cid) (d : cid) :
    children (h c) = Some chs -> d ∈ chs -> descendant h c d
| descendant_step (c : cid) (chs : list cid) (d e : cid) :
    children (h c) = Some chs -> d ∈ chs -> descendant h d e -> descendant h c e.

(** The state of the second pass, relative to the heap [h0] the pass
    started from: only [_always_initialized_attrs] differs from [h0], the
    classes outside [seen] are as in [h0], and a class in [seen] has a known
    list of children and keeps exactly the attributes it had in [h0] that
    all its children have; when it had any, its children are finished
    (in [seen], or with unknown children). *)
Definition second_pass_inv (h0 : Heap) (s : Heap * gset cid) : Prop :=
  (forall c, set_always ∅ (s.1 c) = set_always ∅ (h0 c))
  ∧ (forall c, c ∉ s.2 -> s.1 c = h0 c)
  ∧ (forall c, c ∈ s.2 ->
       exists chs, children (s.1 c) = Some chs
         ∧ (forall a, a ∈ _always_initialized_attrs (s.1 c) <->
                      a ∈ _always_initialized_attrs (h0 c)
                      ∧ forall d, d ∈ chs -> a ∈ _always_initialized_attrs (s.1 d))
         ∧ (_always_initialized_attrs (h0 c) ≠ ∅ ->
            forall d, d ∈ chs -> d ∈ s.2 ∨ children (s.1 d) = None)).

(** What a call of [update_always_defined_attrs_using_subclasses] on a class
    of rank at most [r] does to the state. *)
Definition second_pass_frame (rank : cid -> nat) (r : nat) (s s' : Heap * gset cid) : Prop :=
  s.2 ⊆ s'.2
  ∧ (forall c, c ∈ s.2 -> s'.1 c = s.1 c)
  ∧ (forall c, c ∈ s'.2 -> c ∉ s.2 -> rank c < r).

(** A class the second pass will not touch any more. *)
Definition finished (h0 : Heap) (s : Heap * gset cid) (d : cid) : Prop :=
  d ∈ s.2 ∨ children (h0 d) = None.

(** Inside the loops of [update_always_defined_attrs_using_subclasses]:
    the check of attribute [a] against child [d] has been made. *)
Definition child_checked (h0 : Heap) (a : string) (d : cid)
    (t : Heap * gset cid * gset string) : Prop :=
  finished h0 t.1 d
  ∧ (a ∉ t.2 -> a ∈ _always_initialized_attrs (t.1.1 d)).

(** The invariant of those loops, for a call on class [cl] with children
    [chs] that started in state [s]. *)
Definition update_loop_inv (h0 : Heap) (rank : cid -> nat) (cl : cid)
    (s : Heap * gset cid) (chs : list cid)
    (t : Heap * gset cid * gset string) : Prop :=
  second_pass_inv h0 t.1
  ∧ second_pass_frame rank (rank cl) s t.1
  ∧ (forall a, a ∈ t.2 ->
       exists d, d ∈ chs ∧ finished h0 t.1 d
                 ∧ a ∉ _always_initialized_attrs (t.1.1 d)).

(** A step of the final pass changes [bitmap_attrs] only. *)
Definition final_pass_step (h h' : Heap) : Prop :=
  forall c, set_bitmap_attrs [] (h' c) = set_bitmap_attrs [] (h c).

(** ** The first pass, class by class *)

Section Resolver.
Variable CFG : Type.
Variable get_cfg : list BasicBlock -> CFG.
Variable run_analysis :
  list BasicBlock -> CFG -> BaseAnalysisVisitor -> gset string ->
  bool -> AnalysisKind -> AnalysisResult string.
Variable analyze_self_leaks :
  list BasicBlock -> Register -> CFG -> AnalysisResult unit.

(** The result fields of the descriptor [c] are those that [analyze_init]
    computes for the constructor [m] with receiver [self_reg], the other
    descriptors being read from the heap [h]. *)
Definition resolved_from (h : Heap) (c : ClassIR) (m : FuncIR) (self_reg : Register) : Prop :=
  let cfg := get_cfg (blocks m) in
  let dirty := analyze_self_leaks (blocks m) self_reg cfg in
  let maybe_defined :=
    analyze_maybe_defined_attrs_in_init CFG run_analysis h (blocks m) self_reg
                                        (attrs_with_defaults c) cfg in
  let all_attrs := all_attrs_of h c in
  let maybe_undefined :=
    analyze_maybe_undefined_attrs_in_init CFG run_analysis h (blocks m) self_reg
                                          (all_attrs ∖ attrs_with_defaults c) cfg in
  _always_initialized_attrs c
    = filter (fun a => negb (is_deletable c a))
             (find_always_defined_attributes self_reg maybe_defined maybe_undefined
                                             dirty (blocks m) all_attrs)
  ∧ _sometimes_initialized_attrs c
      = find_sometimes_defined_attributes maybe_defined dirty (blocks m)
  ∧ init_self_leak c = any_dirty_blocks dirty 0 (blocks m) false.

(** The ops that [analyze_init] tags for the constructor [m], the other
    descriptors being read from the heap [h]. *)
Definition tagged_from (h : Heap) (c : ClassIR) (m : FuncIR) (self_reg : Register)
    : list (Label * nat) :=
  let cfg := get_cfg (blocks m) in
  mark_attr_initialization_ops self_reg
    (analyze_maybe_defined_attrs_in_init CFG run_analysis h (blocks m) self_reg
                                         (attrs_with_defaults c) cfg)
    (analyze_self_leaks (blocks m) self_reg cfg) (blocks m).

(** What a step of the first pass does beyond [first_pass_step]: the
    classes the guard excludes are untouched, tags are only added, a newly
    seen class with a constructor holds the results computed from some heap
    with the same declarations, and every new tag was put there by the
    analysis of the constructor of a newly seen class. *)
Definition first_pass_detail (s s' : State * gset cid) : Prop :=
  (forall c, gives_up (classes s.1 c) = true -> classes s'.1 c = classes s.1 c)
  ∧ initializers s.1 ⊆ initializers s'.1
  ∧ (forall c m, c ∈ s'.2 -> c ∉ s.2 -> gives_up (classes s.1 c) = false ->
       init_method (classes s.1 c) = Some m ->
       exists h self_reg rest,
         arg_regs m = self_reg :: rest
         ∧ (forall d, decl_of (h d) = decl_of (classes s.1 d))
         ∧ resolved_from h (classes s'.1 c) m self_reg)
  ∧ (forall f p, (f, p) ∈ initializers s'.1 -> (f, p) ∉ initializers s.1 ->
       exists c m h self_reg rest,
         c ∈ s'.2 ∧ (c ∉ s.2) ∧ gives_up (classes s.1 c) = false
         ∧ init_method (classes s.1 c) = Some m ∧ fn_id m = f
         ∧ arg_regs m = self_reg :: rest
         ∧ (forall d, decl_of (h d) = decl_of (classes s.1 d))
         ∧ p ∈ tagged_from h (classes s.1 c) m self_reg).
End Resolver.

(** A step of the second pass leaves a class with unknown children as it
    is. *)
Definition open_classes_kept (h h' : Heap) : Prop :=
  forall c, children (h c) = None -> h' c = h c.

(** ** The final pass, class by class *)

(** The value that [detect_undefined_bitmap] stores in [cl.bitmap_attrs]:
    the list so far, the slots of the first base in [base_mro], the slots
    of the class's own attributes and those of the traits in its MRO. *)
Definition bitmap_of (h : Heap) (cl : cid) : list string :=
  let c := h cl in
  trait_bitmap_attrs h c
    (own_bitmap_attrs c
       (match base_mro c !! 1 with
        | Some base => bitmap_attrs c ++ bitmap_attrs (h base)
        | None => bitmap_attrs c
        end)).

(** An attribute that needs a slot in the bitmap of class [cl]: it is
    declared by the class or by a trait of its MRO with a type whose error
    value overlaps a real value, and it is not always defined in [cl]. *)
Definition needs_bitmap_slot (h : Heap) (cl : cid) (n : string) : Prop :=
  (n ∉ _always_initialized_attrs (h cl))
  ∧ exists t, error_overlap t = true
      ∧ ((n, t) ∈ attributes (h cl)
         ∨ exists base, base ∈ drop 1 (mro (h cl)) ∧ is_trait (h base) = true
                        ∧ (n, t) ∈ attributes (h base)).

(** Every slot of the bitmap of [cl] names an attribute that some class
    declares with an overlapping error value. *)
Definition bitmap_slots_declared (h : Heap) (cl : cid) : Prop :=
  forall n, n ∈ bitmap_attrs (h cl) ->
    exists d t, (n, t) ∈ attributes (h d) ∧ error_overlap t = true.

(** ** The collaborators, modelled from the spec *)

Module Model.

(** Modelled from the spec: the CFG and [get_cfg] (dataflow.py is not
    among the sources): predecessor and successor edges of the basic
    blocks, the successors of a block being the targets of its last op. *)
Record CFG := {
  succ : list (list Label);
  pred : list (list Label)
}.

Definition terminator_targets (b : BasicBlock) : list Label :=
  match last (ops b) with
  | Some op => targets op
  | None => []
  end.

Definition get_cfg (blocks : list BasicBlock) : CFG :=
  let succ := terminator_targets <$> blocks in
  let labels := seq 0 (length blocks) in
  {| succ := succ;
     pred := (fun b : Label =>
                filter (fun a : Label => b ∈ default [] (succ !! a)) labels)
             <$> labels |}.

Section Engine.
Context {T : Type} `{Countable T}.
Variable gen_and_kill : Op -> gset T * gset T.
Variable blocks : list BasicBlock.
Variable cfg : CFG.
Variable initial : gset T.

Definition transfer (cur : gset T) (op : Op) : gset T :=
  (cur ∖ snd (gen_and_kill op)) ∪ fst (gen_and_kill op).

Definition block_transfer (l : list Op) (cur : gset T) : gset T :=
  foldl transfer cur l.

(** The set at the entry of block [b]: the initial value at the entry
    block, joined (union) with the sets at the exits of the
    predecessors. *)
Definition block_before (out : list (gset T)) (b : Label) : gset T :=
  (if decide (b = 0) then initial else ∅)
  ∪ ⋃ ((fun p : Label => default ∅ (out !! p)) <$> default [] (pred cfg !! b)).

Definition round (out : list (gset T)) : list (gset T) :=
  imap (fun b block => block_transfer (ops block) (block_before out b)) blocks.

Fixpoint iterate (fuel : nat) (out : list (gset T)) : list (gset T) :=
  match fuel with
  | 0 => out
  | S fuel =>
      let out' := round out in
      if decide (out' = out) then out else iterate fuel out'
  end.

Definition universe : gset T :=
  initial ∪ ⋃ (map (fun block => ⋃ (map (fun op => fst (gen_and_kill op)) (ops block)))
                   blocks).

(** Sets only grow from round to round and stay inside [universe], so
    this many rounds reach the fixpoint. *)
Definition rounds : nat := S (length blocks * S (size universe)).

Definition block_out : list (gset T) :=
  iterate rounds (replicate (length blocks) ∅).

Definition solve : AnalysisResult T :=
  {| before := fun b i =>
       block_transfer (take i (default [] (ops <$> blocks !! b)))
                      (block_before block_out b);
     after := fun b i =>
       block_transfer (take (S i) (default [] (ops <$> blocks !! b)))
                      (block_before block_out b) |}.
End Engine.

(** Modelled from the spec: [run_analysis] (dataflow.py is not among the
    sources): a forward analysis with union at merge points, started from
    [initial] at the entry block and run to the fixpoint.  The pass uses
    the engine forward and with the "maybe" kind only, which is what this
    model implements. *)
Definition run_analysis (blocks : list BasicBlock) (cfg : CFG)
    (gen_and_kill : BaseAnalysisVisitor) (initial : gset string)
    (backward : bool) (kind : AnalysisKind) : AnalysisResult string :=
  solve (accept gen_and_kill) blocks cfg initial.

(** Modelled from the spec: the escape oracle [analyze_self_leaks]
    (mypyc/analysis/selfleaks.py is not among the sources).  An op is
    escape-inducing when it hands the receiver to code that is not known
    to leave it alone: a return (the object goes back to the caller), a
    call other than a recognised constructor call, a method call or any
    other op with the receiver among its operands, and an assignment that
    copies the receiver.  Escape is a forward "maybe" fact that is never
    killed. *)
Definition self_leak_gen_and_kill (self_reg : Register) (op : Op)
    : gset unit * gset unit :=
  let dirty_if (b : bool) : gset unit * gset unit :=
    if b then ({[tt]}, ∅) else (∅, ∅) in
  match op with
  | Return _ => dirty_if true
  | Assign dest src => dirty_if (bool_decide (src = self_reg ∨ dest = self_reg))
  | AssignMulti _ src => dirty_if (bool_decide (self_reg ∈ src))
  | SetMem _ src => dirty_if (bool_decide (src = self_reg))
  | Call fn args =>
      if is_init_call fn then dirty_if false
      else dirty_if (bool_decide (self_reg ∈ args))
  | MethodCall obj _ args => dirty_if (bool_decide (self_reg ∈ obj :: args))
  | OtherOp sources => dirty_if (bool_decide (self_reg ∈ sources))
  | _ => dirty_if false
  end.

Definition analyze_self_leaks (blocks : list BasicBlock) (self_reg : Register)
    (cfg : CFG) : AnalysisResult unit :=
  solve (self_leak_gen_and_kill self_reg) blocks cfg ∅.

(** The pass with the modelled collaborators plugged in. *)
Definition analyze_always_defined_attrs :=
  analyze_always_defined_attrs CFG get_cfg run_analysis analyze_self_leaks.

Definition analyze_always_defined_attrs_in_class :=
  analyze_always_defined_attrs_in_class CFG get_cfg run_analysis analyze_self_leaks.
End Model.

(** ** Reachability and the contract of the dataflow engine *)

(** The blocks reachable from the entry block (block 0) along the control
    edges, an edge leading from a block to the targets of its last op. *)
Inductive reachable (blocks : list BasicBlock) : Label -> Prop :=
| reachable_entry : reachable blocks 0
| reachable_edge (a : Label) (block : BasicBlock) (op : Op) (b : Label) :
    reachable blocks a -> blocks !! a = Some block ->
    last (ops block) = Some op -> b ∈ targets op ->
    reachable blocks b.

(** Modelled from the spec: the contract of [run_analysis] for a forward
    "maybe" analysis (dataflow.py is not among the sources).  The result
    holds the initial value at the entry, follows the gen and kill sets of
    every op, passes the set after an op on to the next op of the block, and
    passes the set after the last op of a block on to the first op of every
    successor (union at merge points); a stable solution of the forward
    equations satisfies all four. *)
Definition forward_solution (blocks : list BasicBlock)
    (gen_and_kill : Op -> GenAndKill) (initial : gset string)
    (r : AnalysisResult string) : Prop :=
  initial ⊆ before r 0 0
  ∧ (forall b block i op,
       blocks !! b = Some block -> ops block !! i = Some op ->
       after r b i = (before r b i ∖ snd (gen_and_kill op)) ∪ fst (gen_and_kill op))
  ∧ (forall b block i,
       blocks !! b = Some block -> S i < length (ops block) ->
       before r b (S i) = after r b i)
  ∧ (forall a block op b,
       blocks !! a = Some block -> last (ops block) = Some op -> b ∈ targets op ->
       is_Some (blocks !! b) ->
       after r a (length (ops block) - 1) ⊆ before r b 0).

(** ** Example class heaps *)

Module Examples.

Definition plain_class (nm : string) (attrs : list (string * RType))
    (defaults : gset string) (dels : list string) (mro_ base_mro_ : list cid)
    (chs : option (list cid)) (init : option FuncIR) : ClassIR :=
  {| name := nm; is_trait := false; inherits_python := false;
     allow_interpreted_subclasses := false; builtin_base := None;
     children := chs; serializable := false; mro := mro_; base_mro := base_mro_;
     attributes := attrs; attrs_with_defaults := defaults; deletable := dels;
     init_method := init; _always_initialized_attrs := ∅;
     _sometimes_initialized_attrs := ∅; init_self_leak := false;
     bitmap_attrs := [] |}.

Definition int_t : RType := {| rtype_name := "int"; error_overlap := false |}.
Definition i64_t : RType := {| rtype_name := "i64"; error_overlap := true |}.

(** A class without attributes, bases or children, for the identities
    that an example does not use. *)
Definition no_class (c : cid) : ClassIR :=
  plain_class "" [] ∅ [] [c] [c] (Some []) None.

Definition start (h : Heap) : State := {| classes := h; initializers := ∅ |}.

(** class C:
      def __init__(self): self.x = 0
                          if ...: self.y = 1
                          else:   self.y = 2; self.z = 3 *)
Definition branch_init : FuncIR :=
  {| fn_id := 0; arg_regs := [0];
     blocks := [ {| ops := [SetAttr 0 "x" 10; OtherOp []; Branch 1 1 2] |};
                 {| ops := [SetAttr 0 "y" 11; Goto 3] |};
                 {| ops := [SetAttr 0 "y" 12; SetAttr 0 "z" 13; Goto 3] |};
                 {| ops := [Return 14] |} ] |}.

Definition branch_heap : Heap := fun c =>
  match c with
  | 0 => plain_class "C" [("x", int_t); ("y", int_t); ("z", int_t)] ∅ []
                     [0] [0] (Some []) (Some branch_init)
  | _ => no_class c
  end.

(** class C:
      def __init__(self): self.x = self.compute() *)
Definition leak_init : FuncIR :=
  {| fn_id := 0; arg_regs := [0];
     blocks := [ {| ops := [MethodCall 0 "compute" []; SetAttr 0 "x" 1; Return 2] |} ] |}.

Definition leak_heap : Heap := fun c =>
  match c with
  | 0 => plain_class "C" [("x", int_t)] ∅ [] [0] [0] (Some []) (Some leak_init)
  | _ => no_class c
  end.

(** class B: v: i64          (declared, never assigned in the constructor)
    class D(B): w: i64 *)
Definition bitmap_heap : Heap := fun c =>
  match c with
  | 0 => plain_class "D" [("w", i64_t)] ∅ [] [0; 1] [0; 1] (Some []) None
  | 1 => plain_class "B" [("v", i64_t)] ∅ [] [1] [1] (Some [0]) None
  | _ => no_class c
  end.

(** class K:
      __deletable__ = ['x']
      x: int = 0 *)
Definition deletable_heap : Heap := fun c =>
  match c with
  | 0 => plain_class "K" [("x", int_t)] {["x"]} ["x"] [0] [0] (Some []) None
  | _ => no_class c
  end.

(** class P: a: int = 0
    class Q(P), with no default of its own for [a] *)
Definition demotion_heap : Heap := fun c =>
  match c with
  | 0 => plain_class "P" [("a", int_t)] {["a"]} [] [0] [0] (Some [1]) None
  | 1 => plain_class "Q" [] ∅ [] [1; 0] [1; 0] (Some []) None
  | _ => no_class c
  end.

(** class R:  x: int
      def __init__(self): raise NotImplementedError *)
Definition raising_init : FuncIR :=
  {| fn_id := 0; arg_regs := [0];
     blocks := [ {| ops := [OtherOp []; OtherOp [1]; Unreachable] |} ] |}.

Definition raising_heap : Heap := fun c =>
  match c with
  | 0 => plain_class "R" [("x", int_t)] ∅ [] [0] [0] (Some []) (Some raising_init)
  | _ => no_class c
  end.





(** class F:  a: int = 0
        def __init__(self): self.a = 1 *)
Definition default_write_init : FuncIR :=
  {| fn_id := 8; arg_regs := [0];
     blocks := [ {| ops := [OtherOp []; Goto 1] |};
                 {| ops := [SetAttr 0 "a" 2; Return 1] |} ] |}.

Definition default_write_heap : Heap := fun c =>
  match c with
  | 0 => plain_class "F" [("a", int_t)] {["a"]} [] [0] [0] (Some [])
                     (Some default_write_init)
  | _ => no_class c
  end.

(** A three-level family P > Q > R in the state the first pass could leave
    it in: P always defines a and b, Q only a, R a and c. *)
Definition with_always (v : gset string) (c : ClassIR) : ClassIR :=
  set_sometimes v (set_always v c).

Definition family_heap : Heap := fun c =>
  match c with
  | 0 => with_always {["a"; "b"]}
           (plain_class "P" [("a", int_t); ("b", int_t)] ∅ [] [0] [0] (Some [1]) None)
  | 1 => with_always {["a"]}
           (plain_class "Q" [] ∅ [] [1; 0] [1; 0] (Some [2]) None)
  | 2 => with_always {["a"; "c"]}
           (plain_class "R" [("c", int_t)] ∅ [] [2; 1; 0] [2; 1; 0] (Some []) None)
  | _ => no_class c
  end.

Definition family_rank (c : cid) : nat := 3 - c.

(** class A:  x: int
      def __init__(self): print(self.x); self.x = 1 *)
Definition read_first_init : FuncIR :=
  {| fn_id := 10; arg_regs := [0];
     blocks := [ {| ops := [GetAttr 0 "x"; SetAttr 0 "x" 1; Return 2] |} ] |}.

Definition read_first_heap : Heap := fun c =>
  match c with
  | 0 => plain_class "A" [("x", int_t)] ∅ [] [0] [0] (Some []) (Some read_first_init)
  | _ => no_class c
  end.

(** class W:  x: int
      def __init__(self, c): if c: self.x = 1
                             self.x = 2 *)
Definition mixed_write_init : FuncIR :=
  {| fn_id := 11; arg_regs := [0; 1];
     blocks := [ {| ops := [Branch 1 1 2] |};
                 {| ops := [SetAttr 0 "x" 5; Goto 2] |};
                 {| ops := [SetAttr 0 "x" 6; Return 7] |} ] |}.

Definition mixed_write_heap : Heap := fun c =>
  match c with
  | 0 => plain_class "W" [("x", int_t)] ∅ [] [0] [0] (Some []) (Some mixed_write_init)
  | _ => no_class c
  end.

(** class N, whose constructor was built without argument registers. *)
Definition no_self_init : FuncIR :=
  {| fn_id := 12; arg_regs := [];
     blocks := [ {| ops := [Return 1] |} ] |}.

Definition no_self_heap : Heap := fun c =>
  match c with
  | 0 => plain_class "N" [] ∅ [] [0] [0] (Some []) (Some no_self_init)
  | _ => no_class c
  end.

(** A trait T with an attribute, mixed into class M:
      @trait class T: t: i64
      class M(T):     u: i64 *)
Definition trait_heap : Heap := fun c =>
  match c with
  | 0 => plain_class "M" [("u", i64_t)] ∅ [] [0; 1] [0] (Some []) None
  | 1 => {| name := "T"; is_trait := true; inherits_python := false;
            allow_interpreted_subclasses := false; builtin_base := None;
            children := Some [0]; serializable := false; mro := [1]; base_mro := [1];
            attributes := [("t", i64_t)]; attrs_with_defaults := ∅; deletable := [];
            init_method := None; _always_initialized_attrs := ∅;
            _sometimes_initialized_attrs := ∅; init_self_leak := false;
            bitmap_attrs := [] |}
  | _ => no_class c
  end.

(** The results of the two definedness passes and of the escape oracle
    (the modelled ones) for a constructor with receiver register 0, in a
    class without defaults that declares [attrs]. *)
Definition model_dirty (m : FuncIR) : AnalysisResult unit :=
  Model.analyze_self_leaks (blocks m) 0 (Model.get_cfg (blocks m)).

Definition model_defined (h : Heap) (m : FuncIR) : AnalysisResult string :=
  analyze_maybe_defined_attrs_in_init Model.CFG Model.run_analysis h (blocks m) 0 ∅
                                      (Model.get_cfg (blocks m)).

Definition model_undefined (h : Heap) (m : FuncIR) (attrs : gset string)
    : AnalysisResult string :=
  analyze_maybe_undefined_attrs_in_init Model.CFG Model.run_analysis h (blocks m) 0 attrs
                                        (Model.get_cfg (blocks m)).

(** The answer of an escape oracle that finds no escape anywhere. *)
Definition no_escape : AnalysisResult unit :=
  {| before := fun _ _ => ∅; after := fun _ _ => ∅ |}.

(** The state the analysis (with the modelled collaborators) ends in. *)
Definition run (class_irs : list cid) (h : Heap) : State :=
  default (start no_class) (Model.analyze_always_defined_attrs 3 class_irs (start h)).

Definition B_init_decl : FuncDecl :=
  {| fn_name := "__init__"; fn_class_name := Some "B"%string; fn_self_class := 1 |}.
End Examples.


(** * Argument groups of the wrapper generator (mypyc/codegen/emitwrapper.py)

    The helper functions that group the arguments of a native function by
    kind and build the format string of the argument parser. *)

Module EmitWrapper.

Section ArgGroups.
(** [ArgKind] is an enumeration of mypy/nodes.py and [RuntimeArg] a class
    of mypyc/ir/func_ir.py; neither file is among the sources.  The
    enumeration is a type with decidable equality, the six members that
    emitwrapper.py imports, and the list [all_kinds] of all its members in
    the order of [for k in ArgKind]; of a RuntimeArg the functions read the
    name and the kind. *)
Variable ArgKind : Type.
Context `{EqDecision ArgKind}.
Variable ARG_POS ARG_OPT ARG_STAR ARG_NAMED ARG_STAR2 ARG_NAMED_OPT : ArgKind.
Variable all_kinds : list ArgKind.

Record RuntimeArg := {
  name : string;
  kind : ArgKind
}.

(** A [dict[ArgKind, list[RuntimeArg]]], as the list of its items. *)
Definition Groups := list (ArgKind * list RuntimeArg).

(** [groups[k]]; [None] stands for the KeyError of a missing key. *)
Fixpoint getitem (groups : Groups) (k : ArgKind) : option (list RuntimeArg) :=
  match groups with
  | [] => None
  | (k', l) :: rest => if decide (k' = k) then Some l else getitem rest k
  end.

Definition make_arg_groups (args : list RuntimeArg) : Groups :=
  map (fun k => (k, filter (fun arg => kind arg = k) args)) all_kinds.

Definition reorder_arg_groups (groups : Groups) : option (list RuntimeArg) :=
  pos ← getitem groups ARG_POS;
  opt ← getitem groups ARG_OPT;
  named_opt ← getitem groups ARG_NAMED_OPT;
  named ← getitem groups ARG_NAMED;
  Some (pos ++ opt ++ named_opt ++ named).

(** Truthiness of a Python list. *)
Definition truthy {A : Type} (l : list A) : bool :=
  match l with [] => false | _ => true end.

(** The condition [groups[k1] or groups[k2]]: the second item is looked up
    only when the first list is empty. *)
Definition either (groups : Groups) (k1 k2 : ArgKind) : option bool :=
  l1 ← getitem groups k1;
  if truthy l1 then Some true else truthy <$> getitem groups k2.

(** [s * n] on strings. *)
Fixpoint repeat_str (s : string) (n : nat) : string :=
  match n with
  | 0 => ""
  | S n => s +:+ repeat_str s n
  end.

Definition make_format_string (func_name : option string) (groups : Groups)
    : option string :=
  let format := ""%string in
  star ← either groups ARG_STAR ARG_STAR2;
  let format := if (star : bool) then format +:+ "%" else format in
  pos ← getitem groups ARG_POS;
  let format := format +:+ repeat_str "O" (length pos) in
  opt ← getitem groups ARG_OPT;
  optional ← (if truthy opt then Some true else either groups ARG_NAMED_OPT ARG_NAMED);
  format ← (if (optional : bool)
            then opt ← getitem groups ARG_OPT;
                 Some (format +:+ ("|" +:+ repeat_str "O" (length opt)))
            else Some format);
  keyword_only ← either groups ARG_NAMED_OPT ARG_NAMED;
  format ← (if (keyword_only : bool)
            then named_opt ← getitem groups ARG_NAMED_OPT;
                 Some (format +:+ ("$" +:+ repeat_str "O" (length named_opt)))
            else Some format);
  named ← getitem groups ARG_NAMED;
  format ← (if truthy named
            then named ← getitem groups ARG_NAMED;
                 Some (format +:+ ("@" +:+ repeat_str "O" (length named)))
            else Some format);
  Some (match func_name with
        | Some func_name => format +:+ (":" +:+ func_name)
        | None => format
        end).

(** The pointer arguments that [generate_wrapper_function] and
    [generate_legacy_wrapper_function] pass to the argument parser after
    the keyword list: when the function takes [*args] or [**kwargs], one
    pointer (or NULL) for each of the two, then one pointer for every
    reordered argument.  [None] also stands for the IndexError of [l[0]]
    on an empty list. *)
Definition star_ptr (groups : Groups) (k : ArgKind) : option string :=
  l ← getitem groups k;
  if truthy l
  then l ← getitem groups k; arg ← head l; Some ("&obj_" +:+ name arg)
  else Some "NULL"%string.

Definition arg_ptrs (groups : Groups) (reordered_args : list RuntimeArg)
    : option (list string) :=
  star ← either groups ARG_STAR ARG_STAR2;
  ptrs ← (if (star : bool)
          then p1 ← star_ptr groups ARG_STAR;
               p2 ← star_ptr groups ARG_STAR2;
               Some [p1; p2]
          else Some []);
  Some (ptrs ++ map (fun arg => "&obj_" +:+ name arg) reordered_args).
End ArgGroups.

Arguments name {ArgKind} _.
Arguments kind {ArgKind} _.

(** The character of a one-character string literal. *)
Definition char_of (s : string) : Ascii.ascii :=
  match s with
  | String c _ => c
  | EmptyString => Ascii.zero
  end.

(** The number of occurrences of a character in a string, and the
    characters of a string other than [O] (the delimiters of a format
    string). *)
Fixpoint count_char (c : Ascii.ascii) (s : string) : nat :=
  match s with
  | EmptyString => 0
  | String c' s => (if Ascii.eqb c' c then 1 else 0) + count_char c s
  end.

Fixpoint delimiters (s : string) : list Ascii.ascii :=
  match s with
  | EmptyString => []
  | String c s => if Ascii.eqb c (char_of "O") then delimiters s else c :: delimiters s
  end.

Definition starts_with_percent (s : string) : bool :=
  match s with
  | String c _ => Ascii.eqb c (char_of "%")
  | EmptyString => false
  end.

(** The enumeration with exactly the six kinds, for the examples. *)
Inductive Kind := POS | OPT | STAR | NAMED | STAR2 | NAMED_OPT.

#[global] Instance Kind_eq_dec : EqDecision Kind.
Proof. solve_decision. Defined.

Definition kinds : list Kind := [POS; OPT; STAR; NAMED; STAR2; NAMED_OPT].

(** def f(a, b=..., *rest, c, d=...) *)
Definition example_args : list (RuntimeArg Kind) :=
  [ {| name := "a"; kind := POS |}; {| name := "b"; kind := OPT |};
    {| name := "rest"; kind := STAR |}; {| name := "c"; kind := NAMED |};
    {| name := "d"; kind := NAMED_OPT |} ].
End EmitWrapper.

(** * Names for IR values (mypyc/ir/pprint.py) *)

Module PPrint.

(** What [generate_names_for_ir] reads of a value.  The classes are those
    of mypyc/ir/ops.py, which is not among the sources: a Register has a
    name; an Integer or a Float is a literal; an op has the list
    [op.sources()] and is an Assign or AssignMulti (with its destination
    register), or else a ControlOp or an op whose [is_void] is set, or else
    any other op.  Values are compared by identity, as the keys of the
    dict are. *)
Inductive ValueKind :=
| RegisterV (name : string)
| LiteralV
| AssignV (dest : Value) (sources : list Value)
| ControlOrVoidV (sources : list Value)
| OpV (sources : list Value).

Record BasicBlock := { ops : list Value }.

(** The state of the loops: the dict [names], the set [used_names] and the
    counter [temp_index]. *)
Record NameState := {
  names : gmap Value string;
  used_names : gset string;
  temp_index : nat
}.

Section Names.
(** The objects behind the identities. *)
Variable kind_of : Value -> ValueKind.

(** [names[arg] = arg.name; used_names.add(arg.name)]; an object without a
    [name] attribute raises. *)
Definition add_arg (arg : Value) (st : NameState) : option NameState :=
  match kind_of arg with
  | RegisterV name =>
      Some {| names := <[arg := name]> (names st);
              used_names := {[name]} ∪ used_names st;
              temp_index := temp_index st |}
  | _ => None
  end.

(** The list [values] of an op; the [continue] of a control op or void op
    skips the loop over the values, which is the loop over the empty list.
    An object that is not an op has no [sources()]. *)
Definition op_values (names : gmap Value string) (op : Value) : option (list Value) :=
  match kind_of op with
  | AssignV dest sources =>
      Some (filter (fun source => names !! source = None) sources ++ [dest])
  | ControlOrVoidV sources => Some []
  | OpV sources =>
      let values := filter (fun source => names !! source = None) sources in
      Some (if decide (names !! op = None) then values ++ [op] else values)
  | RegisterV _ | LiteralV => None
  end.

(** The loop [while True] that appends _2, _3, ... to a name, with fuel
    for the number of candidates tried. *)
Fixpoint unique_suffix (fuel : nat) (name : string) (used_names : gset string) (n : nat)
    : option string :=
  match fuel with
  | 0 => None
  | S fuel =>
      let candidate := name +:+ "_" +:+ pretty n in
      if decide (candidate ∉ used_names) then Some candidate
      else unique_suffix fuel name used_names (S n)
  end.

(** The name chosen for a value and the counter after the choice; [None]
    for a literal, which gets no name. *)
Definition choose_name (temp_index : nat) (value : Value) : option (string * nat) :=
  match kind_of value with
  | RegisterV name =>
      if negb (String.eqb name "") then Some (name, temp_index)
      else Some ("r" +:+ pretty temp_index, S temp_index)
  | LiteralV => None
  | _ => Some ("r" +:+ pretty temp_index, S temp_index)
  end.

(** The body of [for value in values]. *)
Definition name_value (fuel : nat) (value : Value) (st : NameState) : option NameState :=
  if decide (is_Some (names st !! value)) then Some st
  else
    match choose_name (temp_index st) value with
    | None => Some st
    | Some (name, temp_index') =>
        name ← (if decide (name ∈ used_names st)
                then unique_suffix fuel name (used_names st) 2
                else Some name);
        Some {| names := <[value := name]> (names st);
                used_names := {[name]} ∪ used_names st;
                temp_index := temp_index' |}
    end.

(** The body of [for op in block.ops]. *)
Definition name_op (fuel : nat) (op : Value) (st : NameState) : option NameState :=
  values ← op_values (names st) op;
  for_each (name_value fuel) values st.

(** The body of [for block in blocks]. *)
Definition name_block (fuel : nat) (block : BasicBlock) (st : NameState)
    : option NameState :=
  for_each (name_op fuel) (ops block) st.

(** The state before the loops. *)
Definition start : NameState :=
  {| names := ∅; used_names := ∅; temp_index := 0 |}.

Definition generate_names_for_ir (fuel : nat) (args : list Register)
    (blocks : list BasicBlock) : option (gmap Value string) :=
  st ← for_each add_arg args start;
  st ← for_each (name_block fuel) blocks st;
  Some (names st).

(** The inputs on which no attribute access fails: the arguments are
    registers and the blocks hold ops. *)
Definition is_op (value : Value) : Prop :=
  match kind_of value with
  | RegisterV _ | LiteralV => False
  | _ => True
  end.

Definition well_formed (args : list Register) (blocks : list BasicBlock) : Prop :=
  (forall arg, arg ∈ args -> exists name, kind_of arg = RegisterV name)
  ∧ (forall block op, block ∈ blocks -> op ∈ ops block -> is_op op).

(** A bound on the number of values that the loops look at. *)
Definition sources_of (value : Value) : list Value :=
  match kind_of value with
  | AssignV _ sources | ControlOrVoidV sources | OpV sources => sources
  | _ => []
  end.

Definition block_cost (block : BasicBlock) : nat :=
  sum_list (map (fun op => S (length (sources_of op))) (ops block)).

Definition n_values (blocks : list BasicBlock) : nat :=
  sum_list (map block_cost blocks).

(** The values that the loop body of an op names: the sources and the
    destination of an assignment, the sources and the result of an op that
    is neither a control op nor void. *)
Definition operands (op : Value) : list Value :=
  match kind_of op with
  | AssignV dest sources => sources ++ [dest]
  | OpV sources => sources ++ [op]
  | _ => []
  end.

(** Invariants of the loops: every name in the dict is in [used_names] and
    no two values share a name; bindings are never changed; a literal has
    no name. *)
Definition names_unique (st : NameState) : Prop :=
  (forall v n, names st !! v = Some n -> n ∈ used_names st)
  ∧ (forall v w n, names st !! v = Some n -> names st !! w = Some n -> v = w).

Definition names_kept (st st' : NameState) : Prop :=
  forall v n, names st !! v = Some n -> names st' !! v = Some n.

Definition no_literal (st : NameState) : Prop :=
  forall v, kind_of v = LiteralV -> names st !! v = None.
End Names.

(** An example: [def f(x, r0)] with the body [r0' = x + r0; x' = r0';
    return x'], where [r0'] is a temporary and [x'] a second register
    named x. *)
Definition example_kind_of (v : Value) : ValueKind :=
  match v with
  | 0 => RegisterV "x"
  | 1 => RegisterV "r0"
  | 2 => OpV [0; 1]
  | 3 => RegisterV "x"
  | 4 => AssignV 3 [2]
  | 5 => ControlOrVoidV [3]
  | 6 => LiteralV
  | _ => OpV [6]
  end.

Definition example_args : list Register := [0; 1].
Definition example_blocks : list BasicBlock := [ {| ops := [2; 4; 7; 5] |} ].
End PPrint.
(** * Properties *)

(** ** Gen and kill sets of the maybe-undefined pass *)

(** C8 (as stated, refuted): for the write [self.x = ...] the gen set of the
    maybe-undefined visitor is not [{x}], and [x] is not in the set after
    the op even when it was in the set before it. *)
Lemma C8_write_gen_counterexample :
  fst (accept (AttributeMaybeUndefinedVisitor Examples.leak_heap 0) (SetAttr 0 "x" 1))
    ≠ {["x"%string]}
  ∧ "x"%string ∉ Model.transfer (accept (AttributeMaybeUndefinedVisitor Examples.leak_heap 0))
                               {["x"%string]} (SetAttr 0 "x" 1).
Proof.
  split.
  - simpl. set_solver.
  - unfold Model.transfer. simpl. set_solver.
Qed.

(** C8 (amended): in the maybe-undefined pass a write to the receiver has
    an empty gen set and the kill set [{name}], so the name is absent from
    the set after the op; a recognised base-constructor call has an empty
    gen set and kills the callee's always-defined attributes. *)
Theorem C8_maybe_undefined_gen_kill (h : Heap) (self_reg : Register)
    (attr : string) (src : Value) (fn : FuncDecl) (args : list Value)
    (X : gset string) :
  is_init_call fn = true ->
  accept (AttributeMaybeUndefinedVisitor h self_reg) (SetAttr self_reg attr src)
    = (∅, {[attr]})
  ∧ (attr ∉ Model.transfer (accept (AttributeMaybeUndefinedVisitor h self_reg)) X
                           (SetAttr self_reg attr src))
  ∧ accept (AttributeMaybeUndefinedVisitor h self_reg) (Call fn args)
    = (∅, attributes_initialized_by_init_call h fn)
  ∧ Model.transfer (accept (AttributeMaybeUndefinedVisitor h self_reg)) X (Call fn args)
    = X ∖ attributes_initialized_by_init_call h fn.
Proof.
  intros Hinit. unfold Model.transfer. simpl.
  rewrite Hinit. rewrite !decide_True by done.
  simpl. repeat split; set_solver.
Qed.

Lemma C8_maybe_undefined_gen_kill_witness :
  accept (AttributeMaybeUndefinedVisitor Examples.leak_heap 0) (SetAttr 0 "x" 1)
    = (∅, {["x"%string]})
  ∧ ("x"%string ∉ Model.transfer (accept (AttributeMaybeUndefinedVisitor Examples.leak_heap 0))
                                {["x"%string]} (SetAttr 0 "x" 1))
  ∧ accept (AttributeMaybeUndefinedVisitor Examples.leak_heap 0)
           (Call Examples.B_init_decl [0])
    = (∅, attributes_initialized_by_init_call Examples.leak_heap Examples.B_init_decl)
  ∧ Model.transfer (accept (AttributeMaybeUndefinedVisitor Examples.leak_heap 0))
                   {["x"%string]} (Call Examples.B_init_decl [0])
    = {["x"%string]} ∖ attributes_initialized_by_init_call Examples.leak_heap
                                                            Examples.B_init_decl.
Proof.
  apply (C8_maybe_undefined_gen_kill Examples.leak_heap 0 "x" 1
                                     Examples.B_init_decl [0] {["x"%string]}).
  reflexivity.
Defined.

(** ** Evaluations of the pass on the example heaps *)

(** Runs the pass on a closed input and decides the remaining facts by
    evaluation. *)
Ltac by_eval := apply (bool_decide_unpack _); vm_compute; exact I.

Lemma Some_default {A} (d : A) (r : option A) : is_Some r -> r = Some (default d r).
Proof. by intros [x ->]. Qed.

Ltac run_pass :=
  match goal with
  | |- exists st, ?r = Some st ∧ _ =>
      exists (default (Examples.start Examples.no_class) r);
      split; [apply Some_default; by_eval |]
  end.

(** C1 (the code at the failing input): with the derived class [D] listed
    before its base [B], the pass leaves [D.bitmap_attrs = ["w"]] and
    [B.bitmap_attrs = ["v"]], so the derived list truncated to the length
    of the base list differs from the base list; with [B] listed first the
    derived list is ["v"; "w"]. *)
Lemma C1_bitmap_derived_before_base :
  (exists st,
      Model.analyze_always_defined_attrs 3 [0; 1] (Examples.start Examples.bitmap_heap)
        = Some st
      ∧ bitmap_attrs (classes st 0) = ["w"%string]
      ∧ bitmap_attrs (classes st 1) = ["v"%string]
      ∧ take (length (bitmap_attrs (classes st 1))) (bitmap_attrs (classes st 0))
          ≠ bitmap_attrs (classes st 1))
  ∧ (exists st,
      Model.analyze_always_defined_attrs 3 [1; 0] (Examples.start Examples.bitmap_heap)
        = Some st
      ∧ bitmap_attrs (classes st 0) = ["v"%string; "w"%string]
      ∧ bitmap_attrs (classes st 1) = ["v"%string]).
Proof.
  split; run_pass; repeat split; by_eval.
Qed.

(** C9 (the code at the failing input): a class without constructor whose
    attribute [x] has a class-body default and is deletable ends the
    analysis with [x] in [_always_initialized_attrs]. *)
Lemma C9_deletable_default_kept :
  exists st,
    Model.analyze_always_defined_attrs 2 [0] (Examples.start Examples.deletable_heap)
      = Some st
    ∧ is_deletable (classes st 0) "x" = true
    ∧ "x"%string ∈ _always_initialized_attrs (classes st 0).
Proof.
  run_pass; split; by_eval.
Qed.

(** C3: worked example 1.  The constructor writes [x], then branches to
    either [y := ...] or [y := ...; z := ...], and returns.  The analysis
    gives always = {x, y} (without z) and sometimes = {x, y, z}. *)
Theorem C3_branch_example :
  exists st,
    Model.analyze_always_defined_attrs 2 [0] (Examples.start Examples.branch_heap)
      = Some st
    ∧ _always_initialized_attrs (classes st 0) = {["x"%string; "y"%string]}
    ∧ ("z"%string ∉ _always_initialized_attrs (classes st 0))
    ∧ _sometimes_initialized_attrs (classes st 0)
        = {["x"%string; "y"%string; "z"%string]}.
Proof.
  run_pass; repeat split; by_eval.
Qed.

(** ** Loops over a state *)

Section ForEach.
Context {A S : Type} (f : A -> S -> option S).

Lemma for_each_inv (I : S -> Prop) (l : list A) (s s' : S) :
  (forall x s s', x ∈ l -> I s -> f x s = Some s' -> I s') ->
  I s -> for_each f l s = Some s' -> I s'.
Proof.
  revert s. induction l as [| x l IH]; intros s Hstep Hs Hrun; simpl in Hrun.
  - by simplify_eq.
  - destruct (f x s) as [s1 |] eqn:E; [| done].
    apply (IH s1); [| | done].
    + intros y t t' Hy. apply Hstep. by right.
    + eapply Hstep; [| done | done]. by left.
Qed.

Lemma for_each_rel (R : S -> S -> Prop) (l : list A) (s s' : S) :
  (forall s, R s s) ->
  (forall s1 s2 s3, R s1 s2 -> R s2 s3 -> R s1 s3) ->
  (forall x s s', x ∈ l -> f x s = Some s' -> R s s') ->
  for_each f l s = Some s' -> R s s'.
Proof.
  intros Hrefl Htrans Hstep Hrun.
  apply (for_each_inv (fun t => R s t) l s s'); [| done | done].
  intros x t t' Hx Ht Hf. eapply Htrans; [done |]. by eapply Hstep.
Qed.

(** Every step establishes a fact about its element, and facts already
    established survive the later steps. *)
Lemma for_each_establish (I : S -> Prop) (E : A -> S -> Prop) (l : list A) (s s' : S) :
  (forall x s s', x ∈ l -> I s -> f x s = Some s' -> I s' ∧ E x s') ->
  (forall x y s s', y ∈ l -> I s -> E x s -> f y s = Some s' -> E x s') ->
  I s -> for_each f l s = Some s' -> I s' ∧ forall x, x ∈ l -> E x s'.
Proof.
  intros Hstep Hkeep Hs Hrun.
  assert (H : I s' ∧ (forall x, E x s -> E x s') ∧ forall x, x ∈ l -> E x s').
  2:{ by destruct H as (? & ? & ?). }
  revert s Hs Hrun Hstep Hkeep.
  induction l as [| x l IH]; intros s Hs Hrun Hstep Hkeep; simpl in Hrun.
  - simplify_eq. split; [done |]. split; [done |]. intros x Hx. by apply elem_of_nil in Hx.
  - destruct (f x s) as [s1 |] eqn:E1; [| done].
    destruct (Hstep x s s1) as [Hs1 Hx]; [by left | done | done |].
    destruct (IH s1) as (Hs' & Hold & Hnew); [done | done | | |].
    + intros y t t' Hy. apply Hstep. by right.
    + intros z y t t' Hy. apply Hkeep. by right.
    + split; [done |]. split.
      * intros z Hz. apply Hold. eapply (Hkeep z x s s1); [by left | done | done | done].
      * intros z [-> | Hz]%elem_of_cons; [by apply Hold | by apply Hnew].
Qed.

Lemma for_each_total (I : S -> Prop) (l : list A) (s : S) :
  (forall x s, x ∈ l -> I s -> exists s', f x s = Some s' ∧ I s') ->
  I s -> exists s', for_each f l s = Some s' ∧ I s'.
Proof.
  revert s. induction l as [| x l IH]; intros s Hstep Hs; simpl.
  - by exists s.
  - destruct (Hstep x s) as (s1 & -> & Hs1); [by left | done |].
    apply IH; [| done]. intros y t Hy. apply Hstep. by right.
Qed.
End ForEach.

(** ** The walks of the single-class resolver *)

Section WalkLemmas.
Variable self_reg : Register.
Variable maybe_defined maybe_undefined : AnalysisResult string.
Variable dirty : AnalysisResult unit.

Abbreviation a_checks := (always_checks self_reg maybe_defined maybe_undefined).
Abbreviation a_targets := (always_targets maybe_defined maybe_undefined dirty).
Abbreviation a_ops := (always_ops self_reg maybe_defined maybe_undefined dirty).
Abbreviation a_blocks := (always_blocks self_reg maybe_defined maybe_undefined dirty).
Abbreviation s_targets := (sometimes_targets maybe_defined dirty).
Abbreviation s_ops := (sometimes_ops maybe_defined dirty).
Abbreviation s_blocks := (sometimes_blocks maybe_defined dirty).

Lemma always_checks_subseteq (b : Label) (i : nat) (op : Op) (A : gset string) :
  a_checks b i op A ⊆ A.
Proof.
  unfold always_checks.
  destruct op; repeat case_match; set_solver.
Qed.

Lemma always_targets_subseteq (b : Label) (i : nat) (ts : list Label) (A : gset string) :
  a_targets b i ts A ⊆ A.
Proof.
  unfold always_targets. revert A.
  induction ts as [| t ts IH]; intros A; simpl; [done |].
  etrans; [apply IH |]. case_match; set_solver.
Qed.

Lemma always_ops_subseteq (b : Label) (l : list Op) (i : nat) (A : gset string) :
  a_ops b i l A ⊆ A.
Proof.
  revert i A. induction l as [| op l IH]; intros i A; simpl; [done |].
  pose proof (always_checks_subseteq b i op A) as Hc.
  destruct (nonempty (after dirty b i)).
  - destruct (negb (nonempty (before dirty b i))); set_solver.
  - etrans; [apply IH |]. destruct (is_control_op op); [| done].
    etrans; [apply always_targets_subseteq | done].
Qed.

Lemma always_blocks_subseteq (bs : list BasicBlock) (b : Label) (A : gset string) :
  a_blocks b bs A ⊆ A.
Proof.
  revert b A. induction bs as [| block bs IH]; intros b A; simpl; [done |].
  etrans; [apply IH | apply always_ops_subseteq].
Qed.

Lemma always_ops_mono (b : Label) (l : list Op) (i : nat) (A X : gset string) :
  A ⊆ X -> a_ops b i l A ⊆ X.
Proof. intros. etrans; [apply always_ops_subseteq | done]. Qed.

Lemma always_blocks_mono (bs : list BasicBlock) (b : Label) (A X : gset string) :
  A ⊆ X -> a_blocks b bs A ⊆ X.
Proof. intros. etrans; [apply always_blocks_subseteq | done]. Qed.

(** Once a freeze point has been met, the always-defined candidates are
    among the sometimes-defined attributes. *)
Lemma always_sometimes_targets (b : Label) (i : nat) (ts : list Label)
    (A S : gset string) (met : bool) :
  (met = true -> A ⊆ S) ->
  freeze_targets dirty b i ts met = true ->
  a_targets b i ts A ⊆ s_targets b i ts S.
Proof.
  unfold freeze_targets, always_targets, sometimes_targets.
  revert A S met. induction ts as [| t ts IH]; intros A S met Hmet; simpl; [done |].
  apply IH. case_match; [set_solver | done].
Qed.

Lemma always_sometimes_ops (b : Label) (l : list Op) (i : nat)
    (A S : gset string) (met : bool) :
  (met = true -> A ⊆ S) ->
  freeze_ops dirty b i l met = true ->
  a_ops b i l A ⊆ s_ops b i l S.
Proof.
  revert i A S met. induction l as [| op l IH]; intros i A S met Hmet; simpl; [done |].
  pose proof (always_checks_subseteq b i op A) as Hc.
  destruct (nonempty (after dirty b i)).
  - destruct (negb (nonempty (before dirty b i))); [set_solver |].
    intros ->. set_solver.
  - destruct (is_control_op op).
    + apply IH. intros Hf. eapply always_sometimes_targets; [| done].
      intros ->. set_solver.
    + apply IH. intros ->. set_solver.
Qed.

Lemma always_sometimes_blocks (bs : list BasicBlock) (b : Label)
    (A S : gset string) (met : bool) :
  (met = true -> A ⊆ S) ->
  freeze_blocks dirty b bs met = true ->
  a_blocks b bs A ⊆ s_blocks b bs S.
Proof.
  revert b A S met. induction bs as [| block bs IH]; intros b A S met Hmet; simpl; [done |].
  apply IH. by apply always_sometimes_ops.
Qed.

Lemma find_always_subseteq_sometimes (blocks : list BasicBlock) (all_attrs : gset string) :
  has_freeze_point dirty blocks = true ->
  find_always_defined_attributes self_reg maybe_defined maybe_undefined dirty blocks all_attrs
    ⊆ find_sometimes_defined_attributes maybe_defined dirty blocks.
Proof. apply always_sometimes_blocks. done. Qed.


End WalkLemmas.

(** ** Descriptors: the fields a setter leaves alone *)

Lemma decl_of_fields (c c' : ClassIR) :
  decl_of c = decl_of c' ->
  is_trait c = is_trait c' ∧ children c = children c' ∧ mro c = mro c'
  ∧ base_mro c = base_mro c' ∧ attributes c = attributes c'
  ∧ attrs_with_defaults c = attrs_with_defaults c' ∧ deletable c = deletable c'
  ∧ init_method c = init_method c' ∧ gives_up c = gives_up c'.
Proof.
  intros H.
  change (is_trait (decl_of c) = is_trait (decl_of c')
          ∧ children (decl_of c) = children (decl_of c')
          ∧ mro (decl_of c) = mro (decl_of c')
          ∧ base_mro (decl_of c) = base_mro (decl_of c')
          ∧ attributes (decl_of c) = attributes (decl_of c')
          ∧ attrs_with_defaults (decl_of c) = attrs_with_defaults (decl_of c')
          ∧ deletable (decl_of c) = deletable (decl_of c')
          ∧ init_method (decl_of c) = init_method (decl_of c')
          ∧ gives_up (decl_of c) = gives_up (decl_of c')).
  by rewrite H.
Qed.

Lemma set_always_fields (c c' : ClassIR) :
  set_always ∅ c = set_always ∅ c' ->
  decl_of c = decl_of c'
  ∧ _sometimes_initialized_attrs c = _sometimes_initialized_attrs c'
  ∧ init_self_leak c = init_self_leak c'
  ∧ bitmap_attrs c = bitmap_attrs c'.
Proof.
  intros H.
  change (decl_of (set_always ∅ c) = decl_of (set_always ∅ c')
          ∧ _sometimes_initialized_attrs (set_always ∅ c)
            = _sometimes_initialized_attrs (set_always ∅ c')
          ∧ init_self_leak (set_always ∅ c) = init_self_leak (set_always ∅ c')
          ∧ bitmap_attrs (set_always ∅ c) = bitmap_attrs (set_always ∅ c')).
  by rewrite H.
Qed.

Lemma set_bitmap_attrs_fields (c c' : ClassIR) :
  set_bitmap_attrs [] c = set_bitmap_attrs [] c' ->
  decl_of c = decl_of c'
  ∧ _always_initialized_attrs c = _always_initialized_attrs c'
  ∧ _sometimes_initialized_attrs c = _sometimes_initialized_attrs c'
  ∧ init_self_leak c = init_self_leak c'.
Proof.
  intros H.
  change (decl_of (set_bitmap_attrs [] c) = decl_of (set_bitmap_attrs [] c')
          ∧ _always_initialized_attrs (set_bitmap_attrs [] c)
            = _always_initialized_attrs (set_bitmap_attrs [] c')
          ∧ _sometimes_initialized_attrs (set_bitmap_attrs [] c)
            = _sometimes_initialized_attrs (set_bitmap_attrs [] c')
          ∧ init_self_leak (set_bitmap_attrs [] c)
            = init_self_leak (set_bitmap_attrs [] c')).
  by rewrite H.
Qed.

Lemma upd_eq (cl : cid) (f : ClassIR -> ClassIR) (h : Heap) : upd cl f h cl = f (h cl).
Proof. unfold upd. by rewrite decide_True. Qed.

Lemma upd_ne (cl c : cid) (f : ClassIR -> ClassIR) (h : Heap) :
  c ≠ cl -> upd cl f h c = h c.
Proof. intros. unfold upd. by rewrite decide_False. Qed.

(** ** The first pass *)

Section FirstPass.
Variable CFG : Type.
Variable get_cfg : list BasicBlock -> CFG.
Variable run_analysis :
  list BasicBlock -> CFG -> BaseAnalysisVisitor -> gset string ->
  bool -> AnalysisKind -> AnalysisResult string.
Variable analyze_self_leaks :
  list BasicBlock -> Register -> CFG -> AnalysisResult unit.

Abbreviation step1 := (first_pass_step CFG get_cfg analyze_self_leaks).
Abbreviation analyze_class :=
  (analyze_always_defined_attrs_in_class CFG get_cfg run_analysis analyze_self_leaks).

Lemma first_pass_step_refl (s : State * gset cid) : step1 s s.
Proof. split; [done |]. split; [done |]. split; [done |]. by intros c ? ?. Qed.

Lemma first_pass_step_trans (s1 s2 s3 : State * gset cid) :
  step1 s1 s2 -> step1 s2 s3 -> step1 s1 s3.
Proof.
  intros (Hs12 & Hf12 & Hd12 & Hr12) (Hs23 & Hf23 & Hd23 & Hr23).
  split; [set_solver |]. split; [| split].
  - intros c Hc. rewrite Hf23; [by apply Hf12 | set_solver].
  - intros c. by rewrite Hd23.
  - intros c Hc3 Hc1 Hg.
    destruct (decide (c ∈ s2.2)) as [Hc2 | Hc2].
    + rewrite Hf23 in Hg |- * by done. by apply Hr12.
    + by apply Hr23.
Qed.

Lemma analyze_init_resolved (cl : cid) (m : FuncIR) (self_reg : Register)
    (rest : list Register) (st : State) :
  init_method (classes st cl) = Some m ->
  arg_regs m = self_reg :: rest ->
  resolved CFG get_cfg analyze_self_leaks
    (classes (analyze_init CFG get_cfg run_analysis analyze_self_leaks cl m self_reg st) cl).
Proof.
  intros Hm Hargs. unfold analyze_init. simpl. rewrite upd_eq.
  unfold resolved, get_init_method. simpl. rewrite Hm.
  eexists self_reg, rest, _, _, _. split; [done |]. simpl.
  split; [reflexivity |]. split; reflexivity.
Qed.

Lemma analyze_in_class_step (fuel : nat) (cl : cid) (s s' : State * gset cid) :
  analyze_class fuel cl s = Some s' -> step1 s s' ∧ cl ∈ s'.2.
Proof.
  revert cl s s'. induction fuel as [| fuel IH]; intros cl [st seen] s' Hrun; [done |].
  simpl in Hrun. destruct (decide (cl ∈ seen)) as [Hin | Hnin].
  { simplify_eq. split; [apply first_pass_step_refl | done]. }
  destruct (gives_up (classes st cl)) eqn:Hg.
  { simplify_eq. split; [| set_solver].
    split; [simpl; set_solver |]. split; [done |]. split; [done |].
    simpl. intros c Hc Hc' Hgc. assert (c = cl) as -> by set_solver. congruence. }
  destruct (for_each _ _ _) as [[st2 seen2] |] eqn:Hloop; [| done].
  assert (Hstep : step1 (st, {[cl]} ∪ seen) (st2, seen2)).
  { eapply for_each_rel; [apply first_pass_step_refl | apply first_pass_step_trans | | done].
    intros base t t' _ Hb. by apply IH in Hb as [? _]. }
  destruct Hstep as (Hs & Hf & Hd & Hr). simpl in Hs, Hf, Hd, Hr.
  assert (Hcl2 : classes st2 cl = classes st cl) by (apply Hf; set_solver).
  assert (Hnew : forall c, c ≠ cl -> c ∈ seen2 -> c ∉ seen ->
                   gives_up (classes st2 c) = false ->
                   resolved CFG get_cfg analyze_self_leaks (classes st2 c)).
  { intros c Hne Hc Hc' Hgc. apply Hr; [done | set_solver | done]. }
  unfold get_init_method in Hrun.
  destruct (init_method (classes st2 cl)) as [m |] eqn:Hm.
  - destruct (arg_regs m) as [| self_reg rest] eqn:Hargs; [done |]. simplify_eq.
    split; [| simpl; set_solver].
    split; [simpl; set_solver |]. split; [| split]; simpl.
    + intros c Hc. unfold analyze_init. simpl.
      rewrite upd_ne by set_solver. apply Hf. set_solver.
    + intros c. unfold analyze_init. simpl. rewrite <- Hd. unfold upd.
      case_decide; [subst |]; done.
    + intros c Hc Hc' Hgc. destruct (decide (c = cl)) as [-> | Hne].
      * by eapply analyze_init_resolved.
      * unfold analyze_init in Hgc |- *. simpl in Hgc |- *.
        rewrite upd_ne in Hgc |- * by done. by apply Hnew.
  - simplify_eq. split; [| simpl; set_solver].
    split; [simpl; set_solver |]. split; [| split]; simpl.
    + intros c Hc. rewrite upd_ne by set_solver. apply Hf. set_solver.
    + intros c. rewrite <- Hd. unfold upd. case_decide; [subst |]; done.
    + intros c Hc Hc' Hgc. destruct (decide (c = cl)) as [-> | Hne].
      * rewrite upd_eq. unfold resolved, get_init_method. simpl. by rewrite Hm.
      * rewrite upd_ne in Hgc |- * by done. by apply Hnew.
Qed.

(** After the first pass declarations are unchanged and every listed class
    that the resolver does not give up on is resolved. *)
Lemma first_pass_spec (fuel : nat) (class_irs : list cid) (st st' : State) :
  first_pass CFG get_cfg run_analysis analyze_self_leaks fuel class_irs st = Some st' ->
  (forall c, decl_of (classes st' c) = decl_of (classes st c))
  ∧ (forall cl, cl ∈ class_irs -> gives_up (classes st cl) = false ->
                resolved CFG get_cfg analyze_self_leaks (classes st' cl)).
Proof.
  unfold first_pass. intros Hrun.
  destruct (for_each _ _ _) as [[st1 seen1] |] eqn:Hloop; [| done].
  simpl in Hrun. simplify_eq.
  destruct (for_each_establish (analyze_class fuel) (fun s => step1 (st, ∅) s)
              (fun cl s => cl ∈ s.2) class_irs (st, ∅) (st', seen1))
    as [(Hs & Hf & Hd & Hr) Hseen]; [| | apply first_pass_step_refl | done |].
  - intros cl s s' _ Hs Hcl. apply analyze_in_class_step in Hcl as [Hstep Hin].
    split; [by eapply first_pass_step_trans | done].
  - intros x cl s s' _ _ Hx Hcl. apply analyze_in_class_step in Hcl as [(? & _) _].
    set_solver.
  - simpl in *. split; [done |]. intros cl Hcl Hg. apply Hr.
    + by apply Hseen.
    + set_solver.
    + destruct (decl_of_fields _ _ (Hd cl)) as (_ & _ & _ & _ & _ & _ & _ & _ & ->). done.
Qed.
End FirstPass.

(** ** The second and the final pass: what they leave alone *)

Lemma second_pass_step_refl (h : Heap) : second_pass_step h h.
Proof. by intros c. Qed.

Lemma second_pass_step_trans (h1 h2 h3 : Heap) :
  second_pass_step h1 h2 -> second_pass_step h2 h3 -> second_pass_step h1 h3.
Proof.
  intros H12 H23 c. destruct (H12 c) as [E12 S12], (H23 c) as [E23 S23].
  split; [by rewrite E23 | set_solver].
Qed.

Lemma second_pass_step_upd (cl : cid) (removed : gset string) (h : Heap) :
  second_pass_step h
    (upd cl (fun c => set_always (_always_initialized_attrs c ∖ removed) c) h).
Proof.
  intros c. unfold upd. case_decide; [subst c |]; [| done].
  split; [done |]. simpl. set_solver.
Qed.

Lemma update_children_step
    (rec : cid -> Heap * gset cid -> option (Heap * gset cid))
    (attr : string) (child : cid) (t t' : Heap * gset cid * gset string) :
  (forall s s', rec child s = Some s' -> second_pass_step s.1 s'.1) ->
  update_children rec attr child t = Some t' ->
  second_pass_step t.1.1 t'.1.1.
Proof.
  intros Hrec. destruct t as [[h seen] removed]. unfold update_children.
  destruct (rec child (h, seen)) as [[h1 seen1] |] eqn:E; [| done].
  apply Hrec in E. case_match; intros; by simplify_eq.
Qed.

Lemma update_using_subclasses_step (fuel : nat) (cl : cid) (s s' : Heap * gset cid) :
  update_always_defined_attrs_using_subclasses fuel cl s = Some s' ->
  second_pass_step s.1 s'.1.
Proof.
  revert cl s s'. induction fuel as [| fuel IH]; intros cl [h seen] s' Hrun; [done |].
  simpl in Hrun. destruct (decide (cl ∈ seen)).
  { simplify_eq. apply second_pass_step_refl. }
  destruct (children (h cl)) as [chs |] eqn:Hch.
  2:{ simplify_eq. apply second_pass_step_refl. }
  destruct (for_each _ _ _) as [[[h2 seen2] removed] |] eqn:Hloop; [| done].
  simplify_eq. simpl.
  eapply second_pass_step_trans; [| apply second_pass_step_upd].
  change h with (h, seen, (∅ : gset string)).1.1.
  change h2 with (h2, seen2, removed).1.1.
  eapply (for_each_rel _ (fun t t' : Heap * gset cid * gset string =>
                            second_pass_step t.1.1 t'.1.1));
    [intros; apply second_pass_step_refl
    | intros ? ? ?; apply second_pass_step_trans | | exact Hloop].
  intros attr t t' _ Hattr.
  eapply (for_each_rel _ (fun t t' : Heap * gset cid * gset string =>
                            second_pass_step t.1.1 t'.1.1));
    [intros; apply second_pass_step_refl
    | intros ? ? ?; apply second_pass_step_trans | | exact Hattr].
  intros child u u' _ Hchild. eapply update_children_step; [| done].
  intros. by eapply IH.
Qed.

Lemma second_pass_spec (fuel : nat) (class_irs : list cid) (h h' : Heap) :
  second_pass fuel class_irs h = Some h' ->
  second_pass_step h h'.
Proof.
  unfold second_pass. intros Hrun.
  destruct (for_each _ _ _) as [[h1 seen1] |] eqn:Hloop; [| done].
  simpl in Hrun. simplify_eq.
  change h with (h, (∅ : gset cid)).1. change h' with (h', seen1).1.
  eapply (for_each_rel _ (fun s s' : Heap * gset cid => second_pass_step s.1 s'.1));
    [intros; apply second_pass_step_refl
    | intros ? ? ?; apply second_pass_step_trans | | exact Hloop].
  intros cl s s' _. apply update_using_subclasses_step.
Qed.

Lemma final_pass_step_refl (h : Heap) : final_pass_step h h.
Proof. by intros c. Qed.

Lemma final_pass_step_trans (h1 h2 h3 : Heap) :
  final_pass_step h1 h2 -> final_pass_step h2 h3 -> final_pass_step h1 h3.
Proof. intros H12 H23 c. by rewrite H23. Qed.

Lemma detect_undefined_bitmap_step (fuel : nat) (cl : cid) (s s' : Heap * gset cid) :
  detect_undefined_bitmap fuel cl s = Some s' ->
  final_pass_step s.1 s'.1.
Proof.
  revert cl s s'. induction fuel as [| fuel IH]; intros cl [h seen] s' Hrun; [done |].
  simpl in Hrun. destruct (is_trait (h cl)).
  { simplify_eq. apply final_pass_step_refl. }
  destruct (decide (cl ∈ seen)).
  { simplify_eq. apply final_pass_step_refl. }
  destruct (for_each _ _ _) as [[h2 seen2] |] eqn:Hloop; [| done].
  simplify_eq. simpl.
  eapply final_pass_step_trans.
  - apply (for_each_rel _ (fun s s' : Heap * gset cid => final_pass_step s.1 s'.1))
      in Hloop; [exact Hloop | intros; apply final_pass_step_refl
                | intros ? ? ?; apply final_pass_step_trans |].
    intros base t t' _. apply IH.
  - intros c. unfold upd. case_decide; [subst c |]; done.
Qed.

Lemma final_pass_spec (fuel : nat) (class_irs : list cid) (h h' : Heap) :
  final_pass fuel class_irs h = Some h' ->
  final_pass_step h h'.
Proof.
  unfold final_pass. intros Hrun.
  destruct (for_each _ _ _) as [[h1 seen1] |] eqn:Hloop; [| done].
  simpl in Hrun. simplify_eq.
  change h with (h, (∅ : gset cid)).1. change h' with (h', seen1).1.
  eapply (for_each_rel _ (fun s s' : Heap * gset cid => final_pass_step s.1 s'.1));
    [intros; apply final_pass_step_refl
    | intros ? ? ?; apply final_pass_step_trans | | exact Hloop].
  intros cl s s' _. apply detect_undefined_bitmap_step.
Qed.

(** ** The whole analysis *)

Section WholeAnalysis.
Variable CFG : Type.
Variable get_cfg : list BasicBlock -> CFG.
Variable run_analysis :
  list BasicBlock -> CFG -> BaseAnalysisVisitor -> gset string ->
  bool -> AnalysisKind -> AnalysisResult string.
Variable analyze_self_leaks :
  list BasicBlock -> Register -> CFG -> AnalysisResult unit.

Abbreviation analysis :=
  (analyze_always_defined_attrs CFG get_cfg run_analysis analyze_self_leaks).

(** The state after the first pass, and what the two later passes keep of
    it. *)
Lemma analysis_spec (fuel : nat) (class_irs : list cid) (st st' : State) :
  analysis fuel class_irs st = Some st' ->
  exists st1 h2,
    first_pass CFG get_cfg run_analysis analyze_self_leaks fuel class_irs st = Some st1
    ∧ second_pass fuel class_irs (classes st1) = Some h2
    ∧ final_pass fuel class_irs h2 = Some (classes st')
    ∧ (forall c, decl_of (classes st1 c) = decl_of (classes st c))
    ∧ (forall cl, cl ∈ class_irs -> gives_up (classes st cl) = false ->
                  resolved CFG get_cfg analyze_self_leaks (classes st1 cl))
    ∧ (forall c, decl_of (classes st' c) = decl_of (classes st c)
                 ∧ _always_initialized_attrs (classes st' c) = _always_initialized_attrs (h2 c)
                 ∧ _always_initialized_attrs (classes st' c)
                     ⊆ _always_initialized_attrs (classes st1 c)
                 ∧ _sometimes_initialized_attrs (classes st' c)
                     = _sometimes_initialized_attrs (classes st1 c)
                 ∧ init_self_leak (classes st' c) = init_self_leak (classes st1 c)).
Proof.
  unfold analyze_always_defined_attrs. intros Hrun.
  destruct (first_pass _ _ _ _ _ _ _) as [st1 |] eqn:H1; [| done]. simpl in Hrun.
  destruct (second_pass _ _ _) as [h2 |] eqn:H2; [| done]. simpl in Hrun.
  destruct (final_pass _ _ _) as [h3 |] eqn:H3; [| done]. simpl in Hrun.
  simplify_eq. simpl.
  exists st1, h2. split; [done |]. split; [done |]. split; [done |].
  destruct (first_pass_spec _ _ _ _ _ _ _ _ H1) as [Hd1 Hr1].
  split; [done |]. split; [done |].
  intros c.
  destruct (second_pass_spec _ _ _ _ H2 c) as [E2 S2].
  pose proof (final_pass_spec _ _ _ _ H3 c) as E3.
  apply set_always_fields in E2 as (D2 & So2 & L2 & _).
  apply set_bitmap_attrs_fields in E3 as (D3 & A3 & So3 & L3).
  split; [by rewrite D3, D2 |]. split; [done |]. split; [by rewrite A3 |].
  split; [by rewrite So3 | by rewrite L3].
Qed.

Lemma nonempty_true {T} `{Countable T} (X : gset T) : nonempty X = true <-> X ≠ ∅.
Proof. unfold nonempty. by rewrite bool_decide_eq_true. Qed.

Lemma resolved_init_dirty (c : ClassIR) (m : FuncIR) :
  init_method c = Some m ->
  resolved CFG get_cfg analyze_self_leaks c ->
  exists self_reg maybe_defined maybe_undefined all_attrs,
    let dirty := init_dirty CFG get_cfg analyze_self_leaks m in
    _always_initialized_attrs c
      = filter (fun a => negb (is_deletable c a))
               (find_always_defined_attributes self_reg maybe_defined
                  maybe_undefined dirty (blocks m) all_attrs)
    ∧ _sometimes_initialized_attrs c
        = find_sometimes_defined_attributes maybe_defined dirty (blocks m)
    ∧ init_self_leak c = any_dirty_blocks dirty 0 (blocks m) false.
Proof.
  unfold resolved, get_init_method. intros ->.
  intros (self_reg & rest & md & mu & A & Hargs & Hres).
  exists self_reg, md, mu, A. unfold init_dirty. rewrite Hargs. done.
Qed.

(** C2 (amended): for every listed class that the resolver does not give up
    on and that has no constructor, or whose constructor walk meets a
    freeze point, [_always_initialized_attrs] is a subset of
    [_sometimes_initialized_attrs] after the analysis. *)
Theorem C2_always_subseteq_sometimes (fuel : nat) (class_irs : list cid)
    (st st' : State) (cl : cid) :
  analysis fuel class_irs st = Some st' ->
  cl ∈ class_irs ->
  gives_up (classes st cl) = false ->
  (forall m, init_method (classes st cl) = Some m ->
             has_freeze_point (init_dirty CFG get_cfg analyze_self_leaks m) (blocks m)
               = true) ->
  _always_initialized_attrs (classes st' cl) ⊆ _sometimes_initialized_attrs (classes st' cl).
Proof.
  intros Hrun Hcl Hg Hfreeze.
  destruct (analysis_spec _ _ _ _ Hrun) as (st1 & h2 & _ & _ & _ & Hd1 & Hr1 & Hlater).
  destruct (Hlater cl) as (_ & _ & Hsub & -> & _).
  etrans; [apply Hsub |].
  specialize (Hr1 cl Hcl Hg).
  destruct (decl_of_fields _ _ (Hd1 cl)) as (_ & _ & _ & _ & _ & _ & _ & Hinit & _).
  destruct (init_method (classes st cl)) as [m |] eqn:Hm.
  - destruct (resolved_init_dirty _ m Hinit Hr1) as (self_reg & md & mu & A & -> & -> & _).
    etrans; [| apply find_always_subseteq_sometimes; by apply Hfreeze].
    intros a Ha. apply elem_of_filter in Ha as [_ Ha]. exact Ha.
  - unfold resolved, get_init_method in Hr1. rewrite Hinit in Hr1.
    destruct Hr1 as [-> ->]. done.
Qed.

End WholeAnalysis.

(** ** The second pass on an acyclic hierarchy *)

Section SecondPass.
Variable h0 : Heap.
Variable rank : cid -> nat.
Hypothesis Hacyclic : acyclic_children h0 rank.

Lemma second_pass_frame_refl (r : nat) (s : Heap * gset cid) :
  second_pass_frame rank r s s.
Proof. split; [done |]. split; [done |]. by intros c ? ?. Qed.

Lemma second_pass_frame_trans (r : nat) (s1 s2 s3 : Heap * gset cid) :
  second_pass_frame rank r s1 s2 -> second_pass_frame rank r s2 s3 ->
  second_pass_frame rank r s1 s3.
Proof.
  intros (Hs12 & Hf12 & Hr12) (Hs23 & Hf23 & Hr23).
  split; [set_solver |]. split.
  - intros c Hc. rewrite Hf23; [by apply Hf12 | set_solver].
  - intros c Hc3 Hc1. destruct (decide (c ∈ s2.2)); [by apply Hr12 | by apply Hr23].
Qed.

Lemma second_pass_frame_weaken (r r' : nat) (s s' : Heap * gset cid) :
  r <= r' -> second_pass_frame rank r s s' -> second_pass_frame rank r' s s'.
Proof.
  intros Hle (Hs & Hf & Hr). split; [done |]. split; [done |].
  intros c Hc Hc'. specialize (Hr c Hc Hc'). lia.
Qed.

Lemma second_pass_inv_children (s : Heap * gset cid) (c : cid) :
  second_pass_inv h0 s -> children (s.1 c) = children (h0 c).
Proof.
  intros (Hi & _). destruct (set_always_fields _ _ (Hi c)) as (Hd & _).
  by destruct (decl_of_fields _ _ Hd) as (_ & ? & _).
Qed.

Lemma second_pass_inv_open (s : Heap * gset cid) (c : cid) :
  second_pass_inv h0 s -> children (h0 c) = None -> c ∉ s.2.
Proof.
  intros Hinv Hopen Hin. pose proof (second_pass_inv_children s c Hinv) as Hch.
  destruct Hinv as (_ & _ & Hseen). destruct (Hseen c Hin) as (chs & Hc & _).
  congruence.
Qed.

(** A finished class stays as it is. *)
Lemma finished_stable (s s' : Heap * gset cid) (d : cid) :
  second_pass_inv h0 s -> second_pass_inv h0 s' ->
  s.2 ⊆ s'.2 -> (forall c, c ∈ s.2 -> s'.1 c = s.1 c) ->
  finished h0 s d -> s'.1 d = s.1 d ∧ finished h0 s' d.
Proof.
  intros Hinv Hinv' Hsub Hframe [Hd | Hd].
  - split; [by apply Hframe | left; set_solver].
  - split; [| by right].
    pose proof (second_pass_inv_open _ _ Hinv Hd) as Hn.
    pose proof (second_pass_inv_open _ _ Hinv' Hd) as Hn'.
    destruct Hinv as (_ & Hu & _), Hinv' as (_ & Hu' & _).
    by rewrite Hu, Hu'.
Qed.

Abbreviation update := update_always_defined_attrs_using_subclasses.

(** One check of the inner loop, given what the recursive call does. *)
Lemma update_children_inv
    (rec : cid -> Heap * gset cid -> option (Heap * gset cid))
    (cl : cid) (s : Heap * gset cid) (chs : list cid) (a : string) (d : cid)
    (t t' : Heap * gset cid * gset string) :
  (forall u u', second_pass_inv h0 u -> rec d u = Some u' ->
                second_pass_inv h0 u' ∧ second_pass_frame rank (S (rank d)) u u'
                ∧ finished h0 u' d) ->
  rank d < rank cl -> d ∈ chs ->
  update_loop_inv h0 rank cl s chs t ->
  update_children rec a d t = Some t' ->
  update_loop_inv h0 rank cl s chs t'
  ∧ child_checked h0 a d t'
  ∧ (forall a0 d0, child_checked h0 a0 d0 t -> child_checked h0 a0 d0 t').
Proof.
  intros Hrec Hrank Hd (Hinv & Hfr & Hrem) Hrun.
  destruct t as [[h seen] removed]. unfold update_children in Hrun.
  simpl in Hinv, Hfr, Hrem.
  destruct (rec d (h, seen)) as [[h1 seen1] |] eqn:E; [| done].
  destruct (Hrec _ _ Hinv E) as (Hinv1 & Hfr1 & Hfin1).
  assert (Hfr1' : second_pass_frame rank (rank cl) (h, seen) (h1, seen1)).
  { eapply second_pass_frame_weaken; [| done]. lia. }
  assert (Hstable : forall d0, finished h0 (h, seen) d0 ->
                      h1 d0 = h d0 ∧ finished h0 (h1, seen1) d0).
  { intros d0. apply (finished_stable (h, seen) (h1, seen1) d0);
      [done | done | apply Hfr1 | apply Hfr1]. }
  assert (Hold : forall rem' a0 d0, removed ⊆ rem' ->
            child_checked h0 a0 d0 (h, seen, removed) ->
            child_checked h0 a0 d0 (h1, seen1, rem')).
  { intros rem' a0 d0 Hsub [Hf Ha]. simpl in *.
    destruct (Hstable d0 Hf) as [Heq Hf']. split; [done |]. simpl.
    rewrite Heq. intros Hn. apply Ha. set_solver. }
  assert (Hrem1 : forall a0, a0 ∈ removed ->
            exists d0, d0 ∈ chs ∧ finished h0 (h1, seen1) d0
                       ∧ a0 ∉ _always_initialized_attrs (h1 d0)).
  { intros a0 Ha0. destruct (Hrem a0 Ha0) as (d0 & Hd0 & Hf & Hn). simpl in *.
    destruct (Hstable d0 Hf) as [Heq Hf']. exists d0. by rewrite Heq. }
  case_bool_decide as Hmem; simplify_eq.
  - split; [| split].
    + split; [done |]. split; [by eapply second_pass_frame_trans |]. done.
    + split; [done |]. done.
    + intros a0 d0. by apply Hold.
  - split; [| split].
    + split; [done |]. split; [by eapply second_pass_frame_trans |].
      simpl. intros a0 [Ha0 | Ha0]%elem_of_union; [| by apply Hrem1].
      apply elem_of_singleton in Ha0 as ->. by exists d.
    + split; [done |]. simpl. set_solver.
    + intros a0 d0. apply Hold. set_solver.
Qed.

(** The inner loop, for one attribute. *)
Lemma update_attr_inv
    (rec : cid -> Heap * gset cid -> option (Heap * gset cid))
    (cl : cid) (s : Heap * gset cid) (chs : list cid) (a : string)
    (t t' : Heap * gset cid * gset string) :
  (forall d u u', d ∈ chs -> second_pass_inv h0 u -> rec d u = Some u' ->
                  second_pass_inv h0 u' ∧ second_pass_frame rank (S (rank d)) u u'
                  ∧ finished h0 u' d) ->
  (forall d, d ∈ chs -> rank d < rank cl) ->
  update_loop_inv h0 rank cl s chs t ->
  for_each (update_children rec a) chs t = Some t' ->
  update_loop_inv h0 rank cl s chs t'
  ∧ (forall d, d ∈ chs -> child_checked h0 a d t')
  ∧ (forall a0 d0, child_checked h0 a0 d0 t -> child_checked h0 a0 d0 t').
Proof.
  intros Hrec Hrank Hinv Hrun.
  assert (Hgen : forall l, l ⊆ chs -> for_each (update_children rec a) l t = Some t' ->
            update_loop_inv h0 rank cl s chs t'
            ∧ (forall d, d ∈ l -> child_checked h0 a d t')
            ∧ (forall a0 d0, child_checked h0 a0 d0 t -> child_checked h0 a0 d0 t')).
  2:{ by apply Hgen. }
  clear Hrun. intros l Hl Hrun.
  destruct (for_each_establish (update_children rec a)
              (fun u => update_loop_inv h0 rank cl s chs u
                        ∧ forall a0 d0, child_checked h0 a0 d0 t -> child_checked h0 a0 d0 u)
              (fun d u => child_checked h0 a d u) l t t') as [[Hinv' Hkeep] Hnew];
    [| | done | done | done].
  - intros d u u' Hd [Hu Hk] Hstep.
    destruct (update_children_inv rec cl s chs a d u u') as (Hu' & Hc & Hk');
      [intros; apply Hrec; [set_solver | done | done] | apply Hrank; set_solver
      | set_solver | done | done |].
    split; [| done]. split; [done |]. intros a0 d0 H0. by apply Hk', Hk.
  - intros d y u u' Hy [Hu Hk] Hc Hstep.
    destruct (update_children_inv rec cl s chs a y u u') as (_ & _ & Hk');
      [intros; apply Hrec; [set_solver | done | done] | apply Hrank; set_solver
      | set_solver | done | done |].
    by apply Hk'.
Qed.

(** A call either finishes the class or finds its children unknown; it
    keeps the invariant and touches classes of rank at most [rank cl]. *)
Lemma update_using_subclasses_inv (fuel : nat) (cl : cid) (s s' : Heap * gset cid) :
  second_pass_inv h0 s ->
  update fuel cl s = Some s' ->
  second_pass_inv h0 s' ∧ second_pass_frame rank (S (rank cl)) s s' ∧ finished h0 s' cl.
Proof.
  revert cl s s'. induction fuel as [| fuel IH]; intros cl [h seen] s' Hinv Hrun; [done |].
  simpl in Hrun. destruct (decide (cl ∈ seen)) as [Hin | Hnin].
  { simplify_eq. split; [done |]. split; [apply second_pass_frame_refl | by left]. }
  pose proof (second_pass_inv_children _ cl Hinv) as Hch. simpl in Hch.
  destruct (children (h cl)) as [chs |] eqn:Hchs.
  2:{ simplify_eq. split; [done |]. split; [apply second_pass_frame_refl | by right]. }
  destruct (for_each _ _ _) as [[[h2 seen2] removed] |] eqn:Hloop; [| done].
  simplify_eq.
  assert (Hranks : forall d, d ∈ chs -> rank d < rank cl).
  { intros d Hd. by eapply Hacyclic. }
  destruct (for_each_establish
              (fun attr => for_each (update_children (update fuel) attr) chs)
              (update_loop_inv h0 rank cl (h, seen) chs)
              (fun a u => forall d, d ∈ chs -> child_checked h0 a d u)
              (elements (_always_initialized_attrs (h cl)))
              (h, seen, ∅) (h2, seen2, removed))
    as [(Hinv2 & Hfr2 & Hrem2) Hchecked]; [| | | done |].
  - intros a u u' _ Hu Hstep.
    destruct (update_attr_inv (update fuel) cl (h, seen) chs a u u') as (? & ? & _);
      [intros; by apply IH | done | done | done | done].
  - intros a y u u' _ Hu Ha Hstep.
    destruct (update_attr_inv (update fuel) cl (h, seen) chs y u u') as (_ & _ & Hk);
      [intros; by apply IH | done | done | done |].
    intros d Hd. by apply Hk, Ha.
  - split; [done |]. split; [apply second_pass_frame_refl |]. set_solver.
  - simpl in Hinv2, Hfr2, Hrem2.
    destruct Hfr2 as (Hsub2 & Hframe2 & Hrank2). simpl in Hsub2, Hframe2, Hrank2.
    assert (Hcl2 : cl ∉ seen2).
    { intros Hc. specialize (Hrank2 cl Hc Hnin). lia. }
    assert (Hne : forall d, d ∈ chs -> d ≠ cl).
    { intros d Hd ->. specialize (Hranks cl Hd). lia. }
    destruct Hinv as (_ & Hu & _). destruct Hinv2 as (Hi2 & Hu2 & Hs2).
    simpl in Hu, Hi2, Hu2, Hs2.
    assert (Hcl_h : h cl = h0 cl) by (by apply Hu).
    assert (Hcl_h2 : h2 cl = h0 cl) by (by apply Hu2).
    split; [| split].
    + split; [| split]; simpl.
      * intros c. unfold upd. case_decide; [subst c |]; [| done].
        by rewrite <- (Hi2 cl).
      * intros c Hc. rewrite upd_ne by set_solver. apply Hu2. set_solver.
      * intros c Hc. destruct (decide (c = cl)) as [-> | Hcne].
        -- rewrite upd_eq. exists chs. simpl. rewrite Hcl_h2.
           split; [by rewrite Hch |]. split.
           ++ intros a. rewrite elem_of_difference. split.
              ** intros [Ha Hr]. split; [done |]. intros d Hd.
                 rewrite upd_ne by by apply Hne.
                 assert (Hca : child_checked h0 a d (h2, seen2, removed)).
                 { apply Hchecked; [| done]. apply elem_of_elements. by rewrite Hcl_h. }
                 destruct Hca as [_ Hc']. by apply Hc'.
              ** intros [Ha Hall]. split; [done |]. intros Hr.
                 destruct (Hrem2 a Hr) as (d & Hd & _ & Hn). simpl in Hn.
                 specialize (Hall d Hd). rewrite upd_ne in Hall by by apply Hne.
                 done.
           ++ intros Hnonempty d Hd.
              apply set_choose_L in Hnonempty as [a Ha].
              assert (Hca : child_checked h0 a d (h2, seen2, removed)).
              { apply Hchecked; [| done]. apply elem_of_elements. by rewrite Hcl_h. }
              destruct Hca as [[Hf | Hf] _].
              ** left. simpl in Hf. set_solver.
              ** right. rewrite upd_ne by by apply Hne.
                 change (children ((h2, seen2).1 d) = None).
                 rewrite second_pass_inv_children; done.
        -- assert (Hc2 : c ∈ seen2) by set_solver.
           rewrite upd_ne by done.
           destruct (Hs2 c Hc2) as (chs_c & Hchc & Hiff & Hfin).
           exists chs_c. split; [done |].
           destruct (decide (_always_initialized_attrs (h0 c) = ∅)) as [Hempty | Hnonempty].
           ++ split; [| done]. intros a. rewrite Hiff, Hempty. set_solver.
           ++ specialize (Hfin Hnonempty).
              assert (Hnc : forall d, d ∈ chs_c -> d ≠ cl).
              { intros d Hd ->. destruct (Hfin cl Hd) as [? | Hopen]; [done |].
                congruence. }
              split.
              ** intros a. rewrite Hiff.
                 split; intros [Ha Hall]; (split; [done |]); intros d Hd;
                   specialize (Hall d Hd);
                   [rewrite upd_ne by (by apply Hnc)
                   | rewrite upd_ne in Hall by (by apply Hnc)]; done.
              ** intros _ d Hd. destruct (Hfin d Hd) as [? | Hopen]; [left; set_solver |].
                 right. rewrite upd_ne by by apply Hnc. done.
    + split; [simpl; set_solver |]. split; simpl.
      * intros c Hc. rewrite upd_ne by set_solver. by apply Hframe2.
      * intros c Hc Hc'. destruct (decide (c = cl)) as [-> | ?]; [lia |].
        assert (rank c < rank cl); [apply Hrank2; set_solver | lia].
    + left. simpl. set_solver.
Qed.
End SecondPass.

(** ** Termination and result of the second pass *)

Lemma second_pass_step_children (h h' : Heap) (c : cid) :
  second_pass_step h h' -> children (h' c) = children (h c).
Proof.
  intros Hstep. destruct (Hstep c) as [E _].
  apply set_always_fields in E as (Hd & _).
  by destruct (decl_of_fields _ _ Hd) as (_ & ? & _).
Qed.

Section SecondPassTotal.
Variable h0 : Heap.
Variable rank : cid -> nat.
Hypothesis Hacyclic : acyclic_children h0 rank.

Lemma update_using_subclasses_total (fuel : nat) (cl : cid) (s : Heap * gset cid) :
  second_pass_step h0 s.1 -> rank cl < fuel ->
  is_Some (update_always_defined_attrs_using_subclasses fuel cl s).
Proof.
  revert cl s. induction fuel as [| fuel IH]; intros cl [h seen] Hs Hrank; [lia |].
  simpl. destruct (decide (cl ∈ seen)); [done |].
  destruct (children (h cl)) as [chs |] eqn:Hchs; [| done].
  assert (Hranks : forall d, d ∈ chs -> rank d < fuel).
  { intros d Hd. rewrite (second_pass_step_children h0 h cl Hs) in Hchs.
    specialize (Hacyclic cl chs d Hchs Hd). lia. }
  destruct (for_each_total
              (fun attr => for_each
                 (update_children (update_always_defined_attrs_using_subclasses fuel) attr)
                 chs)
              (fun t : Heap * gset cid * gset string => second_pass_step h0 t.1.1)
              (elements (_always_initialized_attrs (h cl))) (h, seen, ∅))
    as ([[h2 seen2] removed] & -> & _); [| done | done].
  intros attr t _ Ht.
  apply (for_each_total _ (fun t : Heap * gset cid * gset string =>
                             second_pass_step h0 t.1.1)); [| done].
  intros d [[h1 seen1] rem1] Hd H1. simpl in H1. unfold update_children.
  destruct (IH d (h1, seen1)) as [[h3 seen3] E]; [done | by apply Hranks |].
  rewrite E. apply update_using_subclasses_step in E. simpl in E.
  assert (second_pass_step h0 h3) by by eapply second_pass_step_trans.
  case_match; eexists; split; done.
Qed.

(** On an acyclic hierarchy the second pass returns, with enough fuel for
    the deepest listed class, and ends in a state that satisfies the
    invariant, with every listed class finished. *)
Lemma second_pass_loop (fuel : nat) (class_irs : list cid) (s' : Heap * gset cid) :
  for_each (update_always_defined_attrs_using_subclasses fuel) class_irs (h0, ∅) = Some s' ->
  second_pass_inv h0 s' ∧ forall cl, cl ∈ class_irs -> finished h0 s' cl.
Proof.
  apply (for_each_establish _ (second_pass_inv h0) (fun cl s => finished h0 s cl)).
  - intros cl s t _ Hs Hstep.
    by destruct (update_using_subclasses_inv h0 rank Hacyclic _ _ _ _ Hs Hstep) as (? & _ & ?).
  - intros x cl s t _ Hs Hx Hstep.
    destruct (update_using_subclasses_inv h0 rank Hacyclic _ _ _ _ Hs Hstep)
      as (_ & (Hsub & _) & _).
    destruct Hx as [Hx | Hx]; [left; set_solver | by right].
  - split; [done |]. split; [done |]. intros c Hc. set_solver.
Qed.

Lemma second_pass_total (fuel : nat) (class_irs : list cid) :
  (forall cl, cl ∈ class_irs -> rank cl < fuel) ->
  is_Some (second_pass fuel class_irs h0).
Proof.
  intros Hfuel. unfold second_pass.
  destruct (for_each_total (update_always_defined_attrs_using_subclasses fuel)
              (fun s : Heap * gset cid => second_pass_step h0 s.1)
              class_irs (h0, ∅)) as (s' & -> & _); [| apply second_pass_step_refl | done].
  intros cl s Hcl Hs.
  destruct (update_using_subclasses_total fuel cl s) as [s' E]; [done | by apply Hfuel |].
  exists s'. split; [done |]. eapply second_pass_step_trans; [done |].
  by apply update_using_subclasses_step in E.
Qed.

End SecondPassTotal.

(** In a state that satisfies the invariant, an attribute of a finished
    class is an attribute of all its descendants. *)
Lemma descendant_always (h0 : Heap) (s : Heap * gset cid) (c d : cid) :
  second_pass_inv h0 s -> descendant s.1 c d -> c ∈ s.2 ->
  _always_initialized_attrs (s.1 c) ⊆ _always_initialized_attrs (s.1 d).
Proof.
  intros Hinv Hdesc. induction Hdesc as [c chs d Hch Hd | c chs d e Hch Hd Hde IH];
    intros Hc a Ha.
  - destruct Hinv as (_ & _ & Hseen). destruct (Hseen c Hc) as (chs' & Hch' & Hiff & _).
    assert (chs' = chs) as -> by congruence.
    apply Hiff in Ha as [_ Hall]. by apply Hall.
  - pose proof Hinv as (_ & _ & Hseen).
    destruct (Hseen c Hc) as (chs' & Hch' & Hiff & Hfin).
    assert (chs' = chs) as -> by congruence.
    apply Hiff in Ha as [Ha0 Hall].
    destruct (Hfin ltac:(set_solver) d Hd) as [Hds | Hopen].
    + apply IH; [done |]. by apply Hall.
    + inversion Hde; congruence.
Qed.

(** C4: on an acyclic class hierarchy the subclass propagation pass returns
    (the fuel covers the deepest listed class), and afterwards every
    attribute in the [_always_initialized_attrs] of a listed class with a
    known children list is in the [_always_initialized_attrs] of each of
    its descendants through the [children] lists. *)
Theorem C4_subclass_demotion_sound (rank : cid -> nat) (fuel : nat)
    (class_irs : list cid) (h : Heap) :
  acyclic_children h rank ->
  (forall cl, cl ∈ class_irs -> rank cl < fuel) ->
  exists h',
    second_pass fuel class_irs h = Some h'
    ∧ forall cl d, cl ∈ class_irs -> children (h' cl) ≠ None -> descendant h' cl d ->
        _always_initialized_attrs (h' cl) ⊆ _always_initialized_attrs (h' d).
Proof.
  intros Hacyclic Hfuel.
  destruct (second_pass_total h rank Hacyclic fuel class_irs Hfuel) as [h' Hrun].
  exists h'. split; [done |].
  unfold second_pass in Hrun.
  destruct (for_each _ _ _) as [[h1 seen1] |] eqn:Hloop; [| done].
  simpl in Hrun. simplify_eq.
  destruct (second_pass_loop h rank Hacyclic _ _ _ Hloop) as [Hinv Hfin].
  intros cl d Hcl Hknown Hdesc.
  apply (descendant_always h (h', seen1) cl d Hinv Hdesc).
  destruct (Hfin cl Hcl) as [? | Hopen]; [done |].
  rewrite <- (second_pass_inv_children h (h', seen1) cl Hinv) in Hopen. done.
Qed.

Lemma family_acyclic : acyclic_children Examples.family_heap Examples.family_rank.
Proof.
  intros c chs d. unfold Examples.family_rank.
  destruct c as [| [| [| c]]]; simpl; intros [= <-] Hd;
    first [by apply elem_of_nil in Hd
          | apply list_elem_of_singleton in Hd as ->; lia].
Qed.

Lemma C4_subclass_demotion_sound_witness :
  exists h',
    second_pass 4 [0; 1; 2] Examples.family_heap = Some h'
    ∧ forall cl d, cl ∈ [0; 1; 2] -> children (h' cl) ≠ None -> descendant h' cl d ->
        _always_initialized_attrs (h' cl) ⊆ _always_initialized_attrs (h' d).
Proof.
  apply (C4_subclass_demotion_sound Examples.family_rank 4 [0; 1; 2] Examples.family_heap).
  - exact family_acyclic.
  - intros cl _. unfold Examples.family_rank. lia.
Defined.

(** ** Classes without a constructor *)

Lemma gives_up_children (c : ClassIR) : gives_up c = false -> children c ≠ None.
Proof.
  unfold gives_up. intros H Hc. rewrite Hc in H.
  rewrite (bool_decide_eq_true_2 (None = None)) in H by done.
  by rewrite !orb_true_r in H.
Qed.

(** C7 (amended): for every listed class without a constructor that the
    resolver does not give up on, in an acyclic hierarchy, after the
    analysis [_sometimes_initialized_attrs] equals [attrs_with_defaults] and
    [_always_initialized_attrs] holds exactly the attributes of
    [attrs_with_defaults] that are in the final [_always_initialized_attrs]
    of every child; without children it equals [attrs_with_defaults]. *)
Theorem C7_no_constructor (CFG : Type) (get_cfg : list BasicBlock -> CFG)
    (run_analysis : list BasicBlock -> CFG -> BaseAnalysisVisitor -> gset string ->
                    bool -> AnalysisKind -> AnalysisResult string)
    (analyze_self_leaks : list BasicBlock -> Register -> CFG -> AnalysisResult unit)
    (rank : cid -> nat) (fuel : nat) (class_irs : list cid) (st st' : State) (cl : cid) :
  analyze_always_defined_attrs CFG get_cfg run_analysis analyze_self_leaks
                               fuel class_irs st = Some st' ->
  acyclic_children (classes st) rank ->
  cl ∈ class_irs ->
  gives_up (classes st cl) = false ->
  get_init_method (classes st cl) = None ->
  _sometimes_initialized_attrs (classes st' cl) = attrs_with_defaults (classes st cl)
  ∧ (forall a, a ∈ _always_initialized_attrs (classes st' cl) <->
               a ∈ attrs_with_defaults (classes st cl)
               ∧ forall chs d, children (classes st cl) = Some chs -> d ∈ chs ->
                               a ∈ _always_initialized_attrs (classes st' d))
  ∧ (children (classes st cl) = Some [] ->
     _always_initialized_attrs (classes st' cl) = attrs_with_defaults (classes st cl)).
Proof.
  intros Hrun Hacyclic Hcl Hg Hinit. unfold get_init_method in Hinit.
  destruct (analysis_spec _ _ _ _ _ _ _ _ Hrun)
    as (st1 & h2 & _ & H2 & _ & Hd1 & Hr1 & Hlater).
  specialize (Hr1 cl Hcl Hg).
  assert (Hfields : forall c, children (classes st1 c) = children (classes st c)
                              ∧ attrs_with_defaults (classes st1 c)
                                = attrs_with_defaults (classes st c)
                              ∧ init_method (classes st1 c) = init_method (classes st c)).
  { intros c. by destruct (decl_of_fields _ _ (Hd1 c)) as (_ & ? & _ & _ & _ & ? & _ & ? & _). }
  destruct (Hfields cl) as (Hch1 & Hdef1 & Hinit1).
  unfold resolved, get_init_method in Hr1. rewrite Hinit1, Hinit in Hr1.
  destruct Hr1 as [Ha1 Hs1]. rewrite Hdef1 in Ha1, Hs1.
  assert (Hacyclic1 : acyclic_children (classes st1) rank).
  { intros c chs d Hc. apply Hacyclic. by rewrite <- (proj1 (Hfields c)). }
  unfold second_pass in H2.
  destruct (for_each _ _ _) as [[h2' seen2] |] eqn:Hloop; [| done].
  simpl in H2. simplify_eq.
  destruct (second_pass_loop _ rank Hacyclic1 _ _ _ Hloop) as [Hinv Hfin].
  assert (Hseen : cl ∈ seen2).
  { destruct (Hfin cl Hcl) as [? | Hopen]; [done |].
    rewrite Hch1 in Hopen. by apply gives_up_children in Hg. }
  pose proof (second_pass_inv_children _ _ cl Hinv) as Hch2. simpl in Hch2.
  destruct Hinv as (_ & _ & Hinv). destruct (Hinv cl Hseen) as (chs & Hchs & Hiff & _).
  simpl in Hchs, Hiff.
  assert (Hchs0 : children (classes st cl) = Some chs) by congruence.
  assert (Halways : forall c, _always_initialized_attrs (classes st' c)
                              = _always_initialized_attrs (h2 c)).
  { intros c. by destruct (Hlater c) as (_ & ? & _). }
  destruct (Hlater cl) as (_ & _ & _ & Hs' & _).
  split; [by rewrite Hs' |].
  assert (Hchar : forall a, a ∈ _always_initialized_attrs (classes st' cl) <->
               a ∈ attrs_with_defaults (classes st cl)
               ∧ forall chs d, children (classes st cl) = Some chs -> d ∈ chs ->
                               a ∈ _always_initialized_attrs (classes st' d)).
  { intros a. rewrite Halways, Hiff, Ha1. split; intros [Ha Hall]; (split; [done |]).
    - intros chs' d Hc' Hd. assert (chs' = chs) as -> by congruence.
      rewrite Halways. by apply Hall.
    - intros d Hd. rewrite <- Halways. by eapply Hall. }
  split; [done |].
  intros Hnone. apply set_eq. intros a. rewrite Hchar. split; [by intros [? _] |].
  intros Ha. split; [done |]. intros chs' d Hc' Hd.
  assert (chs' = []) as -> by congruence. by apply elem_of_nil in Hd.
Qed.

(** C7 (as stated, refuted): class P has no constructor and the class-body
    default [a]; its child Q does not always define [a]; after the analysis
    P's [_always_initialized_attrs] differs from its [attrs_with_defaults]. *)
Lemma C7_demoted_default_counterexample :
  get_init_method (Examples.demotion_heap 0) = None
  ∧ exists st,
      Model.analyze_always_defined_attrs 3 [0; 1] (Examples.start Examples.demotion_heap)
        = Some st
      ∧ _always_initialized_attrs (classes st 0) ≠ attrs_with_defaults (classes st 0).
Proof.
  split; [reflexivity |]. run_pass. by_eval.
Qed.

Lemma demotion_acyclic : acyclic_children Examples.demotion_heap (fun c => 2 - c).
Proof.
  intros c chs d.
  destruct c as [| [| c]]; simpl; intros [= <-] Hd;
    first [by apply elem_of_nil in Hd
          | apply list_elem_of_singleton in Hd as ->; lia].
Qed.

Lemma C7_no_constructor_witness :
  _sometimes_initialized_attrs (classes (Examples.run [0; 1] Examples.demotion_heap) 0)
    = attrs_with_defaults (Examples.demotion_heap 0)
  ∧ (forall a,
       a ∈ _always_initialized_attrs (classes (Examples.run [0; 1] Examples.demotion_heap) 0)
       <-> a ∈ attrs_with_defaults (Examples.demotion_heap 0)
           ∧ forall chs d, children (Examples.demotion_heap 0) = Some chs -> d ∈ chs ->
               a ∈ _always_initialized_attrs
                     (classes (Examples.run [0; 1] Examples.demotion_heap) d))
  ∧ (children (Examples.demotion_heap 0) = Some [] ->
     _always_initialized_attrs (classes (Examples.run [0; 1] Examples.demotion_heap) 0)
       = attrs_with_defaults (Examples.demotion_heap 0)).
Proof.
  apply (C7_no_constructor Model.CFG Model.get_cfg Model.run_analysis
           Model.analyze_self_leaks (fun c => 2 - c) 3 [0; 1]
           (Examples.start Examples.demotion_heap)
           (Examples.run [0; 1] Examples.demotion_heap) 0).
  - apply Some_default. by_eval.
  - exact demotion_acyclic.
  - by_eval.
  - reflexivity.
  - reflexivity.
Defined.

(** ** Constructors that never escape *)

(** C2 (as stated, refuted): the constructor of R only raises, so no op
    escapes the receiver and the walk meets no freeze point; the analysis
    ends with always = {x} and sometimes = {}. *)
Lemma C2_raising_constructor_counterexample :
  exists st,
    Model.analyze_always_defined_attrs 3 [0] (Examples.start Examples.raising_heap)
      = Some st
    ∧ gives_up (classes st 0) = false
    ∧ ¬ (_always_initialized_attrs (classes st 0)
           ⊆ _sometimes_initialized_attrs (classes st 0)).
Proof.
  run_pass. split; by_eval.
Qed.

Lemma C2_always_subseteq_sometimes_witness :
  Model.analyze_always_defined_attrs 3 [0] (Examples.start Examples.branch_heap)
    = Some (Examples.run [0] Examples.branch_heap)
  ∧ _always_initialized_attrs (classes (Examples.run [0] Examples.branch_heap) 0)
      ⊆ _sometimes_initialized_attrs (classes (Examples.run [0] Examples.branch_heap) 0).
Proof.
  assert (Hrun : Model.analyze_always_defined_attrs 3 [0]
                   (Examples.start Examples.branch_heap)
                 = Some (Examples.run [0] Examples.branch_heap)).
  { apply Some_default. by_eval. }
  split; [exact Hrun |].
  apply (C2_always_subseteq_sometimes Model.CFG Model.get_cfg Model.run_analysis
           Model.analyze_self_leaks 3 [0] (Examples.start Examples.branch_heap)
           (Examples.run [0] Examples.branch_heap) 0 Hrun).
  - by_eval.
  - reflexivity.
  - intros m [= <-]. by_eval.
Defined.



(** ** The freeze at escape *)

Lemma nonempty_false {T} `{Countable T} (X : gset T) : nonempty X = false <-> X = ∅.
Proof.
  unfold nonempty. rewrite bool_decide_eq_false. split; [| by intros -> []].
  intros Hn. destruct (decide (X = ∅)); [done | by destruct Hn].
Qed.

Section Freeze.
Variable self_reg : Register.
Variable maybe_defined maybe_undefined : AnalysisResult string.
Variable dirty : AnalysisResult unit.

Abbreviation frozen_at b i :=
  (after maybe_defined b i ∖ after maybe_undefined b i).

Lemma always_targets_freeze (b : Label) (i : nat) (ts : list Label) (t : Label)
    (A : gset string) :
  t ∈ ts -> nonempty (after dirty b i) = false -> nonempty (before dirty t 0) = true ->
  always_targets maybe_defined maybe_undefined dirty b i ts A ⊆ frozen_at t 0.
Proof.
  intros Ht Ha Hb. revert A.
  induction ts as [| t' ts IH]; intros A; [by apply elem_of_nil in Ht |].
  change (always_targets maybe_defined maybe_undefined dirty b i (t' :: ts) A)
    with (always_targets maybe_defined maybe_undefined dirty b i ts
            (if negb (nonempty (after dirty b i)) && nonempty (before dirty t' 0)
             then A ∩ frozen_at t' 0 else A)).
  apply elem_of_cons in Ht as [<- | Ht].
  - etrans; [apply always_targets_subseteq |].
    rewrite Ha, Hb. simpl. set_solver.
  - by apply IH.
Qed.

Lemma always_ops_freeze (b : Label) (l : list Op) (i k : nat) (op : Op) (A : gset string) :
  l !! k = Some op ->
  (forall j, j < k -> nonempty (after dirty b (i + j)) = false) ->
  nonempty (after dirty b (i + k)) = true ->
  nonempty (before dirty b (i + k)) = false ->
  always_ops self_reg maybe_defined maybe_undefined dirty b i l A ⊆ frozen_at b (i + k).
Proof.
  revert i k A. induction l as [| op' l IH]; intros i k A Hk Hclean Ha Hb; [done |].
  destruct k as [| k]; simpl in Hk |- *.
  - rewrite Nat.add_0_r in Ha, Hb |- *. rewrite Ha, Hb. simpl. set_solver.
  - specialize (Hclean 0 ltac:(lia)) as H0. rewrite Nat.add_0_r in H0. rewrite H0.
    rewrite <- Nat.add_succ_comm. apply IH; [done | | |].
    + intros j Hj. rewrite Nat.add_succ_comm. apply Hclean. lia.
    + by rewrite Nat.add_succ_comm.
    + by rewrite Nat.add_succ_comm.
Qed.

Lemma always_ops_edge (b : Label) (l : list Op) (i k : nat) (op : Op) (t : Label)
    (A : gset string) :
  l !! k = Some op ->
  (forall j, j <= k -> nonempty (after dirty b (i + j)) = false) ->
  t ∈ targets op ->
  nonempty (before dirty t 0) = true ->
  always_ops self_reg maybe_defined maybe_undefined dirty b i l A ⊆ frozen_at t 0.
Proof.
  revert i k A. induction l as [| op' l IH]; intros i k A Hk Hclean Ht Hb; [done |].
  specialize (Hclean 0 ltac:(lia)) as H0. rewrite Nat.add_0_r in H0.
  destruct k as [| k]; simpl in Hk |- *; rewrite H0.
  - simplify_eq.
    assert (is_control_op op = true) as ->.
    { destruct op; simpl in Ht; try done; by apply elem_of_nil in Ht. }
    apply always_ops_mono. by apply always_targets_freeze.
  - apply (IH (S i) k); [done | | done | done].
    intros j Hj. rewrite Nat.add_succ_comm. apply Hclean. lia.
Qed.

Lemma always_blocks_at (bs : list BasicBlock) (b0 j : nat) (block : BasicBlock)
    (A X : gset string) :
  bs !! j = Some block ->
  (forall A, always_ops self_reg maybe_defined maybe_undefined dirty (b0 + j) 0
                        (ops block) A ⊆ X) ->
  always_blocks self_reg maybe_defined maybe_undefined dirty b0 bs A ⊆ X.
Proof.
  revert b0 j A. induction bs as [| block' bs IH]; intros b0 j A Hj HX; [done |].
  destruct j as [| j]; simpl in Hj |- *.
  - simplify_eq. rewrite Nat.add_0_r in HX. by apply always_blocks_mono.
  - apply (IH (S b0) j); [done |]. intros A'. rewrite Nat.add_succ_comm. apply HX.
Qed.
End Freeze.

(** C5: worked example 2 and the freeze rule behind it.  For the
    constructor [self.x = self.compute()] the analysis excludes [x] from
    [_always_initialized_attrs] and records [init_self_leak].  In general:
    at the first op of a block where the escape flag goes from clear
    (before) to set (after), the result of
    [find_always_defined_attributes] is within maybe-defined-after minus
    maybe-undefined-after at that op; and for a control op that the walk
    reaches without escape, with a target whose first op is already
    escaped-before, the result is within maybe-defined-after minus
    maybe-undefined-after at the first op of that target. *)
Theorem C5_freeze_at_escape :
  (exists st,
      Model.analyze_always_defined_attrs 3 [0] (Examples.start Examples.leak_heap) = Some st
      ∧ ("x"%string ∉ _always_initialized_attrs (classes st 0))
      ∧ init_self_leak (classes st 0) = true)
  ∧ (forall (self_reg : Register) (maybe_defined maybe_undefined : AnalysisResult string)
            (dirty : AnalysisResult unit) (blocks : list BasicBlock)
            (all_attrs : gset string) (b : Label) (block : BasicBlock) (i : nat) (op : Op),
        blocks !! b = Some block -> ops block !! i = Some op ->
        (forall j, j < i -> after dirty b j = ∅) ->
        after dirty b i ≠ ∅ -> before dirty b i = ∅ ->
        find_always_defined_attributes self_reg maybe_defined maybe_undefined dirty
                                       blocks all_attrs
          ⊆ after maybe_defined b i ∖ after maybe_undefined b i)
  ∧ (forall (self_reg : Register) (maybe_defined maybe_undefined : AnalysisResult string)
            (dirty : AnalysisResult unit) (blocks : list BasicBlock)
            (all_attrs : gset string) (b : Label) (block : BasicBlock) (i : nat) (op : Op)
            (target : Label),
        blocks !! b = Some block -> ops block !! i = Some op ->
        (forall j, j <= i -> after dirty b j = ∅) ->
        target ∈ targets op -> before dirty target 0 ≠ ∅ ->
        find_always_defined_attributes self_reg maybe_defined maybe_undefined dirty
                                       blocks all_attrs
          ⊆ after maybe_defined target 0 ∖ after maybe_undefined target 0).
Proof.
  split; [| split].
  - run_pass. split; by_eval.
  - intros self_reg md mu dirty blocks A b block i op Hb Hi Hclean Ha Hbf.
    unfold find_always_defined_attributes.
    apply (always_blocks_at self_reg md mu dirty blocks 0 b block); [done |].
    intros A'. apply (always_ops_freeze self_reg md mu dirty b (ops block) 0 i op);
      [done | | |]; simpl.
    + intros j Hj. apply nonempty_false. by apply Hclean.
    + by apply nonempty_true.
    + by apply nonempty_false.
  - intros self_reg md mu dirty blocks A b block i op t Hb Hi Hclean Ht Hbf.
    unfold find_always_defined_attributes.
    apply (always_blocks_at self_reg md mu dirty blocks 0 b block); [done |].
    intros A'. apply (always_ops_edge self_reg md mu dirty b (ops block) 0 i op t);
      [done | | done |]; simpl.
    + intros j Hj. apply nonempty_false. by apply Hclean.
    + by apply nonempty_true.
Qed.

(** ** Writes to attributes with a class-body default *)

Lemma maybe_defined_kill_empty (h : Heap) (self_reg : Register) (op : Op) :
  snd (accept (AttributeMaybeDefinedVisitor h self_reg) op) = ∅.
Proof. destruct op; simpl; repeat case_match; done. Qed.

Section ForwardSolution.
Variable blocks : list BasicBlock.
Variable gen_and_kill : Op -> GenAndKill.
Variable initial : gset string.
Variable r : AnalysisResult string.
Hypothesis Hsol : forward_solution blocks gen_and_kill initial r.
Hypothesis Hkill : forall op, snd (gen_and_kill op) = ∅.

(** Without kills, what holds at the entry of a block holds at all its
    ops. *)
Lemma forward_solution_block (b : Label) (block : BasicBlock) (X : gset string) (i : nat) :
  blocks !! b = Some block -> X ⊆ before r b 0 -> i < length (ops block) ->
  X ⊆ before r b i ∧ X ⊆ after r b i.
Proof.
  intros Hb HX. destruct Hsol as (_ & Hop & Hseq & _).
  induction i as [| i IH]; intros Hi.
  - split; [done |]. destruct (lookup_lt_is_Some_2 (ops block) 0 Hi) as [op Hl].
    rewrite (Hop b block 0 op Hb Hl), Hkill. set_solver.
  - destruct IH as [_ IHa]; [lia |].
    assert (Hbefore : X ⊆ before r b (S i)) by (by rewrite (Hseq b block i Hb Hi)).
    split; [done |]. destruct (lookup_lt_is_Some_2 (ops block) (S i) Hi) as [op Hl].
    rewrite (Hop b block (S i) op Hb Hl), Hkill. set_solver.
Qed.

Lemma forward_solution_reachable (b : Label) (block : BasicBlock) :
  reachable blocks b -> blocks !! b = Some block -> initial ⊆ before r b 0.
Proof.
  intros Hreach. revert block.
  induction Hreach as [| a ablock op b Hreach IH Ha Hlast Ht]; intros block Hb.
  - by destruct Hsol as (? & _).
  - specialize (IH ablock Ha).
    assert (Hlen : length (ops ablock) - 1 < length (ops ablock)).
    { destruct (ops ablock); [done | simpl; lia]. }
    destruct (forward_solution_block a ablock initial _ Ha IH Hlen) as [_ Hafter].
    destruct Hsol as (_ & _ & _ & Hedge).
    etrans; [exact Hafter |]. by eapply Hedge.
Qed.
End ForwardSolution.

Lemma mark_ops_elem (self_reg : Register) (maybe_defined : AnalysisResult string)
    (dirty : AnalysisResult unit) (b : Label) (l : list Op) (i0 : nat) (p : Label * nat) :
  p ∈ mark_ops self_reg maybe_defined dirty b i0 l ->
  exists k obj attr src,
    p = (b, i0 + k) ∧ l !! k = Some (SetAttr obj attr src) ∧ obj = self_reg
    ∧ (attr ∉ before maybe_defined b (i0 + k))
    ∧ nonempty (after dirty b (i0 + k)) = false.
Proof.
  revert i0. induction l as [| op l IH]; intros i0 Hp; simpl in Hp.
  - by apply elem_of_nil in Hp.
  - apply elem_of_app in Hp as [Hp | Hp].
    + destruct op; try by apply elem_of_nil in Hp.
      case_match eqn:E; [| by apply elem_of_nil in Hp].
      apply list_elem_of_singleton in Hp as ->.
      apply andb_true_iff in E as [E1 E2]. apply andb_true_iff in E2 as [E2 E3].
      apply bool_decide_eq_true in E1. apply negb_true_iff in E2, E3.
      apply bool_decide_eq_false in E2.
      exists 0, obj, attr, src. rewrite Nat.add_0_r. done.
    + destruct (IH (S i0) Hp) as (k & obj & attr & src & -> & Hk & Hrest).
      exists (S k), obj, attr, src. rewrite <- Nat.add_succ_comm. done.
Qed.

Lemma mark_blocks_elem (self_reg : Register) (maybe_defined : AnalysisResult string)
    (dirty : AnalysisResult unit) (bs : list BasicBlock) (b0 : Label) (p : Label * nat) :
  p ∈ mark_blocks self_reg maybe_defined dirty b0 bs ->
  exists j block i obj attr src,
    p = (b0 + j, i) ∧ bs !! j = Some block
    ∧ ops block !! i = Some (SetAttr obj attr src) ∧ obj = self_reg
    ∧ (attr ∉ before maybe_defined (b0 + j) i)
    ∧ nonempty (after dirty (b0 + j) i) = false.
Proof.
  revert b0. induction bs as [| block bs IH]; intros b0 Hp; simpl in Hp.
  - by apply elem_of_nil in Hp.
  - apply elem_of_app in Hp as [Hp | Hp].
    + apply mark_ops_elem in Hp as (k & obj & attr & src & -> & Hk & Hrest).
      exists 0, block, k, obj, attr, src. rewrite Nat.add_0_r. done.
    + destruct (IH (S b0) Hp) as (j & bl & i & obj & attr & src & -> & Hj & Hrest).
      exists (S j), bl, i, obj, attr, src. rewrite <- Nat.add_succ_comm. done.
Qed.


(** ** The modelled engine meets its contract *)

(** When the iteration of the modelled engine has reached a fixpoint, its
    result satisfies the contract [forward_solution]. *)
Lemma solve_forward_solution (gen_and_kill : Op -> GenAndKill)
    (blocks : list BasicBlock) (initial : gset string) :
  Model.round gen_and_kill blocks (Model.get_cfg blocks) initial
              (Model.block_out gen_and_kill blocks (Model.get_cfg blocks) initial)
    = Model.block_out gen_and_kill blocks (Model.get_cfg blocks) initial ->
  forward_solution blocks gen_and_kill initial
                   (Model.solve gen_and_kill blocks (Model.get_cfg blocks) initial).
Proof.
  intros Hstable. unfold forward_solution, Model.solve, Label in *. cbn [before after].
  set (out := Model.block_out gen_and_kill blocks (Model.get_cfg blocks) initial) in *.
  split; [| split; [| split]].
  - unfold Model.block_transfer, Model.block_before. rewrite take_0. simpl. set_solver.
  - intros b block i op Hb Hi. rewrite Hb. simpl.
    rewrite (take_S_r _ _ _ Hi). unfold Model.block_transfer.
    rewrite foldl_app. done.
  - done.
  - intros a ablock op b Ha Hlast Ht [bblock Hb]. rewrite Ha, Hb. simpl.
    assert (Hlen : 0 < length (ops ablock)).
    { destruct (ops ablock); [done | simpl; lia]. }
    rewrite take_ge by lia.
    assert (Hout : out !! a = Some (Model.block_transfer gen_and_kill (ops ablock)
                     (Model.block_before (Model.get_cfg blocks) initial out a))).
    { rewrite <- Hstable at 1. unfold Model.round. rewrite list_lookup_imap, Ha. done. }
    intros x Hx. unfold Model.block_before.
    apply elem_of_union. right. apply elem_of_union_list.
    exists (default ∅ (out !! a)). split; [| by rewrite Hout].
    apply list_elem_of_fmap. exists a. split; [done |].
    unfold Model.get_cfg. simpl. unfold Label in *.
    assert (Hbn : b < length blocks) by (by eapply lookup_lt_Some).
    assert (Han : a < length blocks) by (by eapply lookup_lt_Some).
    rewrite list_lookup_fmap, (lookup_seq_lt 0 _ b Hbn). simpl.
    apply list_elem_of_filter. split; [| apply elem_of_seq; lia].
    rewrite list_lookup_fmap, Ha. simpl. unfold Model.terminator_targets.
    by rewrite Hlast.
Qed.


Lemma default_write_reachable : reachable (blocks Examples.default_write_init) 1.
Proof.
  eapply (reachable_edge _ 0 _ (Goto 1) 1);
    [apply reachable_entry | reflexivity | reflexivity | by left].
Qed.


Lemma C5_freeze_at_escape_witness :
  find_always_defined_attributes 0
    (analyze_maybe_defined_attrs_in_init Model.CFG Model.run_analysis
       Examples.leak_heap (blocks Examples.leak_init) 0 ∅
       (Model.get_cfg (blocks Examples.leak_init)))
    (analyze_maybe_undefined_attrs_in_init Model.CFG Model.run_analysis
       Examples.leak_heap (blocks Examples.leak_init) 0 {["x"%string]}
       (Model.get_cfg (blocks Examples.leak_init)))
    (Model.analyze_self_leaks (blocks Examples.leak_init) 0
       (Model.get_cfg (blocks Examples.leak_init)))
    (blocks Examples.leak_init) {["x"%string]}
  ⊆ after (analyze_maybe_defined_attrs_in_init Model.CFG Model.run_analysis
             Examples.leak_heap (blocks Examples.leak_init) 0 ∅
             (Model.get_cfg (blocks Examples.leak_init))) 0 0
    ∖ after (analyze_maybe_undefined_attrs_in_init Model.CFG Model.run_analysis
               Examples.leak_heap (blocks Examples.leak_init) 0 {["x"%string]}
               (Model.get_cfg (blocks Examples.leak_init))) 0 0.
Proof.
  apply (proj1 (proj2 C5_freeze_at_escape) 0 _ _ _ (blocks Examples.leak_init)
           {["x"%string]} 0 {| ops := [MethodCall 0 "compute" []; SetAttr 0 "x" 1; Return 2] |}
           0 (MethodCall 0 "compute" [])).
  - reflexivity.
  - reflexivity.
  - intros j Hj. lia.
  - by_eval.
  - by_eval.
Defined.

(** ** Termination of the analysis *)

Section Termination.
Variable CFG : Type.
Variable get_cfg : list BasicBlock -> CFG.
Variable run_analysis :
  list BasicBlock -> CFG -> BaseAnalysisVisitor -> gset string ->
  bool -> AnalysisKind -> AnalysisResult string.
Variable analyze_self_leaks :
  list BasicBlock -> Register -> CFG -> AnalysisResult unit.
Variable h0 : Heap.
Variable base_rank child_rank : cid -> nat.
Hypothesis Hbases : acyclic_bases h0 base_rank.
Hypothesis Hchildren : acyclic_children h0 child_rank.
Hypothesis Hself : constructors_have_self h0.

Lemma analyze_in_class_total (fuel : nat) (cl : cid) (s : State * gset cid) :
  (forall c, decl_of (classes s.1 c) = decl_of (h0 c)) ->
  base_rank cl < fuel ->
  is_Some (analyze_always_defined_attrs_in_class CFG get_cfg run_analysis
             analyze_self_leaks fuel cl s).
Proof.
  revert cl s. induction fuel as [| fuel IH]; intros cl [st seen] Hd Hrank; [lia |].
  simpl in Hd. simpl. destruct (decide (cl ∈ seen)); [done |].
  destruct (gives_up (classes st cl)); [done |].
  assert (Hfields : forall st' c, decl_of (classes st' c) = decl_of (h0 c) ->
            mro (classes st' c) = mro (h0 c)
            ∧ init_method (classes st' c) = init_method (h0 c)).
  { intros st' c E. by destruct (decl_of_fields _ _ E) as (_ & _ & ? & _ & _ & _ & _ & ? & _). }
  destruct (for_each_total
              (analyze_always_defined_attrs_in_class CFG get_cfg run_analysis
                 analyze_self_leaks fuel)
              (fun t : State * gset cid => forall c, decl_of (classes t.1 c) = decl_of (h0 c))
              (drop 1 (mro (classes st cl))) (st, {[cl]} ∪ seen))
    as ([st2 seen2] & -> & Hd2); [| done |].
  - intros base t Hbase Ht.
    destruct (IH base t Ht) as [t' E].
    { rewrite (proj1 (Hfields _ _ (Hd cl))) in Hbase.
      specialize (Hbases cl base Hbase). lia. }
    exists t'. split; [done |]. intros c.
    apply analyze_in_class_step in E as [(_ & _ & Hdecl & _) _].
    by rewrite Hdecl.
  - simpl in Hd2. unfold get_init_method.
    destruct (init_method (classes st2 cl)) as [m |] eqn:Hm; [| done].
    rewrite (proj2 (Hfields _ _ (Hd2 cl))) in Hm.
    specialize (Hself cl m Hm). destruct (arg_regs m); done.
Qed.

Lemma detect_undefined_bitmap_total (fuel : nat) (cl : cid) (s : Heap * gset cid) :
  is_Some (detect_undefined_bitmap (S (S fuel)) cl s).
Proof.
  destruct s as [h seen].
  change (is_Some (
    if is_trait (h cl) then Some (h, seen)
    else if decide (cl ∈ seen) then Some (h, seen)
    else match for_each (fun _ : cid => detect_undefined_bitmap (S fuel) cl)
                        (drop 1 (base_mro (h cl))) (h, {[cl]} ∪ seen) with
         | None => None
         | Some (h, seen) =>
             Some (upd cl (set_bitmap_attrs
                     (trait_bitmap_attrs h (h cl)
                        (own_bitmap_attrs (h cl)
                           match base_mro (h cl) !! 1 with
                           | Some base => bitmap_attrs (h cl) ++ bitmap_attrs (h base)
                           | None => bitmap_attrs (h cl)
                           end))) h, seen)
         end)).
  destruct (is_trait (h cl)); [done |]. destruct (decide (cl ∈ seen)); [done |].
  destruct (for_each_total (fun _ : cid => detect_undefined_bitmap (S fuel) cl)
              (fun t : Heap * gset cid => cl ∈ t.2)
              (drop 1 (base_mro (h cl))) (h, {[cl]} ∪ seen))
    as ([h2 seen2] & -> & _); [| set_solver | done].
  intros base [h1 seen1] _ Hin. simpl in Hin. exists (h1, seen1).
  split; [| done]. simpl. destruct (is_trait (h1 cl)); [done |].
  by rewrite decide_True.
Qed.

(** On a well-formed class heap the analysis returns: the MROs and the
    children lists are acyclic, constructors have a receiver, and the fuel
    exceeds the ranks of the listed classes (and is at least two, for the
    final pass). *)
Theorem analyze_always_defined_attrs_total (fuel : nat) (class_irs : list cid)
    (st : State) :
  classes st = h0 ->
  (forall cl, cl ∈ class_irs -> base_rank cl < S (S fuel) ∧ child_rank cl < S (S fuel)) ->
  is_Some (analyze_always_defined_attrs CFG get_cfg run_analysis analyze_self_leaks
             (S (S fuel)) class_irs st).
Proof.
  intros Hst Hfuel. unfold analyze_always_defined_attrs.
  assert (H1 : is_Some (first_pass CFG get_cfg run_analysis analyze_self_leaks
                          (S (S fuel)) class_irs st)).
  { unfold first_pass.
    destruct (for_each_total
                (analyze_always_defined_attrs_in_class CFG get_cfg run_analysis
                   analyze_self_leaks (S (S fuel)))
                (fun t : State * gset cid => forall c, decl_of (classes t.1 c) = decl_of (h0 c))
                class_irs (st, ∅)) as (s1 & -> & _); [| by subst h0 | done].
    intros cl t Hcl Ht.
    destruct (analyze_in_class_total (S (S fuel)) cl t Ht) as [t' E];
      [by apply Hfuel |].
    exists t'. split; [done |]. intros c.
    apply analyze_in_class_step in E as [(_ & _ & Hdecl & _) _]. by rewrite Hdecl. }
  destruct H1 as [st1 H1]. rewrite H1. simpl.
  destruct (first_pass_spec _ _ _ _ _ _ _ _ H1) as [Hd1 _].
  assert (Hacyclic1 : acyclic_children (classes st1) child_rank).
  { intros c chs d Hc.
    destruct (decl_of_fields _ _ (Hd1 c)) as (_ & Hch & _).
    rewrite Hch, Hst in Hc. by apply (Hchildren c chs d). }
  destruct (second_pass_total (classes st1) child_rank Hacyclic1 (S (S fuel)) class_irs)
    as [h2 H2]; [intros cl Hcl; by apply Hfuel |].
  rewrite H2. simpl.
  assert (H3 : is_Some (final_pass (S (S fuel)) class_irs h2)).
  { unfold final_pass.
    destruct (for_each_total (detect_undefined_bitmap (S (S fuel)))
                (fun _ : Heap * gset cid => True) class_irs (h2, ∅))
      as (s3 & -> & _); [| done | done].
    intros cl t _ _. destruct (detect_undefined_bitmap_total fuel cl t) as [t' E].
    by exists t'. }
  destruct H3 as [h3 H3]. rewrite H3. done.
Qed.
End Termination.

(** ** The iteration of the modelled engine reaches a fixpoint *)

Section Convergence.
Context {T : Type} `{Countable T}.
Variable gen_and_kill : Op -> gset T * gset T.
Variable blocks : list BasicBlock.
Variable cfg : Model.CFG.
Variable initial : gset T.

Abbreviation m_transfer := (Model.transfer gen_and_kill).
Abbreviation m_block_transfer := (Model.block_transfer gen_and_kill).
Abbreviation m_block_before := (Model.block_before cfg initial).
Abbreviation m_round := (Model.round gen_and_kill blocks cfg initial).
Abbreviation m_universe := (Model.universe gen_and_kill blocks initial).

Lemma block_transfer_mono (l : list Op) (X Y : gset T) :
  X ⊆ Y -> m_block_transfer l X ⊆ m_block_transfer l Y.
Proof.
  unfold Model.block_transfer. revert X Y.
  induction l as [| op l IH]; intros X Y HXY; simpl; [done |].
  apply IH. unfold Model.transfer. set_solver.
Qed.

Lemma block_before_mono (out out' : list (gset T)) (b : Label) :
  Forall2 (⊆) out out' -> m_block_before out b ⊆ m_block_before out' b.
Proof.
  intros Hle x. unfold Model.block_before, Label in *. rewrite !elem_of_union.
  intros [Hx | Hx]; [by left |]. right.
  apply elem_of_union_list in Hx as (X & HX & Hx).
  apply list_elem_of_fmap in HX as (p & -> & Hp).
  apply elem_of_union_list. exists (default ∅ (out' !! p)).
  split; [apply list_elem_of_fmap; by exists p |].
  destruct (out !! p) as [Xp |] eqn:E; simpl in Hx; [| by apply not_elem_of_empty in Hx].
  destruct (Forall2_lookup_l _ _ _ _ _ Hle E) as (Yp & -> & Hsub). simpl. by apply Hsub.
Qed.

Lemma round_mono (out out' : list (gset T)) :
  Forall2 (⊆) out out' -> Forall2 (⊆) (m_round out) (m_round out').
Proof.
  intros Hle. apply Forall2_same_length_lookup_2.
  - unfold Model.round. by rewrite !length_imap.
  - intros b X Y. unfold Model.round. rewrite !list_lookup_imap.
    destruct (blocks !! b) as [block |]; simpl; [| done].
    intros [= <-] [= <-]. apply block_transfer_mono. by apply block_before_mono.
Qed.

Lemma gen_in_universe (block : BasicBlock) (op : Op) :
  block ∈ blocks -> op ∈ ops block -> fst (gen_and_kill op) ⊆ m_universe.
Proof.
  intros Hblock Hop x Hx. unfold Model.universe. apply elem_of_union. right.
  apply elem_of_union_list.
  exists (⋃ ((fun op => fst (gen_and_kill op)) <$> ops block)). split.
  - apply list_elem_of_fmap. by exists block.
  - apply elem_of_union_list. exists (fst (gen_and_kill op)). split; [| done].
    apply list_elem_of_fmap. by exists op.
Qed.

Lemma block_transfer_bounded (l : list Op) (X : gset T) :
  (forall op, op ∈ l -> fst (gen_and_kill op) ⊆ m_universe) ->
  X ⊆ m_universe -> m_block_transfer l X ⊆ m_universe.
Proof.
  unfold Model.block_transfer. revert X.
  induction l as [| op l IH]; intros X Hgen HX; simpl; [done |].
  apply IH.
  - intros op' Hop'. apply Hgen. by right.
  - unfold Model.transfer. specialize (Hgen op ltac:(by left)). set_solver.
Qed.

Lemma block_before_bounded (out : list (gset T)) (b : Label) :
  Forall (fun X => X ⊆ m_universe) out -> m_block_before out b ⊆ m_universe.
Proof.
  intros Hb x. unfold Model.block_before, Label in *. rewrite elem_of_union.
  intros [Hx | Hx].
  - case_decide; [| by apply not_elem_of_empty in Hx].
    unfold Model.universe. set_solver.
  - apply elem_of_union_list in Hx as (X & HX & Hx).
    apply list_elem_of_fmap in HX as (p & -> & Hp).
    destruct (out !! p) as [Xp |] eqn:E; simpl in Hx; [| by apply not_elem_of_empty in Hx].
    by apply (Forall_lookup_1 _ _ _ _ Hb E).
Qed.

Lemma round_bounded (out : list (gset T)) :
  Forall (fun X => X ⊆ m_universe) out ->
  Forall (fun X => X ⊆ m_universe) (m_round out).
Proof.
  intros Hb. apply Forall_lookup. intros b X. unfold Model.round.
  rewrite list_lookup_imap.
  destruct (blocks !! b) as [block |] eqn:E; simpl; [| done].
  intros [= <-]. apply block_transfer_bounded; [| by apply block_before_bounded].
  intros op Hop. apply (gen_in_universe block); [| done].
  by eapply list_elem_of_lookup_2.
Qed.

(** The measure that grows with every round that changes something. *)
Lemma sum_size_le (l k : list (gset T)) :
  Forall2 (⊆) l k -> sum_list (size <$> l) <= sum_list (size <$> k).
Proof.
  induction 1 as [| X Y l k HXY _ IH]; csimpl; [done |].
  pose proof (subseteq_size X Y HXY). lia.
Qed.

Lemma sum_size_lt (l k : list (gset T)) :
  Forall2 (⊆) l k -> l ≠ k -> sum_list (size <$> l) < sum_list (size <$> k).
Proof.
  induction 1 as [| X Y l k HXY Hlk IH]; intros Hne; csimpl; [done |].
  destruct (decide (X = Y)) as [-> | HneXY].
  - assert (l ≠ k) by congruence. specialize (IH ltac:(done)). lia.
  - assert (X ⊂ Y) by set_solver.
    pose proof (subset_size X Y ltac:(done)). pose proof (sum_size_le l k Hlk). lia.
Qed.

Lemma sum_size_bounded (l : list (gset T)) :
  Forall (fun X => X ⊆ m_universe) l ->
  sum_list (size <$> l) <= length l * size m_universe.
Proof.
  induction 1 as [| X l HX _ IH]; csimpl; [done |].
  pose proof (subseteq_size X _ HX). lia.
Qed.

Lemma iterate_fixpoint (fuel : nat) (out : list (gset T)) :
  Forall2 (⊆) out (m_round out) ->
  Forall (fun X => X ⊆ m_universe) out ->
  length out = length blocks ->
  length blocks * size m_universe < fuel + sum_list (size <$> out) ->
  m_round (Model.iterate gen_and_kill blocks cfg initial fuel out)
    = Model.iterate gen_and_kill blocks cfg initial fuel out.
Proof.
  revert out. induction fuel as [| fuel IH]; intros out Hle Hb Hlen Hfuel.
  - pose proof (sum_size_bounded out Hb). rewrite Hlen in *. lia.
  - simpl. case_decide as Hstable; [done |].
    apply IH.
    + by apply round_mono.
    + by apply round_bounded.
    + unfold Model.round. by rewrite length_imap.
    + pose proof (sum_size_lt out (m_round out) Hle ltac:(done)). lia.
Qed.

Lemma block_out_fixpoint :
  m_round (Model.block_out gen_and_kill blocks cfg initial)
    = Model.block_out gen_and_kill blocks cfg initial.
Proof.
  unfold Model.block_out. apply iterate_fixpoint.
  - apply Forall2_same_length_lookup_2.
    + unfold Model.round. by rewrite length_imap, length_replicate.
    + intros b X Y [-> _]%lookup_replicate _. set_solver.
  - apply Forall_replicate. set_solver.
  - apply length_replicate.
  - unfold Model.rounds. lia.
Qed.
End Convergence.

(** The modelled engine meets the contract on every input. *)
Lemma model_run_analysis_solution (blocks : list BasicBlock)
    (gen_and_kill : BaseAnalysisVisitor) (initial : gset string)
    (backward : bool) (kind : AnalysisKind) :
  forward_solution blocks (accept gen_and_kill) initial
    (Model.run_analysis blocks (Model.get_cfg blocks) gen_and_kill initial backward kind).
Proof.
  unfold Model.run_analysis. apply solve_forward_solution. apply block_out_fixpoint.
Qed.

(** * Further properties of the pass *)

(** ** Reads and writes that disqualify an attribute *)

Section Disqualify.
Variable self_reg : Register.
Variable maybe_defined maybe_undefined : AnalysisResult string.
Variable dirty : AnalysisResult unit.

(** An attribute that the checks at op [k] of a block remove does not come
    back, provided the walk of the block arrives at op [k]. *)
Lemma always_ops_excl (b : Label) (l : list Op) (i k : nat) (op : Op) (a : string)
    (A : gset string) :
  l !! k = Some op ->
  (forall j, j < k -> nonempty (after dirty b (i + j)) = false) ->
  (forall A, a ∉ always_checks self_reg maybe_defined maybe_undefined b (i + k) op A) ->
  a ∉ always_ops self_reg maybe_defined maybe_undefined dirty b i l A.
Proof.
  revert i k A. induction l as [| op' l IH]; intros i k A Hk Hclean Hexcl; [done |].
  destruct k as [| k]; simpl in Hk.
  - simplify_eq. rewrite Nat.add_0_r in Hexcl. specialize (Hexcl A). simpl.
    destruct (nonempty (after dirty b i)).
    + destruct (negb (nonempty (before dirty b i))); set_solver.
    + intros Ha. apply always_ops_subseteq in Ha.
      destruct (is_control_op op); [| done].
      by apply always_targets_subseteq in Ha.
  - simpl. specialize (Hclean 0 ltac:(lia)) as H0. rewrite Nat.add_0_r in H0. rewrite H0.
    apply (IH (S i) k); [done | |].
    + intros j Hj. rewrite Nat.add_succ_comm. apply Hclean. lia.
    + intros A'. rewrite Nat.add_succ_comm. apply Hexcl.
Qed.

Lemma always_blocks_excl (bs : list BasicBlock) (b0 j : nat) (block : BasicBlock)
    (a : string) (A : gset string) :
  bs !! j = Some block ->
  (forall A, a ∉ always_ops self_reg maybe_defined maybe_undefined dirty (b0 + j) 0
                            (ops block) A) ->
  a ∉ always_blocks self_reg maybe_defined maybe_undefined dirty b0 bs A.
Proof.
  revert b0 j A. induction bs as [| block' bs IH]; intros b0 j A Hj Hexcl; [done |].
  destruct j as [| j]; simpl in Hj |- *.
  - simplify_eq. rewrite Nat.add_0_r in Hexcl. intros Ha.
    apply always_blocks_subseteq in Ha. by apply Hexcl in Ha.
  - apply (IH (S b0) j); [done |]. intros A'. rewrite Nat.add_succ_comm. apply Hexcl.
Qed.

(** The set of sometimes-defined attributes only grows along the walk. *)
Lemma sometimes_targets_subseteq (b : Label) (i : nat) (ts : list Label) (Y : gset string) :
  Y ⊆ sometimes_targets maybe_defined dirty b i ts Y.
Proof.
  unfold sometimes_targets. revert Y.
  induction ts as [| t ts IH]; intros Y; simpl; [done |].
  etrans; [| apply IH]. case_match; set_solver.
Qed.

Lemma sometimes_ops_subseteq (b : Label) (l : list Op) (i : nat) (Y : gset string) :
  Y ⊆ sometimes_ops maybe_defined dirty b i l Y.
Proof.
  revert i Y. induction l as [| op l IH]; intros i Y; simpl; [done |].
  destruct (nonempty (after dirty b i)).
  - destruct (negb (nonempty (before dirty b i))); set_solver.
  - etrans; [| apply IH]. destruct (is_control_op op); [| done].
    apply sometimes_targets_subseteq.
Qed.

Lemma sometimes_blocks_subseteq (bs : list BasicBlock) (b : Label) (Y : gset string) :
  Y ⊆ sometimes_blocks maybe_defined dirty b bs Y.
Proof.
  revert b Y. induction bs as [| block bs IH]; intros b Y; simpl; [done |].
  etrans; [| apply IH]. apply sometimes_ops_subseteq.
Qed.

Lemma sometimes_targets_exit (b : Label) (i : nat) (ts : list Label) (t : Label)
    (Y : gset string) :
  t ∈ ts -> nonempty (after dirty b i) = false -> nonempty (before dirty t 0) = true ->
  after maybe_defined t 0 ⊆ sometimes_targets maybe_defined dirty b i ts Y.
Proof.
  intros Ht Ha Hb. revert Y.
  induction ts as [| t' ts IH]; intros Y; [by apply elem_of_nil in Ht |].
  change (sometimes_targets maybe_defined dirty b i (t' :: ts) Y)
    with (sometimes_targets maybe_defined dirty b i ts
            (if negb (nonempty (after dirty b i)) && nonempty (before dirty t' 0)
             then Y ∪ after maybe_defined t' 0 else Y)).
  apply elem_of_cons in Ht as [<- | Ht].
  - etrans; [| apply sometimes_targets_subseteq].
    rewrite Ha, Hb. simpl. set_solver.
  - by apply IH.
Qed.

Lemma sometimes_ops_exit (b : Label) (l : list Op) (i k : nat) (op : Op) (Y : gset string) :
  l !! k = Some op ->
  (forall j, j < k -> nonempty (after dirty b (i + j)) = false) ->
  nonempty (after dirty b (i + k)) = true ->
  nonempty (before dirty b (i + k)) = false ->
  after maybe_defined b (i + k) ⊆ sometimes_ops maybe_defined dirty b i l Y.
Proof.
  revert i k Y. induction l as [| op' l IH]; intros i k Y Hk Hclean Ha Hb; [done |].
  destruct k as [| k]; simpl in Hk |- *.
  - rewrite Nat.add_0_r in Ha, Hb |- *. rewrite Ha, Hb. simpl. set_solver.
  - specialize (Hclean 0 ltac:(lia)) as H0. rewrite Nat.add_0_r in H0. rewrite H0.
    rewrite <- Nat.add_succ_comm. apply IH; [done | | |].
    + intros j Hj. rewrite Nat.add_succ_comm. apply Hclean. lia.
    + by rewrite Nat.add_succ_comm.
    + by rewrite Nat.add_succ_comm.
Qed.

Lemma sometimes_ops_edge (b : Label) (l : list Op) (i k : nat) (op : Op) (t : Label)
    (Y : gset string) :
  l !! k = Some op ->
  (forall j, j <= k -> nonempty (after dirty b (i + j)) = false) ->
  t ∈ targets op ->
  nonempty (before dirty t 0) = true ->
  after maybe_defined t 0 ⊆ sometimes_ops maybe_defined dirty b i l Y.
Proof.
  revert i k Y. induction l as [| op' l IH]; intros i k Y Hk Hclean Ht Hb; [done |].
  specialize (Hclean 0 ltac:(lia)) as H0. rewrite Nat.add_0_r in H0.
  destruct k as [| k]; simpl in Hk |- *; rewrite H0.
  - simplify_eq.
    assert (is_control_op op = true) as ->.
    { destruct op; simpl in Ht; try done; by apply elem_of_nil in Ht. }
    etrans; [| apply sometimes_ops_subseteq]. by apply sometimes_targets_exit.
  - apply (IH (S i) k); [done | | done | done].
    intros j Hj. rewrite Nat.add_succ_comm. apply Hclean. lia.
Qed.

Lemma sometimes_blocks_at (bs : list BasicBlock) (b0 j : nat) (block : BasicBlock)
    (Y X : gset string) :
  bs !! j = Some block ->
  (forall Y, X ⊆ sometimes_ops maybe_defined dirty (b0 + j) 0 (ops block) Y) ->
  X ⊆ sometimes_blocks maybe_defined dirty b0 bs Y.
Proof.
  revert b0 j Y. induction bs as [| block' bs IH]; intros b0 j Y Hj HX; [done |].
  destruct j as [| j]; simpl in Hj |- *.
  - simplify_eq. rewrite Nat.add_0_r in HX.
    etrans; [apply HX | apply sometimes_blocks_subseteq].
  - apply (IH (S b0) j); [done |]. intros Y'. rewrite Nat.add_succ_comm. apply HX.
Qed.

(** Without any escape the walk never adds anything. *)
Lemma sometimes_blocks_clean (bs : list BasicBlock) (b : Label) (Y : gset string) :
  (forall b i, after dirty b i = ∅) -> (forall b, before dirty b 0 = ∅) ->
  sometimes_blocks maybe_defined dirty b bs Y = Y.
Proof.
  intros Ha Hb.
  assert (Hts : forall b i ts Y, sometimes_targets maybe_defined dirty b i ts Y = Y).
  { intros b' i ts. unfold sometimes_targets.
    induction ts as [| t ts IH]; intros Y'; simpl; [done |].
    rewrite IH. rewrite (proj2 (nonempty_false (before dirty t 0)) (Hb t)).
    by rewrite andb_false_r. }
  assert (Hops : forall b l i Y, sometimes_ops maybe_defined dirty b i l Y = Y).
  { intros b' l. induction l as [| op l IH]; intros i Y'; simpl; [done |].
    rewrite (proj2 (nonempty_false (after dirty b' i)) (Ha b' i)).
    rewrite IH. destruct (is_control_op op); [apply Hts | done]. }
  revert b Y. induction bs as [| block bs IH]; intros b Y; simpl; [done |].
  by rewrite IH, Hops.
Qed.
End Disqualify.

(** X1: a read of an attribute of the receiver that may still be undefined
    disqualifies the attribute: when op [i] of block [b] is [GetAttr] on the
    receiver, the attribute is in maybe-undefined-before at that op, and no
    earlier op of the block has the escape flag set after it (so the walk
    of the block arrives at the op), the attribute is not in the result of
    [find_always_defined_attributes]. *)
Theorem read_before_definition_excluded (self_reg : Register)
    (maybe_defined maybe_undefined : AnalysisResult string) (dirty : AnalysisResult unit)
    (blocks : list BasicBlock) (all_attrs : gset string)
    (b : Label) (block : BasicBlock) (i : nat) (attr : string) :
  blocks !! b = Some block ->
  ops block !! i = Some (GetAttr self_reg attr) ->
  (forall j, j < i -> after dirty b j = ∅) ->
  attr ∈ before maybe_undefined b i ->
  attr ∉ find_always_defined_attributes self_reg maybe_defined maybe_undefined dirty
                                        blocks all_attrs.
Proof.
  intros Hb Hi Hclean Hu. unfold find_always_defined_attributes.
  apply (always_blocks_excl self_reg maybe_defined maybe_undefined dirty blocks 0 b block);
    [done |].
  intros A. apply (always_ops_excl self_reg maybe_defined maybe_undefined dirty
                     b (ops block) 0 i (GetAttr self_reg attr)); [done | |].
  - intros j Hj. apply nonempty_false. by apply Hclean.
  - intros A'. simpl. rewrite bool_decide_eq_true_2 by done.
    rewrite bool_decide_eq_true_2 by done. simpl. set_solver.
Qed.

Lemma read_before_definition_excluded_witness :
  "x"%string ∉ find_always_defined_attributes 0
      (Examples.model_defined Examples.read_first_heap Examples.read_first_init)
      (Examples.model_undefined Examples.read_first_heap Examples.read_first_init
                                {["x"%string]})
      (Examples.model_dirty Examples.read_first_init)
      (blocks Examples.read_first_init) {["x"%string]}.
Proof.
  apply (read_before_definition_excluded 0 _ _ _ (blocks Examples.read_first_init)
           {["x"%string]} 0 {| ops := [GetAttr 0 "x"; SetAttr 0 "x" 1; Return 2] |} 0 "x").
  - reflexivity.
  - reflexivity.
  - intros j Hj. lia.
  - by_eval.
Defined.

(** X2: a write to an attribute of the receiver that may be defined on one
    path and undefined on another disqualifies the attribute: when op [i]
    of block [b] is [SetAttr] on the receiver, the attribute is both in
    maybe-undefined-before and in maybe-defined-before at that op, and the
    walk of the block arrives at the op, the attribute is not in the result
    of [find_always_defined_attributes]. *)
Theorem mixed_write_excluded (self_reg : Register)
    (maybe_defined maybe_undefined : AnalysisResult string) (dirty : AnalysisResult unit)
    (blocks : list BasicBlock) (all_attrs : gset string)
    (b : Label) (block : BasicBlock) (i : nat) (attr : string) (src : Value) :
  blocks !! b = Some block ->
  ops block !! i = Some (SetAttr self_reg attr src) ->
  (forall j, j < i -> after dirty b j = ∅) ->
  attr ∈ before maybe_undefined b i ->
  attr ∈ before maybe_defined b i ->
  attr ∉ find_always_defined_attributes self_reg maybe_defined maybe_undefined dirty
                                        blocks all_attrs.
Proof.
  intros Hb Hi Hclean Hu Hd. unfold find_always_defined_attributes.
  apply (always_blocks_excl self_reg maybe_defined maybe_undefined dirty blocks 0 b block);
    [done |].
  intros A. apply (always_ops_excl self_reg maybe_defined maybe_undefined dirty
                     b (ops block) 0 i (SetAttr self_reg attr src)); [done | |].
  - intros j Hj. apply nonempty_false. by apply Hclean.
  - intros A'. simpl. rewrite !bool_decide_eq_true_2 by done. simpl. set_solver.
Qed.

Lemma mixed_write_excluded_witness :
  "x"%string ∉ find_always_defined_attributes 0
      (Examples.model_defined Examples.mixed_write_heap Examples.mixed_write_init)
      (Examples.model_undefined Examples.mixed_write_heap Examples.mixed_write_init
                                {["x"%string]})
      (Examples.model_dirty Examples.mixed_write_init)
      (blocks Examples.mixed_write_init) {["x"%string]}.
Proof.
  apply (mixed_write_excluded 0 _ _ _ (blocks Examples.mixed_write_init)
           {["x"%string]} 2 {| ops := [SetAttr 0 "x" 6; Return 7] |} 0 "x" 6).
  - reflexivity.
  - reflexivity.
  - intros j Hj. lia.
  - by_eval.
  - by_eval.
Defined.

(** X3: what is maybe defined when the receiver first escapes is recorded
    as sometimes defined.  At the first op of a block where the escape
    flag goes from clear (before) to set (after), maybe-defined-after at
    that op is included in the result of
    [find_sometimes_defined_attributes]; and for a control op that the walk
    reaches without escape, with a target whose first op is already
    escaped-before, maybe-defined-after at the first op of the target is
    included. *)
Theorem sometimes_defined_at_exits (maybe_defined : AnalysisResult string)
    (dirty : AnalysisResult unit) (blocks : list BasicBlock)
    (b : Label) (block : BasicBlock) (i : nat) (op : Op) :
  blocks !! b = Some block ->
  ops block !! i = Some op ->
  (forall j, j < i -> after dirty b j = ∅) ->
  (after dirty b i ≠ ∅ -> before dirty b i = ∅ ->
   after maybe_defined b i ⊆ find_sometimes_defined_attributes maybe_defined dirty blocks)
  ∧ (forall target, after dirty b i = ∅ -> target ∈ targets op ->
       before dirty target 0 ≠ ∅ ->
       after maybe_defined target 0
         ⊆ find_sometimes_defined_attributes maybe_defined dirty blocks).
Proof.
  intros Hb Hi Hclean. unfold find_sometimes_defined_attributes. split.
  - intros Ha Hbf.
    apply (sometimes_blocks_at maybe_defined dirty blocks 0 b block); [done |].
    intros Y. apply (sometimes_ops_exit maybe_defined dirty b (ops block) 0 i op);
      [done | | |]; simpl.
    + intros j Hj. apply nonempty_false. by apply Hclean.
    + by apply nonempty_true.
    + by apply nonempty_false.
  - intros t Ha Ht Hbf.
    apply (sometimes_blocks_at maybe_defined dirty blocks 0 b block); [done |].
    intros Y. apply (sometimes_ops_edge maybe_defined dirty b (ops block) 0 i op t);
      [done | | done |]; simpl.
    + intros j Hj. apply nonempty_false.
      destruct (decide (j = i)) as [-> | Hne]; [done | apply Hclean; lia].
    + by apply nonempty_true.
Qed.

Lemma sometimes_defined_at_exits_witness :
  after (Examples.model_defined Examples.branch_heap Examples.branch_init) 3 0
    ⊆ find_sometimes_defined_attributes
        (Examples.model_defined Examples.branch_heap Examples.branch_init)
        (Examples.model_dirty Examples.branch_init) (blocks Examples.branch_init).
Proof.
  refine (proj1 (sometimes_defined_at_exits
                   (Examples.model_defined Examples.branch_heap Examples.branch_init)
                   (Examples.model_dirty Examples.branch_init)
                   (blocks Examples.branch_init) 3 {| ops := [Return 14] |} 0 (Return 14)
                   _ _ _) _ _).
  - reflexivity.
  - reflexivity.
  - intros j Hj. lia.
  - by_eval.
  - by_eval.
Defined.

(** X4: a constructor in which the escape oracle reports no escape at all
    (for instance one that never returns) has no sometimes-defined
    attributes: [find_sometimes_defined_attributes] collects attributes at
    escape points only, and returns the empty set without them. *)
Theorem sometimes_defined_without_escape (maybe_defined : AnalysisResult string)
    (dirty : AnalysisResult unit) (blocks : list BasicBlock) :
  (forall b i, after dirty b i = ∅) ->
  (forall b, before dirty b 0 = ∅) ->
  find_sometimes_defined_attributes maybe_defined dirty blocks = ∅.
Proof.
  intros Ha Hb. unfold find_sometimes_defined_attributes.
  by apply sometimes_blocks_clean.
Qed.

Lemma sometimes_defined_without_escape_witness :
  find_sometimes_defined_attributes
    (Examples.model_defined Examples.raising_heap Examples.raising_init)
    Examples.no_escape (blocks Examples.raising_init) = ∅.
Proof.
  apply (sometimes_defined_without_escape
           (Examples.model_defined Examples.raising_heap Examples.raising_init)
           Examples.no_escape (blocks Examples.raising_init)).
  - intros b i. reflexivity.
  - intros b. reflexivity.
Defined.

(** ** The two definedness passes together *)

Lemma visitors_dual_on_op (h : Heap) (self_reg : Register) (op : Op) :
  snd (accept (AttributeMaybeDefinedVisitor h self_reg) op) = ∅
  ∧ fst (accept (AttributeMaybeUndefinedVisitor h self_reg) op) = ∅
  ∧ snd (accept (AttributeMaybeUndefinedVisitor h self_reg) op)
      ⊆ fst (accept (AttributeMaybeDefinedVisitor h self_reg) op).
Proof.
  destruct op; simpl; try (repeat split; set_solver).
  - case_decide; simpl; repeat split; set_solver.
  - destruct (is_init_call fn); simpl; [| repeat split; set_solver].
    unfold attributes_maybe_initialized_by_init_call. repeat split; set_solver.
Qed.

(** X5: the two visitors mirror each other on every op.  The
    maybe-defined pass never kills, the maybe-undefined pass never
    generates, and whatever an op removes from the maybe-undefined set it
    adds to the maybe-defined set. *)
Theorem definedness_visitors_dual (h : Heap) (self_reg : Register) (op : Op) :
  snd (accept (AttributeMaybeDefinedVisitor h self_reg) op) = ∅
  ∧ fst (accept (AttributeMaybeUndefinedVisitor h self_reg) op) = ∅
  ∧ snd (accept (AttributeMaybeUndefinedVisitor h self_reg) op)
      ⊆ fst (accept (AttributeMaybeDefinedVisitor h self_reg) op).
Proof.
  destruct op; simpl; try (repeat split; set_solver).
  - case_decide; simpl; repeat split; set_solver.
  - destruct (is_init_call fn); simpl; [| repeat split; set_solver].
    unfold attributes_maybe_initialized_by_init_call. repeat split; set_solver.
Qed.

Section Exhaustive.
Variable blocks : list BasicBlock.
Variable h : Heap.
Variable self_reg : Register.
Variable defaults all_attrs : gset string.
Variable r_d r_u : AnalysisResult string.
Hypothesis Hd : forward_solution blocks (accept (AttributeMaybeDefinedVisitor h self_reg))
                                 defaults r_d.
Hypothesis Hu : forward_solution blocks (accept (AttributeMaybeUndefinedVisitor h self_reg))
                                 (all_attrs ∖ defaults) r_u.

Lemma exhaustive_op (b : Label) (block : BasicBlock) (i : nat) :
  blocks !! b = Some block -> i < length (ops block) ->
  all_attrs ⊆ before r_d b i ∪ before r_u b i ->
  all_attrs ⊆ after r_d b i ∪ after r_u b i.
Proof.
  intros Hb Hi Hbefore.
  destruct (lookup_lt_is_Some_2 (ops block) i Hi) as [op Hop].
  destruct Hd as (_ & Hopd & _), Hu as (_ & Hopu & _).
  rewrite (Hopd b block i op Hb Hop), (Hopu b block i op Hb Hop).
  destruct (visitors_dual_on_op h self_reg op) as (Hk & _ & Hsub).
  rewrite Hk. intros x Hx. specialize (Hbefore x Hx).
  destruct (decide (x ∈ snd (accept (AttributeMaybeUndefinedVisitor h self_reg) op)));
    set_solver.
Qed.

Lemma exhaustive_block (b : Label) (block : BasicBlock) (i : nat) :
  blocks !! b = Some block ->
  all_attrs ⊆ before r_d b 0 ∪ before r_u b 0 ->
  i < length (ops block) ->
  all_attrs ⊆ before r_d b i ∪ before r_u b i.
Proof.
  intros Hb H0. induction i as [| i IH]; intros Hi; [done |].
  destruct Hd as (_ & _ & Hseqd & _), Hu as (_ & _ & Hsequ & _).
  rewrite (Hseqd b block i Hb Hi), (Hsequ b block i Hb Hi).
  apply (exhaustive_op b block i Hb); [lia |]. apply IH. lia.
Qed.

Lemma exhaustive_reachable (b : Label) (block : BasicBlock) :
  reachable blocks b -> blocks !! b = Some block ->
  all_attrs ⊆ before r_d b 0 ∪ before r_u b 0.
Proof.
  intros Hreach. revert block.
  induction Hreach as [| a ablock op b Hreach IH Ha Hlast Ht]; intros block Hb.
  - destruct Hd as (Hid & _), Hu as (Hiu & _). intros x Hx.
    destruct (decide (x ∈ defaults)); set_solver.
  - specialize (IH ablock Ha).
    assert (Hlen : length (ops ablock) - 1 < length (ops ablock)).
    { destruct (ops ablock); [done | simpl; lia]. }
    pose proof (exhaustive_op a ablock _ Ha Hlen
                  (exhaustive_block a ablock _ Ha IH Hlen)) as Hafter.
    destruct Hd as (_ & _ & _ & Hedged), Hu as (_ & _ & _ & Hedgeu).
    specialize (Hedged a ablock op b Ha Hlast Ht ltac:(by eexists)).
    specialize (Hedgeu a ablock op b Ha Hlast Ht ltac:(by eexists)).
    set_solver.
Qed.
End Exhaustive.

(** X6: at every op of a block reachable from the entry, each attribute of
    the class is maybe defined or maybe undefined (or both), before the op
    and after it, whenever the results of the two definedness passes
    satisfy the contract of the engine.  So the set that
    [find_always_defined_attributes] keeps at an escape point,
    maybe-defined-after minus maybe-undefined-after, holds of the class's
    attributes exactly those that are not maybe undefined there. *)
Theorem defined_or_undefined_everywhere (CFG : Type)
    (run_analysis : list BasicBlock -> CFG -> BaseAnalysisVisitor -> gset string ->
                    bool -> AnalysisKind -> AnalysisResult string)
    (cfg : CFG) (h : Heap) (blocks : list BasicBlock) (self_reg : Register)
    (attrs_with_defaults all_attrs : gset string)
    (b : Label) (block : BasicBlock) (i : nat) :
  let maybe_defined :=
    analyze_maybe_defined_attrs_in_init CFG run_analysis h blocks self_reg
                                        attrs_with_defaults cfg in
  let maybe_undefined :=
    analyze_maybe_undefined_attrs_in_init CFG run_analysis h blocks self_reg
                                          (all_attrs ∖ attrs_with_defaults) cfg in
  forward_solution blocks (accept (AttributeMaybeDefinedVisitor h self_reg))
                   attrs_with_defaults maybe_defined ->
  forward_solution blocks (accept (AttributeMaybeUndefinedVisitor h self_reg))
                   (all_attrs ∖ attrs_with_defaults) maybe_undefined ->
  reachable blocks b ->
  blocks !! b = Some block ->
  i < length (ops block) ->
  all_attrs ⊆ before maybe_defined b i ∪ before maybe_undefined b i
  ∧ all_attrs ⊆ after maybe_defined b i ∪ after maybe_undefined b i
  ∧ all_attrs ∩ (after maybe_defined b i ∖ after maybe_undefined b i)
    = all_attrs ∖ after maybe_undefined b i.
Proof.
  intros md mu Hd Hu Hreach Hb Hi.
  pose proof (exhaustive_reachable blocks h self_reg _ all_attrs md mu Hd Hu b block
                Hreach Hb) as H0.
  pose proof (exhaustive_block blocks h self_reg _ all_attrs md mu Hd Hu b block i
                Hb H0 Hi) as Hbefore.
  pose proof (exhaustive_op blocks h self_reg _ all_attrs md mu Hd Hu b block i
                Hb Hi Hbefore) as Hafter.
  split; [done |]. split; [done |]. set_solver.
Qed.

Lemma defined_or_undefined_everywhere_witness :
  let all_attrs : gset string := {["x"%string; "y"%string; "z"%string]} in
  let maybe_defined := Examples.model_defined Examples.branch_heap Examples.branch_init in
  let maybe_undefined :=
    Examples.model_undefined Examples.branch_heap Examples.branch_init (all_attrs ∖ ∅) in
  all_attrs ⊆ before maybe_defined 0 1 ∪ before maybe_undefined 0 1
  ∧ all_attrs ⊆ after maybe_defined 0 1 ∪ after maybe_undefined 0 1
  ∧ all_attrs ∩ (after maybe_defined 0 1 ∖ after maybe_undefined 0 1)
    = all_attrs ∖ after maybe_undefined 0 1.
Proof.
  apply (defined_or_undefined_everywhere Model.CFG Model.run_analysis
           (Model.get_cfg (blocks Examples.branch_init)) Examples.branch_heap
           (blocks Examples.branch_init) 0 ∅ {["x"%string; "y"%string; "z"%string]}
           0 {| ops := [SetAttr 0 "x" 10; OtherOp []; Branch 1 1 2] |} 1).
  - apply model_run_analysis_solution.
  - apply model_run_analysis_solution.
  - apply reachable_entry.
  - reflexivity.
  - simpl. lia.
Defined.

(** ** The first pass, class by class *)

Lemma all_attrs_of_decl (h h' : Heap) (c c' : ClassIR) :
  (forall d, decl_of (h d) = decl_of (h' d)) -> decl_of c = decl_of c' ->
  all_attrs_of h c = all_attrs_of h' c'.
Proof.
  intros Hh Hc. unfold all_attrs_of.
  destruct (decl_of_fields _ _ Hc) as (_ & _ & -> & _).
  f_equal. apply map_ext. intros base.
  by destruct (decl_of_fields _ _ (Hh base)) as (_ & _ & _ & _ & -> & _).
Qed.

Section FirstPassDetail.
Variable CFG : Type.
Variable get_cfg : list BasicBlock -> CFG.
Variable run_analysis :
  list BasicBlock -> CFG -> BaseAnalysisVisitor -> gset string ->
  bool -> AnalysisKind -> AnalysisResult string.
Variable analyze_self_leaks :
  list BasicBlock -> Register -> CFG -> AnalysisResult unit.

Abbreviation step_1 := (first_pass_step CFG get_cfg analyze_self_leaks).
Abbreviation detail_1 := (first_pass_detail CFG get_cfg run_analysis analyze_self_leaks).
Abbreviation analyze_class_1 :=
  (analyze_always_defined_attrs_in_class CFG get_cfg run_analysis analyze_self_leaks).
Abbreviation analysis_1 :=
  (analyze_always_defined_attrs CFG get_cfg run_analysis analyze_self_leaks).

Lemma first_pass_detail_refl (s : State * gset cid) : detail_1 s s.
Proof.
  split; [done |]. split; [done |]. split.
  - by intros c m ? ?.
  - by intros f p ? ?.
Qed.

Lemma first_pass_detail_trans (s1 s2 s3 : State * gset cid) :
  step_1 s1 s2 -> detail_1 s1 s2 -> step_1 s2 s3 -> detail_1 s2 s3 -> detail_1 s1 s3.
Proof.
  intros (Hs12 & Hf12 & Hd12 & _) (Hg12 & Hi12 & Hn12 & Ht12)
         (Hs23 & Hf23 & Hd23 & _) (Hg23 & Hi23 & Hn23 & Ht23).
  assert (Hfields : forall c, gives_up (classes s2.1 c) = gives_up (classes s1.1 c)
                              ∧ init_method (classes s2.1 c) = init_method (classes s1.1 c)).
  { intros c. by destruct (decl_of_fields _ _ (Hd12 c)) as (_ & _ & _ & _ & _ & _ & _ & ? & ?). }
  split; [| split; [| split]].
  - intros c Hc. rewrite Hg23; [by apply Hg12 |].
    by rewrite (proj1 (Hfields c)).
  - set_solver.
  - intros c m Hc3 Hc1 Hgc Hm.
    destruct (decide (c ∈ s2.2)) as [Hc2 | Hc2].
    + destruct (Hn12 c m Hc2 Hc1 Hgc Hm) as (h & self_reg & rest & Hargs & Hdecl & Hres).
      exists h, self_reg, rest. split; [done |]. split; [done |].
      by rewrite (Hf23 c Hc2).
    + destruct (Hn23 c m Hc3 Hc2) as (h & self_reg & rest & Hargs & Hdecl & Hres).
      * by rewrite (proj1 (Hfields c)).
      * by rewrite (proj2 (Hfields c)).
      * exists h, self_reg, rest. split; [done |]. split; [| done].
        intros d. by rewrite Hdecl.
  - intros f p Hp3 Hp1.
    destruct (decide ((f, p) ∈ initializers s2.1)) as [Hp2 | Hp2].
    + destruct (Ht12 f p Hp2 Hp1)
        as (c & m & h & self_reg & rest & Hc2 & Hc1 & Hgc & Hm & Hf & Hargs & Hdecl & Hin).
      exists c, m, h, self_reg, rest. repeat (split; [done |]).
      split; [set_solver |]. done.
    + destruct (Ht23 f p Hp3 Hp2)
        as (c & m & h & self_reg & rest & Hc3 & Hc2 & Hgc & Hm & Hf & Hargs & Hdecl & Hin).
      exists c, m, h, self_reg, rest.
      split; [done |]. split; [set_solver |].
      split; [by rewrite <- (proj1 (Hfields c)) |].
      split; [by rewrite <- (proj2 (Hfields c)) |].
      split; [done |]. split; [done |].
      split; [intros d; by rewrite Hdecl |].
      unfold tagged_from in Hin |- *.
      by destruct (decl_of_fields _ _ (Hd12 c)) as (_ & _ & _ & _ & _ & <- & _).
Qed.

Lemma analyze_in_class_detail (fuel : nat) (cl : cid) (s s' : State * gset cid) :
  analyze_class_1 fuel cl s = Some s' -> detail_1 s s'.
Proof.
  revert cl s s'. induction fuel as [| fuel IH]; intros cl [st seen] s' Hrun; [done |].
  simpl in Hrun. destruct (decide (cl ∈ seen)) as [Hin | Hnin].
  { simplify_eq. apply first_pass_detail_refl. }
  destruct (gives_up (classes st cl)) eqn:Hg.
  { simplify_eq. split; [done |]. split; [done |]. split; simpl.
    - intros c m Hc Hc' Hgc. assert (c = cl) as -> by set_solver. congruence.
    - intros f p Hp Hp'. done. }
  destruct (for_each _ _ _) as [[st2 seen2] |] eqn:Hloop; [| done].
  assert (Hboth : step_1 (st, {[cl]} ∪ seen) (st2, seen2)
                  ∧ detail_1 (st, {[cl]} ∪ seen) (st2, seen2)).
  { apply (for_each_rel _ (fun s s' => step_1 s s' ∧ detail_1 s s')) in Hloop;
      [exact Hloop | | |].
    - intros s. split; [apply first_pass_step_refl | apply first_pass_detail_refl].
    - intros s1 s2 s3 [? ?] [? ?].
      split; [by eapply first_pass_step_trans | by eapply first_pass_detail_trans].
    - intros base t t' _ Hb.
      split; [by apply analyze_in_class_step in Hb as [? _] | by apply IH in Hb]. }
  destruct Hboth as [(Hs & Hf & Hd & _) (Hgu & Hi & Hnew & Htag)].
  simpl in Hs, Hf, Hd, Hgu, Hi, Hnew, Htag.
  assert (Hcl2 : classes st2 cl = classes st cl) by (apply Hf; set_solver).
  assert (Hold : forall c m, c ≠ cl -> c ∈ seen2 -> c ∉ seen ->
            gives_up (classes st c) = false -> init_method (classes st c) = Some m ->
            exists h self_reg rest,
              arg_regs m = self_reg :: rest
              ∧ (forall d, decl_of (h d) = decl_of (classes st d))
              ∧ resolved_from CFG get_cfg run_analysis analyze_self_leaks
                              h (classes st2 c) m self_reg).
  { intros c m Hne Hc Hc' Hgc Hm. apply Hnew; [done | set_solver | done | done]. }
  assert (Holdtag : forall f p, (f, p) ∈ initializers st2 -> (f, p) ∉ initializers st ->
            exists c m h self_reg rest,
              c ∈ seen2 ∧ (c ∉ seen) ∧ gives_up (classes st c) = false
              ∧ init_method (classes st c) = Some m ∧ fn_id m = f
              ∧ arg_regs m = self_reg :: rest
              ∧ (forall d, decl_of (h d) = decl_of (classes st d))
              ∧ p ∈ tagged_from CFG get_cfg run_analysis analyze_self_leaks
                                h (classes st c) m self_reg).
  { intros f p Hp Hp'.
    destruct (Htag f p Hp Hp')
      as (c & m & h & self_reg & rest & Hc2 & Hc1 & Hrest).
    exists c, m, h, self_reg, rest. split; [done |]. split; [set_solver | done]. }
  unfold get_init_method in Hrun.
  destruct (init_method (classes st2 cl)) as [m |] eqn:Hm.
  - destruct (arg_regs m) as [| self_reg rest] eqn:Hargs; [done |]. simplify_eq.
    split; [| split; [| split]]; simpl.
    + intros c Hc. assert (c ≠ cl) by congruence.
      unfold analyze_init. simpl. rewrite upd_ne by done. by apply Hgu.
    + unfold analyze_init. simpl. set_solver.
    + intros c m' Hc Hc' Hgc Hm'. destruct (decide (c = cl)) as [-> | Hne].
      * rewrite <- Hcl2, Hm in Hm'. simplify_eq.
        exists (classes st2), self_reg, rest. split; [done |]. split; [done |].
        unfold analyze_init, resolved_from. simpl. rewrite upd_eq. simpl.
        split; [reflexivity |]. split; reflexivity.
      * unfold analyze_init. simpl. rewrite upd_ne by done. by apply Hold.
    + intros f p Hp Hp'. unfold analyze_init in Hp. simpl in Hp.
      apply elem_of_union in Hp as [Hp | Hp]; [by apply Holdtag |].
      apply elem_of_list_to_set, list_elem_of_fmap in Hp as (q & Hq & Hin).
      simplify_eq.
      exists cl, m, (classes st2), self_reg, rest.
      split; [set_solver |]. split; [done |]. split; [done |].
      split; [by rewrite <- Hcl2 |]. split; [done |]. split; [done |]. split; [done |].
      unfold tagged_from. by rewrite <- Hcl2.
  - simplify_eq. split; [| split; [| split]]; simpl.
    + intros c Hc. assert (c ≠ cl) by congruence.
      rewrite upd_ne by done. by apply Hgu.
    + done.
    + intros c m Hc Hc' Hgc Hm'. destruct (decide (c = cl)) as [-> | Hne].
      * rewrite <- Hcl2, Hm in Hm'. done.
      * rewrite upd_ne by done. by apply Hold.
    + done.
Qed.

(** After the first pass: every listed class has been seen, and the state
    is related to the initial one by [first_pass_step] and
    [first_pass_detail]. *)
Lemma first_pass_detail_spec (fuel : nat) (class_irs : list cid) (st st1 : State) :
  first_pass CFG get_cfg run_analysis analyze_self_leaks fuel class_irs st = Some st1 ->
  exists seen1,
    step_1 (st, ∅) (st1, seen1) ∧ detail_1 (st, ∅) (st1, seen1)
    ∧ forall cl, cl ∈ class_irs -> cl ∈ seen1.
Proof.
  unfold first_pass. intros Hrun.
  destruct (for_each _ _ _) as [[st1' seen1] |] eqn:Hloop; [| done].
  simpl in Hrun. simplify_eq. exists seen1.
  destruct (for_each_establish (analyze_class_1 fuel)
              (fun s => step_1 (st, ∅) s ∧ detail_1 (st, ∅) s)
              (fun cl s => cl ∈ s.2) class_irs (st, ∅) (st1, seen1))
    as [[Hstep Hdetail] Hseen]; [| | | done |].
  - intros cl s s' _ [Hs Hd] Hcl.
    pose proof (analyze_in_class_detail _ _ _ _ Hcl) as Hd'.
    apply analyze_in_class_step in Hcl as [Hs' Hin].
    split; [| done].
    split; [by eapply first_pass_step_trans | by eapply first_pass_detail_trans].
  - intros x cl s s' _ _ Hx Hcl. apply analyze_in_class_step in Hcl as [(? & _) _].
    set_solver.
  - split; [apply first_pass_step_refl | apply first_pass_detail_refl].
  - done.
Qed.
End FirstPassDetail.

(** ** The second pass: its result in closed form *)

Lemma open_classes_kept_trans (h1 h2 h3 : Heap) :
  open_classes_kept h1 h2 -> open_classes_kept h2 h3 -> open_classes_kept h1 h3.
Proof.
  intros H12 H23 c Hc. rewrite H23; [by apply H12 |]. by rewrite H12.
Qed.

Lemma update_using_subclasses_open (fuel : nat) (cl : cid) (s s' : Heap * gset cid) :
  update_always_defined_attrs_using_subclasses fuel cl s = Some s' ->
  open_classes_kept s.1 s'.1.
Proof.
  revert cl s s'. induction fuel as [| fuel IH]; intros cl [h seen] s' Hrun; [done |].
  simpl in Hrun. destruct (decide (cl ∈ seen)).
  { by simplify_eq. }
  destruct (children (h cl)) as [chs |] eqn:Hch.
  2:{ by simplify_eq. }
  destruct (for_each _ _ _) as [[[h2 seen2] removed] |] eqn:Hloop; [| done].
  simplify_eq. simpl.
  assert (Hopen : open_classes_kept h h2).
  { apply (for_each_rel _ (fun t t' : Heap * gset cid * gset string =>
                             open_classes_kept t.1.1 t'.1.1)) in Hloop;
      [exact Hloop | done | intros ? ? ?; apply open_classes_kept_trans |].
    intros attr t t' _ Hattr.
    apply (for_each_rel _ (fun t t' : Heap * gset cid * gset string =>
                             open_classes_kept t.1.1 t'.1.1)) in Hattr;
      [exact Hattr | done | intros ? ? ?; apply open_classes_kept_trans |].
    intros child [[h1 seen1] rem1] u' _ Hchild. unfold update_children in Hchild.
    destruct (update_always_defined_attrs_using_subclasses fuel child (h1, seen1))
      as [[h3 seen3] |] eqn:E; [| done].
    apply IH in E. case_match; by simplify_eq. }
  intros c Hc. rewrite upd_ne by congruence. by apply Hopen.
Qed.

Lemma second_pass_open (fuel : nat) (class_irs : list cid) (h h' : Heap) :
  second_pass fuel class_irs h = Some h' -> open_classes_kept h h'.
Proof.
  unfold second_pass. intros Hrun.
  destruct (for_each _ _ _) as [[h1 seen1] |] eqn:Hloop; [| done].
  simpl in Hrun. simplify_eq.
  apply (for_each_rel _ (fun s s' : Heap * gset cid => open_classes_kept s.1 s'.1))
    in Hloop; [exact Hloop | done | intros ? ? ?; apply open_classes_kept_trans |].
  intros cl s s' _. apply update_using_subclasses_open.
Qed.

(** In a state that satisfies the invariant of the second pass, a class in
    [seen] keeps exactly the attributes that it and all its descendants had
    at the start. *)
Lemma second_pass_inv_closed (h0 : Heap) (rank : cid -> nat) (s : Heap * gset cid) :
  acyclic_children h0 rank -> second_pass_inv h0 s ->
  forall n c, rank c < n -> c ∈ s.2 ->
    forall a, a ∈ _always_initialized_attrs (s.1 c) <->
              a ∈ _always_initialized_attrs (h0 c)
              ∧ forall d, descendant h0 c d -> a ∈ _always_initialized_attrs (h0 d).
Proof.
  intros Hacyclic Hinv. induction n as [| n IH]; intros c Hrank Hc a; [lia |].
  pose proof Hinv as (_ & Hunseen & Hseen).
  destruct (Hseen c Hc) as (chs & Hchs & Hiff & Hfin).
  assert (Hchs0 : children (h0 c) = Some chs).
  { by rewrite <- (second_pass_inv_children h0 s c Hinv). }
  assert (Hchild : forall d, d ∈ chs -> a ∈ _always_initialized_attrs (h0 c) ->
            (a ∈ _always_initialized_attrs (s.1 d) <->
             a ∈ _always_initialized_attrs (h0 d)
             ∧ forall e, descendant h0 d e -> a ∈ _always_initialized_attrs (h0 e))).
  { intros d Hd Ha. destruct (decide (d ∈ s.2)) as [Hds | Hds].
    - apply IH; [| done]. specialize (Hacyclic c chs d Hchs0 Hd). lia.
    - rewrite (Hunseen d Hds). split; [| by intros [? _]].
      intros Had. split; [done |]. intros e He.
      destruct (Hfin ltac:(set_solver) d Hd) as [? | Hopen]; [done |].
      rewrite (second_pass_inv_children h0 s d Hinv) in Hopen.
      inversion He; congruence. }
  rewrite Hiff. split.
  - intros [Ha Hall]. split; [done |]. intros e He.
    inversion He as [c' chs' d Hch' Hd | c' chs' d e' Hch' Hd Hde]; subst.
    + assert (chs' = chs) as -> by congruence.
      exact (proj1 (proj1 (Hchild e Hd Ha) (Hall e Hd))).
    + assert (chs' = chs) as -> by congruence.
      exact (proj2 (proj1 (Hchild d Hd Ha) (Hall d Hd)) e Hde).
  - intros [Ha Hall]. split; [done |]. intros d Hd.
    apply (Hchild d Hd Ha). split.
    + apply Hall. by eapply descendant_child.
    + intros e He. apply Hall. by eapply descendant_step.
Qed.

(** X7: the result of the subclass pass in closed form.  On an acyclic
    class hierarchy the pass returns (the fuel covers the deepest listed
    class); it changes no field other than [_always_initialized_attrs], it
    leaves every class with unknown children as it was, and a listed class
    with known children keeps exactly those of its attributes that all its
    descendants (through the [children] lists) had before the pass.  The
    result therefore depends neither on the order of the list nor on the
    order in which the attributes are visited. *)
Theorem second_pass_closed_form (rank : cid -> nat) (fuel : nat)
    (class_irs : list cid) (h : Heap) :
  acyclic_children h rank ->
  (forall cl, cl ∈ class_irs -> rank cl < fuel) ->
  exists h',
    second_pass fuel class_irs h = Some h'
    ∧ (forall c, set_always ∅ (h' c) = set_always ∅ (h c))
    ∧ (forall c, children (h c) = None -> h' c = h c)
    ∧ (forall cl a, cl ∈ class_irs -> children (h cl) ≠ None ->
         (a ∈ _always_initialized_attrs (h' cl) <->
          a ∈ _always_initialized_attrs (h cl)
          ∧ forall d, descendant h cl d -> a ∈ _always_initialized_attrs (h d))).
Proof.
  intros Hacyclic Hfuel.
  destruct (second_pass_total h rank Hacyclic fuel class_irs Hfuel) as [h' Hrun].
  exists h'. split; [done |].
  split; [intros c; by destruct (second_pass_spec _ _ _ _ Hrun c) |].
  split; [by apply (second_pass_open fuel class_irs) |].
  unfold second_pass in Hrun.
  destruct (for_each _ _ _) as [[h1 seen1] |] eqn:Hloop; [| done].
  simpl in Hrun. simplify_eq.
  destruct (second_pass_loop h rank Hacyclic _ _ _ Hloop) as [Hinv Hfin].
  intros cl a Hcl Hknown.
  apply (second_pass_inv_closed h rank (h', seen1) Hacyclic Hinv (S (rank cl)) cl);
    [lia |].
  by destruct (Hfin cl Hcl) as [? | Hopen].
Qed.

Lemma second_pass_closed_form_witness :
  exists h',
    second_pass 4 [0; 1; 2] Examples.family_heap = Some h'
    ∧ (forall c, set_always ∅ (h' c) = set_always ∅ (Examples.family_heap c))
    ∧ (forall c, children (Examples.family_heap c) = None -> h' c = Examples.family_heap c)
    ∧ (forall cl a, cl ∈ [0; 1; 2] -> children (Examples.family_heap cl) ≠ None ->
         (a ∈ _always_initialized_attrs (h' cl) <->
          a ∈ _always_initialized_attrs (Examples.family_heap cl)
          ∧ forall d, descendant Examples.family_heap cl d ->
                      a ∈ _always_initialized_attrs (Examples.family_heap d))).
Proof.
  apply (second_pass_closed_form Examples.family_rank 4 [0; 1; 2] Examples.family_heap).
  - exact family_acyclic.
  - intros cl _. unfold Examples.family_rank. lia.
Defined.

(** ** What the analysis leaves alone, and what it records *)

Section AnalysisFacts.
Variable CFG : Type.
Variable get_cfg : list BasicBlock -> CFG.
Variable run_analysis :
  list BasicBlock -> CFG -> BaseAnalysisVisitor -> gset string ->
  bool -> AnalysisKind -> AnalysisResult string.
Variable analyze_self_leaks :
  list BasicBlock -> Register -> CFG -> AnalysisResult unit.

Abbreviation analysis_2 :=
  (analyze_always_defined_attrs CFG get_cfg run_analysis analyze_self_leaks).


(** X9: a class that the guard of the resolver excludes (a trait, a class
    with a Python or builtin base, with interpreted subclasses, with
    unknown children, or serializable) is left alone: its
    [_sometimes_initialized_attrs] and [init_self_leak] are unchanged and
    its [_always_initialized_attrs] gets nothing new; when its children are
    unknown, [_always_initialized_attrs] is unchanged as well. *)
Theorem excluded_class_left_alone (fuel : nat) (class_irs : list cid) (st st' : State)
    (c : cid) :
  analysis_2 fuel class_irs st = Some st' ->
  gives_up (classes st c) = true ->
  _sometimes_initialized_attrs (classes st' c) = _sometimes_initialized_attrs (classes st c)
  ∧ init_self_leak (classes st' c) = init_self_leak (classes st c)
  ∧ _always_initialized_attrs (classes st' c) ⊆ _always_initialized_attrs (classes st c)
  ∧ (children (classes st c) = None ->
     _always_initialized_attrs (classes st' c) = _always_initialized_attrs (classes st c)).
Proof.
  intros Hrun Hg.
  destruct (analysis_spec _ _ _ _ _ _ _ _ Hrun)
    as (st1 & h2 & H1 & H2 & _ & _ & _ & Hlater).
  destruct (first_pass_detail_spec _ _ _ _ _ _ _ _ H1)
    as (seen1 & _ & (Hkept & _) & _).
  specialize (Hkept c Hg). simpl in Hkept.
  destruct (Hlater c) as (_ & Ha2 & Ha & Hs & Hl).
  rewrite Hkept in Ha, Hs, Hl.
  split; [done |]. split; [done |]. split; [done |].
  intros Hopen. rewrite Ha2.
  rewrite (second_pass_open _ _ _ _ H2 c); by rewrite Hkept.
Qed.

(** X10: in a class with a constructor, an always-defined attribute is
    declared by a class of the MRO and is not deletable.  This holds after
    the whole analysis for every listed class that the guard does not
    exclude. *)
Theorem always_defined_declared_not_deletable (fuel : nat) (class_irs : list cid)
    (st st' : State) (cl : cid) (m : FuncIR) (a : string) :
  analysis_2 fuel class_irs st = Some st' ->
  cl ∈ class_irs ->
  gives_up (classes st cl) = false ->
  init_method (classes st cl) = Some m ->
  a ∈ _always_initialized_attrs (classes st' cl) ->
  a ∈ all_attrs_of (classes st) (classes st cl)
  ∧ is_deletable (classes st cl) a = false.
Proof.
  intros Hrun Hcl Hg Hm Ha.
  destruct (analysis_spec _ _ _ _ _ _ _ _ Hrun)
    as (st1 & h2 & H1 & _ & _ & Hd1 & _ & Hlater).
  destruct (first_pass_detail_spec _ _ _ _ _ _ _ _ H1)
    as (seen1 & _ & (_ & _ & Hnew & _) & Hseen).
  destruct (Hnew cl m (Hseen cl Hcl) ltac:(set_solver) Hg Hm)
    as (h & self_reg & rest & _ & Hdecl & Hres & _).
  simpl in Hdecl, Hres.
  destruct (Hlater cl) as (_ & _ & Hsub & _).
  apply Hsub in Ha. rewrite Hres in Ha. apply elem_of_filter in Ha as [Hdel Ha].
  apply always_blocks_subseteq in Ha.
  rewrite (all_attrs_of_decl h (classes st) (classes st1 cl) (classes st cl) Hdecl (Hd1 cl))
    in Ha.
  split; [done |].
  apply negb_True, Is_true_false_1 in Hdel. unfold is_deletable in Hdel |- *.
  by destruct (decl_of_fields _ _ (Hd1 cl)) as (_ & _ & _ & _ & _ & _ & <- & _).
Qed.

(** X11: the tags only ever mark writes to the receiver in constructors.
    Tags present before the analysis stay; every tag that the analysis adds
    sits on an op [SetAttr] whose object is the receiver register of the
    constructor of a class that the guard does not exclude, at a point
    where the escape oracle does not have the escape flag set after the
    op. *)
Theorem tags_mark_receiver_writes (fuel : nat) (class_irs : list cid) (st st' : State) :
  analysis_2 fuel class_irs st = Some st' ->
  initializers st ⊆ initializers st'
  ∧ forall f b i, (f, (b, i)) ∈ initializers st' -> (f, (b, i)) ∉ initializers st ->
      exists c m self_reg rest block attr src,
        gives_up (classes st c) = false
        ∧ init_method (classes st c) = Some m ∧ fn_id m = f
        ∧ arg_regs m = self_reg :: rest
        ∧ blocks m !! b = Some block
        ∧ ops block !! i = Some (SetAttr self_reg attr src)
        ∧ after (init_dirty CFG get_cfg analyze_self_leaks m) b i = ∅.
Proof.
  intros Hrun.
  destruct (analysis_spec _ _ _ _ _ _ _ _ Hrun) as (st1 & h2 & H1 & H2 & H3 & _).
  assert (Hinit : initializers st' = initializers st1).
  { unfold analyze_always_defined_attrs in Hrun. rewrite H1 in Hrun. simpl in Hrun.
    rewrite H2 in Hrun. simpl in Hrun. rewrite H3 in Hrun. simpl in Hrun.
    injection Hrun as <-. done. }
  destruct (first_pass_detail_spec _ _ _ _ _ _ _ _ H1)
    as (seen1 & _ & (_ & Hgrow & _ & Htag) & _).
  simpl in Hgrow, Htag. rewrite Hinit. split; [done |].
  intros f b i Hin Hnew.
  destruct (Htag f (b, i) Hin Hnew)
    as (c & m & h & self_reg & rest & _ & _ & Hg & Hm & Hf & Hargs & _ & Hp).
  unfold tagged_from, mark_attr_initialization_ops in Hp.
  apply mark_blocks_elem in Hp
    as (j & block & i' & obj & attr & src & Hp & Hj & Hop & -> & _ & Hclean).
  simpl in Hp. injection Hp as -> ->. simpl in Hclean.
  exists c, m, self_reg, rest, block, attr, src.
  repeat (split; [done |]).
  unfold init_dirty. rewrite Hargs. simpl. by apply nonempty_false.
Qed.

(** X12: a constructor without argument registers makes the analysis
    fail: the resolver reads the receiver as [m.arg_regs[0]], which raises
    when the list is empty, so the analysis of a list that contains a
    class with such a constructor (and that the guard does not exclude)
    never returns a result. *)
Theorem constructor_without_receiver_fails (fuel : nat) (class_irs : list cid)
    (st : State) (cl : cid) (m : FuncIR) :
  cl ∈ class_irs ->
  gives_up (classes st cl) = false ->
  init_method (classes st cl) = Some m ->
  arg_regs m = [] ->
  analysis_2 fuel class_irs st = None.
Proof.
  intros Hcl Hg Hm Hargs.
  destruct (analysis_2 fuel class_irs st) as [st' |] eqn:Hrun; [| done].
  destruct (analysis_spec _ _ _ _ _ _ _ _ Hrun) as (st1 & h2 & H1 & _).
  destruct (first_pass_detail_spec _ _ _ _ _ _ _ _ H1)
    as (seen1 & _ & (_ & _ & Hnew & _) & Hseen).
  destruct (Hnew cl m (Hseen cl Hcl) ltac:(set_solver) Hg Hm)
    as (h & self_reg & rest & Hargs' & _).
  congruence.
Qed.
End AnalysisFacts.


Lemma excluded_class_left_alone_witness :
  let st := Examples.start Examples.trait_heap in
  let st' := Examples.run [0; 1] Examples.trait_heap in
  _sometimes_initialized_attrs (classes st' 1) = _sometimes_initialized_attrs (classes st 1)
  ∧ init_self_leak (classes st' 1) = init_self_leak (classes st 1)
  ∧ _always_initialized_attrs (classes st' 1) ⊆ _always_initialized_attrs (classes st 1)
  ∧ (children (classes st 1) = None ->
     _always_initialized_attrs (classes st' 1) = _always_initialized_attrs (classes st 1)).
Proof.
  apply (excluded_class_left_alone Model.CFG Model.get_cfg Model.run_analysis
           Model.analyze_self_leaks 3 [0; 1] (Examples.start Examples.trait_heap)
           (Examples.run [0; 1] Examples.trait_heap) 1).
  - apply Some_default. by_eval.
  - reflexivity.
Defined.

Lemma always_defined_declared_not_deletable_witness :
  "x"%string ∈ all_attrs_of (classes (Examples.start Examples.branch_heap))
                            (classes (Examples.start Examples.branch_heap) 0)
  ∧ is_deletable (classes (Examples.start Examples.branch_heap) 0) "x" = false.
Proof.
  apply (always_defined_declared_not_deletable Model.CFG Model.get_cfg Model.run_analysis
           Model.analyze_self_leaks 3 [0] (Examples.start Examples.branch_heap)
           (Examples.run [0] Examples.branch_heap) 0 Examples.branch_init "x").
  - apply Some_default. by_eval.
  - by_eval.
  - reflexivity.
  - reflexivity.
  - by_eval.
Defined.

Lemma tags_mark_receiver_writes_witness :
  let st := Examples.start Examples.branch_heap in
  let st' := Examples.run [0] Examples.branch_heap in
  initializers st ⊆ initializers st'
  ∧ forall f b i, (f, (b, i)) ∈ initializers st' -> (f, (b, i)) ∉ initializers st ->
      exists c m self_reg rest block attr src,
        gives_up (classes st c) = false
        ∧ init_method (classes st c) = Some m ∧ fn_id m = f
        ∧ arg_regs m = self_reg :: rest
        ∧ blocks m !! b = Some block
        ∧ ops block !! i = Some (SetAttr self_reg attr src)
        ∧ after (init_dirty Model.CFG Model.get_cfg Model.analyze_self_leaks m) b i = ∅.
Proof.
  apply (tags_mark_receiver_writes Model.CFG Model.get_cfg Model.run_analysis
           Model.analyze_self_leaks 3 [0] (Examples.start Examples.branch_heap)
           (Examples.run [0] Examples.branch_heap)).
  apply Some_default. by_eval.
Defined.

Lemma constructor_without_receiver_fails_witness :
  Model.analyze_always_defined_attrs 3 [0] (Examples.start Examples.no_self_heap) = None.
Proof.
  apply (constructor_without_receiver_fails Model.CFG Model.get_cfg Model.run_analysis
           Model.analyze_self_leaks 3 [0] (Examples.start Examples.no_self_heap) 0
           Examples.no_self_init).
  - by_eval.
  - reflexivity.
  - reflexivity.
  - reflexivity.
Defined.

(** ** The final pass, class by class *)

Lemma for_each_app {A S : Type} (f : A -> S -> option S) (l1 l2 : list A) (s : S) :
  for_each f (l1 ++ l2) s = for_each f l1 s ≫= for_each f l2.
Proof.
  revert s. induction l1 as [| x l1 IH]; intros s; simpl; [done |].
  destruct (f x s); simpl; [apply IH | done].
Qed.

Lemma prefix_elem_of {A : Type} (l k : list A) (x : A) :
  l `prefix_of` k -> x ∈ l -> x ∈ k.
Proof. intros [m ->] Hx. apply elem_of_app. by left. Qed.

(** Loops that only append. *)
Lemma foldl_prefix {A B : Type} (f : list B -> A -> list B) (l : list A) (bm : list B) :
  (forall bm x, bm `prefix_of` f bm x) -> bm `prefix_of` foldl f bm l.
Proof.
  intros Hf. revert bm. induction l as [| x l IH]; intros bm; simpl; [done |].
  etrans; [apply Hf | apply IH].
Qed.

Lemma foldl_prefix_elem {A B : Type} (f : list B -> A -> list B) (l : list A)
    (bm : list B) (x : A) (n : B) :
  (forall bm x, bm `prefix_of` f bm x) ->
  x ∈ l -> (forall bm, n ∈ f bm x) -> n ∈ foldl f bm l.
Proof.
  intros Hf Hx Hn. revert bm. induction l as [| y l IH]; intros bm; simpl.
  - by apply elem_of_nil in Hx.
  - apply elem_of_cons in Hx as [-> | Hx]; [| by apply IH].
    eapply prefix_elem_of; [by apply foldl_prefix | apply Hn].
Qed.

Lemma foldl_prefix_inv {A B : Type} (f : list B -> A -> list B) (P : B -> Prop)
    (l : list A) (bm : list B) :
  (forall bm x n, x ∈ l -> n ∈ f bm x -> n ∈ bm ∨ P n) ->
  forall n, n ∈ foldl f bm l -> n ∈ bm ∨ P n.
Proof.
  revert bm. induction l as [| x l IH]; intros bm Hf n Hn; simpl in Hn; [by left |].
  apply IH in Hn as [Hn | Hn]; [| by right |].
  - apply (Hf bm x n); [by left | done].
  - intros bm' y n' Hy. apply Hf. by right.
Qed.

Lemma own_bitmap_attrs_prefix (c : ClassIR) (bm : list string) :
  bm `prefix_of` own_bitmap_attrs c bm.
Proof.
  unfold own_bitmap_attrs. apply foldl_prefix. intros bm' nt.
  case_match; [by apply prefix_app_r | done].
Qed.

Lemma trait_bitmap_attrs_prefix (h : Heap) (c : ClassIR) (bm : list string) :
  bm `prefix_of` trait_bitmap_attrs h c bm.
Proof.
  unfold trait_bitmap_attrs. apply foldl_prefix. intros bm' base.
  case_match; [| done]. apply foldl_prefix. intros bm'' nt.
  case_match; [by apply prefix_app_r | done].
Qed.

Lemma bitmap_of_prefix (h : Heap) (cl : cid) :
  bitmap_attrs (h cl) `prefix_of` bitmap_of h cl.
Proof.
  unfold bitmap_of. etrans; [| apply trait_bitmap_attrs_prefix].
  etrans; [| apply own_bitmap_attrs_prefix].
  case_match; [by apply prefix_app_r | done].
Qed.

Lemma bitmap_of_base (h : Heap) (cl base : cid) :
  base_mro (h cl) !! 1 = Some base ->
  (bitmap_attrs (h cl) ++ bitmap_attrs (h base)) `prefix_of` bitmap_of h cl.
Proof.
  intros Hbase. unfold bitmap_of. rewrite Hbase.
  etrans; [| apply trait_bitmap_attrs_prefix]. apply own_bitmap_attrs_prefix.
Qed.

Lemma bitmap_of_complete (h : Heap) (cl : cid) (n : string) :
  needs_bitmap_slot h cl n -> n ∈ bitmap_of h cl.
Proof.
  intros (Hnot & t & Ht & [Hown | (base & Hbase & Htrait & Hattr)]); unfold bitmap_of.
  - eapply prefix_elem_of; [apply trait_bitmap_attrs_prefix |].
    unfold own_bitmap_attrs.
    apply (foldl_prefix_elem _ _ _ (n, t)); [| done |].
    + intros bm nt. case_match; [by apply prefix_app_r | done].
    + intros bm. simpl. rewrite Ht. unfold is_always_defined.
      rewrite bool_decide_eq_false_2 by done. simpl. set_solver.
  - unfold trait_bitmap_attrs.
    apply (foldl_prefix_elem _ _ _ base); [| done |].
    + intros bm b. case_match; [| done]. apply foldl_prefix. intros bm' nt.
      case_match; [by apply prefix_app_r | done].
    + intros bm. rewrite Htrait.
      apply (foldl_prefix_elem _ _ _ (n, t)); [| done |].
      * intros bm' nt. case_match; [by apply prefix_app_r | done].
      * intros bm'. simpl. rewrite Ht. unfold is_always_defined.
        rewrite bool_decide_eq_false_2 by done. simpl.
        destruct (decide (n ∈ bm')) as [Hin | Hin].
        -- by rewrite bool_decide_eq_true_2.
        -- rewrite bool_decide_eq_false_2 by done. simpl. set_solver.
Qed.

Lemma bitmap_of_declared (h : Heap) (cl : cid) (n : string) :
  n ∈ bitmap_of h cl ->
  n ∈ bitmap_attrs (h cl)
  ∨ (exists base, base_mro (h cl) !! 1 = Some base ∧ n ∈ bitmap_attrs (h base))
  ∨ exists d t, (n, t) ∈ attributes (h d) ∧ error_overlap t = true.
Proof.
  unfold bitmap_of, trait_bitmap_attrs, own_bitmap_attrs. intros Hn.
  apply (foldl_prefix_inv _
           (fun n => exists d t, (n, t) ∈ attributes (h d) ∧ error_overlap t = true))
    in Hn as [Hn | Hn]; [| by right; right |].
  - apply (foldl_prefix_inv _
             (fun n => exists d t, (n, t) ∈ attributes (h d) ∧ error_overlap t = true))
      in Hn as [Hn | Hn]; [| by right; right |].
    + destruct (base_mro (h cl) !! 1) as [base |] eqn:Hbase; [| by left].
      apply elem_of_app in Hn as [Hn | Hn]; [by left |].
      right. left. by exists base.
    + intros bm [n' t] m Hin Hm. simpl in Hm.
      destruct (error_overlap t) eqn:Ht; simpl in Hm; [| by left].
      destruct (negb (is_always_defined (h cl) n')); [| by left].
      apply elem_of_app in Hm as [Hm | Hm]; [by left |].
      apply list_elem_of_singleton in Hm as ->. right. by exists cl, t.
  - intros bm base m _ Hm. destruct (is_trait (h base)); [| by left].
    apply (foldl_prefix_inv _
             (fun n => exists d t, (n, t) ∈ attributes (h d) ∧ error_overlap t = true))
      in Hm; [done |].
    intros bm' [n' t] m' Hin Hm'. simpl in Hm'.
    destruct (error_overlap t) eqn:Ht; simpl in Hm'; [| by left].
    destruct (negb (is_always_defined (h cl) n') && negb (bool_decide (n' ∈ bm')));
      [| by left].
    apply elem_of_app in Hm' as [Hm' | Hm']; [by left |].
    apply list_elem_of_singleton in Hm' as ->. right. by exists base, t.
Qed.

(** The state after a call of [detect_undefined_bitmap], whenever the call
    returns. *)
Lemma detect_undefined_bitmap_result (fuel : nat) (cl : cid) (h : Heap) (seen : gset cid)
    (s' : Heap * gset cid) :
  detect_undefined_bitmap fuel cl (h, seen) = Some s' ->
  s' = if is_trait (h cl) then (h, seen)
       else if decide (cl ∈ seen) then (h, seen)
       else (upd cl (set_bitmap_attrs (bitmap_of h cl)) h, {[cl]} ∪ seen).
Proof.
  destruct fuel as [| fuel]; [done |]. simpl.
  destruct (is_trait (h cl)) eqn:Ht; [by intros [= <-] |].
  destruct (decide (cl ∈ seen)); [by intros [= <-] |].
  destruct (for_each _ _ _) as [[h2 seen2] |] eqn:Hloop; [| done].
  assert (Hsame : (h2, seen2) = (h, {[cl]} ∪ seen)).
  { apply (for_each_inv _ (fun s => s = (h, {[cl]} ∪ seen))) in Hloop; [done | | done].
    intros base s s'' _ -> Hstep. destruct fuel as [| fuel]; [done |].
    simpl in Hstep. rewrite Ht in Hstep.
    rewrite decide_True in Hstep by set_solver. by simplify_eq. }
  simplify_eq. by intros [= <-].
Qed.

Lemma detect_undefined_bitmap_returns (fuel : nat) (cl : cid) (s : Heap * gset cid) :
  exists s', detect_undefined_bitmap (S (S fuel)) cl s = Some s'.
Proof.
  destruct s as [h seen].
  change (exists s',
    (if is_trait (h cl) then Some (h, seen)
     else if decide (cl ∈ seen) then Some (h, seen)
     else match for_each (fun _ : cid => detect_undefined_bitmap (S fuel) cl)
                         (drop 1 (base_mro (h cl))) (h, {[cl]} ∪ seen) with
          | None => None
          | Some (h2, seen2) =>
              Some (upd cl (set_bitmap_attrs
                      (trait_bitmap_attrs h2 (h2 cl)
                         (own_bitmap_attrs (h2 cl)
                            (match base_mro (h2 cl) !! 1 with
                             | Some base => bitmap_attrs (h2 cl) ++ bitmap_attrs (h2 base)
                             | None => bitmap_attrs (h2 cl)
                             end)))) h2, seen2)
          end) = Some s').
  destruct (is_trait (h cl)) eqn:Ht; [by eexists |].
  destruct (decide (cl ∈ seen)); [by eexists |].
  destruct (for_each_total (fun _ : cid => detect_undefined_bitmap (S fuel) cl)
              (fun s => s = (h, {[cl]} ∪ seen))
              (drop 1 (base_mro (h cl))) (h, {[cl]} ∪ seen))
    as (s2 & -> & ->); [| done | by eexists].
  intros base s _ ->. exists (h, {[cl]} ∪ seen). split; [| done].
  simpl. rewrite Ht. by rewrite decide_True by set_solver.
Qed.

(** What a call does to the state: only the descriptor of a class that is
    neither a trait nor in [seen] changes, and its new bitmap is
    [bitmap_of]. *)
Lemma detect_undefined_bitmap_frame (fuel : nat) (cl : cid) (s s' : Heap * gset cid) :
  detect_undefined_bitmap fuel cl s = Some s' ->
  s.2 ⊆ s'.2
  ∧ (forall c, c ≠ cl ∨ c ∈ s.2 ∨ is_trait (s.1 c) = true -> s'.1 c = s.1 c)
  ∧ (forall c, bitmap_attrs (s.1 c) `prefix_of` bitmap_attrs (s'.1 c))
  ∧ (forall c, c ∈ s'.2 -> c ∈ s.2 ∨ c = cl)
  ∧ (is_trait (s.1 cl) = false ->
     cl ∈ s'.2 ∧ (cl ∉ s.2 -> bitmap_attrs (s'.1 cl) = bitmap_of s.1 cl)).
Proof.
  destruct s as [h seen]. intros Hrun.
  apply detect_undefined_bitmap_result in Hrun. simpl.
  destruct (is_trait (h cl)) eqn:Ht.
  { subst s'. simpl. repeat split; try done. intros c Hc. by left. }
  destruct (decide (cl ∈ seen)) as [Hin | Hnin].
  { subst s'. simpl. repeat split; try done. intros c Hc. by left. }
  subst s'. simpl. split; [set_solver |]. split; [| split; [| split]].
  - intros c [Hc | [Hc | Hc]]; apply upd_ne; congruence.
  - intros c. unfold upd. case_decide; [subst c |]; [| done].
    simpl. apply bitmap_of_prefix.
  - intros c Hc. set_solver.
  - intros _. split; [set_solver |]. intros _. by rewrite upd_eq.
Qed.

(** The final pass as a whole. *)
Lemma final_pass_loop (fuel : nat) (class_irs : list cid) (s s' : Heap * gset cid) :
  for_each (detect_undefined_bitmap fuel) class_irs s = Some s' ->
  final_pass_step s.1 s'.1
  ∧ s.2 ⊆ s'.2
  ∧ (forall c, c ∉ class_irs ∨ c ∈ s.2 ∨ is_trait (s.1 c) = true -> s'.1 c = s.1 c)
  ∧ (forall c, bitmap_attrs (s.1 c) `prefix_of` bitmap_attrs (s'.1 c))
  ∧ (forall c, c ∈ s'.2 -> c ∈ s.2 ∨ c ∈ class_irs)
  ∧ (forall c, c ∈ class_irs -> is_trait (s.1 c) = false -> c ∈ s'.2).
Proof.
  revert s. induction class_irs as [| cl l IH]; intros s Hrun; simpl in Hrun.
  - simplify_eq. repeat split; try done.
    + intros c Hc. by left.
    + intros c Hc. by apply elem_of_nil in Hc.
  - destruct (detect_undefined_bitmap fuel cl s) as [s1 |] eqn:Hstep; [| done].
    pose proof (detect_undefined_bitmap_step _ _ _ _ Hstep) as Hfs.
    destruct (detect_undefined_bitmap_frame _ _ _ _ Hstep)
      as (Hsub1 & Hkeep1 & Hpre1 & Hseen1 & Hcl1).
    destruct (IH s1 Hrun) as (Hfs2 & Hsub2 & Hkeep2 & Hpre2 & Hseen2 & Hall2).
    assert (Htrait : forall c, is_trait (s1.1 c) = is_trait (s.1 c)).
    { intros c. specialize (Hfs c). apply set_bitmap_attrs_fields in Hfs as (Hd & _).
      by destruct (decl_of_fields _ _ Hd) as (? & _). }
    split; [by eapply final_pass_step_trans |]. split; [set_solver |].
    split; [| split; [| split]].
    + intros c Hc. rewrite Hkeep2.
      * apply Hkeep1. destruct Hc as [Hc | [Hc | Hc]]; [left | by right; left | by right; right].
        intros ->. apply Hc. by left.
      * destruct Hc as [Hc | [Hc | Hc]].
        -- left. intros Hin. apply Hc. by right.
        -- right. left. set_solver.
        -- right. right. by rewrite Htrait.
    + intros c. etrans; [apply Hpre1 | apply Hpre2].
    + intros c Hc. destruct (Hseen2 c Hc) as [Hc1 | Hc1].
      * destruct (Hseen1 c Hc1) as [? | ->]; [by left | right; by left].
      * right. by right.
    + intros c Hc Hnt. apply elem_of_cons in Hc as [-> | Hc].
      * apply Hsub2. by apply Hcl1.
      * apply Hall2; [done |]. by rewrite Htrait.
Qed.

Lemma final_pass_returns (fuel : nat) (class_irs : list cid) (h : Heap) :
  exists h', final_pass (S (S fuel)) class_irs h = Some h'.
Proof.
  unfold final_pass.
  destruct (for_each_total (detect_undefined_bitmap (S (S fuel)))
              (fun _ : Heap * gset cid => True) class_irs (h, ∅))
    as ([h' seen'] & Hrun & _); [| done |].
  { intros cl t _ _. destruct (detect_undefined_bitmap_returns fuel cl t) as [t' E].
    by exists t'. }
  rewrite Hrun. by exists h'.
Qed.

(** X13: the final pass returns for every list of classes (two units of
    fuel suffice, since the recursive calls are made on the class itself,
    which is then in [seen]); it changes no field other than
    [bitmap_attrs], it leaves traits and classes that are not listed as
    they were, and it only appends: the bitmap a class had before is a
    prefix of the bitmap it has afterwards, so slots keep their index. *)
Theorem final_pass_appends (fuel : nat) (class_irs : list cid) (h : Heap) :
  exists h',
    final_pass (S (S fuel)) class_irs h = Some h'
    ∧ (forall c, set_bitmap_attrs [] (h' c) = set_bitmap_attrs [] (h c))
    ∧ (forall c, is_trait (h c) = true -> h' c = h c)
    ∧ (forall c, c ∉ class_irs -> h' c = h c)
    ∧ (forall c, bitmap_attrs (h c) `prefix_of` bitmap_attrs (h' c)).
Proof.
  unfold final_pass.
  destruct (for_each_total (detect_undefined_bitmap (S (S fuel)))
              (fun _ : Heap * gset cid => True) class_irs (h, ∅))
    as ([h' seen'] & Hrun & _); [| done |].
  { intros cl t _ _. destruct (detect_undefined_bitmap_returns fuel cl t) as [t' E].
    by exists t'. }
  rewrite Hrun. exists h'. split; [done |].
  destruct (final_pass_loop _ _ _ _ Hrun) as (Hfs & _ & Hkeep & Hpre & _).
  simpl in Hfs, Hkeep, Hpre.
  split; [done |]. split; [| split; [| done]].
  - intros c Hc. apply Hkeep. by right; right.
  - intros c Hc. apply Hkeep. by left.
Qed.

Lemma needs_bitmap_slot_step (h h' : Heap) (cl : cid) (n : string) :
  final_pass_step h h' -> needs_bitmap_slot h cl n -> needs_bitmap_slot h' cl n.
Proof.
  intros Hfs (Hnot & t & Ht & Hwhere).
  assert (Hfields : forall c, is_trait (h' c) = is_trait (h c) ∧ mro (h' c) = mro (h c)
                              ∧ attributes (h' c) = attributes (h c)
                              ∧ _always_initialized_attrs (h' c)
                                = _always_initialized_attrs (h c)).
  { intros c. specialize (Hfs c). apply set_bitmap_attrs_fields in Hfs as (Hd & Ha & _).
    by destruct (decl_of_fields _ _ Hd) as (? & _ & ? & _ & ? & _). }
  destruct (Hfields cl) as (_ & Hmro & Hattrs & Ha).
  split; [by rewrite Ha |]. exists t. split; [done |]. rewrite Hattrs, Hmro.
  destruct Hwhere as [? | (base & Hb & Hbt & Hbattr)]; [by left | right].
  exists base. destruct (Hfields base) as (-> & _ & -> & _). done.
Qed.

Lemma final_pass_complete_loop (fuel : nat) (class_irs : list cid) (h : Heap)
    (s' : Heap * gset cid) :
  for_each (detect_undefined_bitmap fuel) class_irs (h, ∅) = Some s' ->
  forall c n, c ∈ s'.2 -> needs_bitmap_slot h c n -> n ∈ bitmap_attrs (s'.1 c).
Proof.
  intros Hrun.
  apply (for_each_inv _
           (fun s : Heap * gset cid =>
              final_pass_step h s.1
              ∧ forall c n, c ∈ s.2 -> needs_bitmap_slot h c n -> n ∈ bitmap_attrs (s.1 c)))
    in Hrun; [by destruct Hrun | | split; [done | set_solver]].
  intros cl [h1 seen1] s2 _ [Hfs Hinv] Hstep. simpl in Hfs, Hinv.
  pose proof (detect_undefined_bitmap_step _ _ _ _ Hstep) as Hfs2. simpl in Hfs2.
  split; [by eapply final_pass_step_trans |].
  apply detect_undefined_bitmap_result in Hstep.
  destruct (is_trait (h1 cl)); [by subst s2 |].
  destruct (decide (cl ∈ seen1)) as [Hin | Hnin]; [by subst s2 |].
  subst s2. simpl. intros c n Hc Hneed.
  destruct (decide (c = cl)) as [-> | Hne].
  - rewrite upd_eq. simpl. apply bitmap_of_complete.
    by apply (needs_bitmap_slot_step h).
  - rewrite upd_ne by done. apply Hinv; [set_solver | done].
Qed.

(** X14: every attribute that needs a slot gets one.  After the final
    pass the bitmap of a listed class that is not a trait holds every
    attribute that the class, or a trait of its MRO, declares with a type
    whose error value overlaps a real value and that is not always defined
    in the class. *)
Theorem final_pass_complete (fuel : nat) (class_irs : list cid) (h : Heap)
    (cl : cid) (n : string) :
  cl ∈ class_irs ->
  is_trait (h cl) = false ->
  needs_bitmap_slot h cl n ->
  exists h',
    final_pass (S (S fuel)) class_irs h = Some h'
    ∧ n ∈ bitmap_attrs (h' cl).
Proof.
  intros Hcl Hnt Hneed.
  destruct (final_pass_returns fuel class_irs h) as (h' & Hrun).
  exists h'. split; [done |].
  unfold final_pass in Hrun.
  destruct (for_each _ _ _) as [[h1 seen1] |] eqn:Hloop; [| done].
  simpl in Hrun. simplify_eq.
  apply (final_pass_complete_loop _ _ _ _ Hloop cl n); [| done].
  destruct (final_pass_loop _ _ _ _ Hloop) as (_ & _ & _ & _ & _ & Hall).
  by apply Hall.
Qed.

Lemma final_pass_complete_witness :
  exists h',
    final_pass 2 [0; 1] Examples.trait_heap = Some h'
    ∧ "t"%string ∈ bitmap_attrs (h' 0).
Proof.
  apply (final_pass_complete 0 [0; 1] Examples.trait_heap 0 "t").
  - by_eval.
  - reflexivity.
  - split; [simpl; set_solver |]. exists Examples.i64_t. split; [reflexivity |].
    right. exists 1. simpl. split; [by_eval |]. split; [reflexivity | constructor].
Defined.

(** X15: when the first base of a class is listed before the class, the
    bitmap of the base is a prefix of the bitmap of the class, so the slots
    of the base keep their index in the derived class.  The class is not a
    trait and starts the pass with an empty bitmap; [base] is the class at
    index 1 of its [base_mro]. *)
Theorem final_pass_base_listed_first (fuel : nat) (l1 l2 : list cid) (h : Heap)
    (cl base : cid) :
  base ∈ l1 -> cl ∉ l1 -> cl ∈ l2 ->
  is_trait (h cl) = false ->
  bitmap_attrs (h cl) = [] ->
  base_mro (h cl) !! 1 = Some base ->
  exists h',
    final_pass (S (S fuel)) (l1 ++ l2) h = Some h'
    ∧ bitmap_attrs (h' base) `prefix_of` bitmap_attrs (h' cl).
Proof.
  intros Hbase Hcl1 Hcl2 Hnt Hempty Hmro.
  destruct (final_pass_returns fuel (l1 ++ l2) h) as (h' & Hrun).
  exists h'. split; [done |].
  unfold final_pass in Hrun.
  destruct (for_each _ _ _) as [[h3 seen3] |] eqn:Hloop; [| done].
  simpl in Hrun. simplify_eq.
  remember (detect_undefined_bitmap (S (S fuel))) as detect eqn:Hdetect.
  rewrite for_each_app in Hloop.
  destruct (for_each _ l1 _) as [[h1 seen1] |] eqn:Hloop1; [| done].
  simpl in Hloop. subst detect.
  destruct (final_pass_loop _ _ _ _ Hloop1) as (Hfs1 & _ & Hkeep1 & _ & Hseen1 & Hall1).
  simpl in Hfs1, Hkeep1, Hseen1, Hall1.
  assert (Hcl : h1 cl = h cl) by (apply Hkeep1; by left).
  assert (Hclseen : cl ∉ seen1).
  { intros Hin. destruct (Hseen1 cl Hin) as [? | ?]; [set_solver | done]. }
  assert (Hfields : forall g c, final_pass_step h g -> is_trait (g c) = is_trait (h c)).
  { intros g c Hg. specialize (Hg c). apply set_bitmap_attrs_fields in Hg as (Hd & _).
    by destruct (decl_of_fields _ _ Hd) as (? & _). }
  assert (Hbase1 : base ∈ seen1 ∨ is_trait (h base) = true).
  { destruct (is_trait (h base)) eqn:Hbt; [by right | left]. by apply Hall1. }
  assert (Hinv : final_pass_step h h'
                 ∧ seen1 ⊆ seen3 ∧ h' base = h1 base
                 ∧ (cl ∉ seen3 -> h' cl = h1 cl)
                 ∧ (cl ∈ seen3 ->
                    bitmap_attrs (h1 base) `prefix_of` bitmap_attrs (h' cl))).
  { apply (for_each_inv _
             (fun s : Heap * gset cid =>
                final_pass_step h s.1
                ∧ seen1 ⊆ s.2 ∧ s.1 base = h1 base
                ∧ (cl ∉ s.2 -> s.1 cl = h1 cl)
                ∧ (cl ∈ s.2 ->
                   bitmap_attrs (h1 base) `prefix_of` bitmap_attrs (s.1 cl))))
      in Hloop; [exact Hloop | | done].
    intros x [g seen] s2 _ (Hg & Hsub & Hgb & Hgcl & Hpre) Hstep.
    simpl in Hg, Hsub, Hgb, Hgcl, Hpre.
    pose proof (detect_undefined_bitmap_step _ _ _ _ Hstep) as Hg2. simpl in Hg2.
    split; [by eapply final_pass_step_trans |].
    apply detect_undefined_bitmap_result in Hstep.
    destruct (is_trait (g x)) eqn:Hxt; [by subst s2 |].
    destruct (decide (x ∈ seen)) as [Hin | Hnin]; [by subst s2 |].
    subst s2. simpl.
    assert (Hxb : x ≠ base).
    { intros ->. destruct Hbase1 as [? | Hbt]; [set_solver |].
      rewrite (Hfields g base Hg) in Hxt. congruence. }
    split; [set_solver |]. split; [by rewrite upd_ne |].
    destruct (decide (x = cl)) as [-> | Hne].
    - split; [set_solver |]. intros _. rewrite upd_eq. simpl.
      specialize (Hgcl Hnin).
      etrans; [| apply (bitmap_of_base g cl base)].
      + rewrite Hgcl, Hcl, Hempty, Hgb. done.
      + by rewrite Hgcl, Hcl.
    - rewrite upd_ne by done. split.
      + intros Hc. apply Hgcl. set_solver.
      + intros Hc. apply Hpre. set_solver. }
  destruct Hinv as (_ & _ & Hb3 & _ & Hpre3).
  rewrite Hb3. apply Hpre3.
  destruct (final_pass_loop _ _ _ _ Hloop) as (_ & _ & _ & _ & _ & Hall3).
  apply Hall3; [done |]. simpl. by rewrite (Hfields h1 cl Hfs1).
Qed.

Lemma final_pass_base_listed_first_witness :
  exists h',
    final_pass 2 ([1] ++ [0]) Examples.bitmap_heap = Some h'
    ∧ bitmap_attrs (h' 1) `prefix_of` bitmap_attrs (h' 0).
Proof.
  apply (final_pass_base_listed_first 0 [1] [0] Examples.bitmap_heap 0 1).
  - by_eval.
  - by_eval.
  - by_eval.
  - reflexivity.
  - reflexivity.
  - reflexivity.
Defined.

Lemma attributes_upd_bitmap (cl d : cid) (bm : list string) (h : Heap) :
  attributes (upd cl (set_bitmap_attrs bm) h d) = attributes (h d).
Proof. unfold upd. case_decide; [subst d |]; done. Qed.

(** X16: the bitmap only ever names attributes that some class declares
    with a type whose error value overlaps a real value: when this holds
    of every bitmap before the final pass (for instance because all
    bitmaps are empty), it holds of every bitmap after it. *)
Theorem final_pass_slots_declared (fuel : nat) (class_irs : list cid) (h : Heap) :
  (forall c, bitmap_slots_declared h c) ->
  exists h',
    final_pass (S (S fuel)) class_irs h = Some h'
    ∧ forall c, bitmap_slots_declared h' c.
Proof.
  intros Hstart.
  destruct (final_pass_returns fuel class_irs h) as (h' & Hrun).
  exists h'. split; [done |].
  unfold final_pass in Hrun.
  destruct (for_each _ _ _) as [[h1 seen1] |] eqn:Hloop; [| done].
  simpl in Hrun. simplify_eq.
  refine (for_each_inv _
            (fun s : Heap * gset cid => forall c, bitmap_slots_declared s.1 c)
            class_irs (h, ∅) (h', seen1) _ Hstart Hloop).
  intros cl [g seen] s2 _ Hg Hstep. simpl in Hg.
  apply detect_undefined_bitmap_result in Hstep.
  destruct (is_trait (g cl)); [by subst s2 |].
  destruct (decide (cl ∈ seen)) as [Hin | Hnin]; [by subst s2 |].
  subst s2. simpl. intros c n Hn.
  assert (Hdecl : exists d t, (n, t) ∈ attributes (g d) ∧ error_overlap t = true).
  { destruct (decide (c = cl)) as [-> | Hne].
    - rewrite upd_eq in Hn. simpl in Hn.
      apply bitmap_of_declared in Hn as [Hn | [(base & _ & Hn) | Hn]];
        [by apply (Hg cl) | by apply (Hg base) | done].
    - rewrite upd_ne in Hn by done. by apply (Hg c). }
  destruct Hdecl as (d & t & Hd & Ht). exists d, t.
  by rewrite attributes_upd_bitmap.
Qed.

Lemma final_pass_slots_declared_witness :
  exists h',
    final_pass 2 [0; 1] Examples.bitmap_heap = Some h'
    ∧ forall c, bitmap_slots_declared h' c.
Proof.
  apply (final_pass_slots_declared 0 [0; 1] Examples.bitmap_heap).
  intros c n Hn. destruct c as [| [| c]]; simpl in Hn; by apply elem_of_nil in Hn.
Defined.

(** ** Termination *)

(** X17: the analysis terminates on well-formed input.  When the MROs and
    the [children] lists are acyclic (a rank decreases from a class to its
    bases, another from a class to its children), every constructor has a
    receiver register, and the fuel exceeds the ranks of the listed
    classes, the analysis returns a result. *)
Theorem analysis_terminates (CFG : Type) (get_cfg : list BasicBlock -> CFG)
    (run_analysis : list BasicBlock -> CFG -> BaseAnalysisVisitor -> gset string ->
                    bool -> AnalysisKind -> AnalysisResult string)
    (analyze_self_leaks : list BasicBlock -> Register -> CFG -> AnalysisResult unit)
    (base_rank child_rank : cid -> nat) (fuel : nat) (class_irs : list cid) (st : State) :
  acyclic_bases (classes st) base_rank ->
  acyclic_children (classes st) child_rank ->
  constructors_have_self (classes st) ->
  (forall cl, cl ∈ class_irs -> base_rank cl < S (S fuel) ∧ child_rank cl < S (S fuel)) ->
  exists st',
    analyze_always_defined_attrs CFG get_cfg run_analysis analyze_self_leaks
                                 (S (S fuel)) class_irs st = Some st'.
Proof.
  intros Hbases Hchildren Hself Hfuel.
  destruct (analyze_always_defined_attrs_total CFG get_cfg run_analysis analyze_self_leaks
              (classes st) base_rank child_rank Hbases Hchildren Hself
              fuel class_irs st eq_refl Hfuel) as [st' Hrun].
  by exists st'.
Qed.

Lemma analysis_terminates_witness :
  exists st',
    Model.analyze_always_defined_attrs 2 [0] (Examples.start Examples.branch_heap)
      = Some st'.
Proof.
  apply (analysis_terminates Model.CFG Model.get_cfg Model.run_analysis
           Model.analyze_self_leaks (fun _ => 0) (fun _ => 0) 0 [0]
           (Examples.start Examples.branch_heap)).
  - intros c b Hb. destruct c as [| c]; simpl in Hb; by apply elem_of_nil in Hb.
  - intros c chs d Hc Hd. destruct c as [| c]; simpl in Hc; injection Hc as <-;
      by apply elem_of_nil in Hd.
  - intros c m Hm. destruct c as [| c]; simpl in Hm; [| done].
    injection Hm as <-. done.
  - intros cl _. lia.
Defined.

(** ** Attributes with a class-body default *)

(** A class without children keeps its always-defined attributes in the
    second pass. *)
Lemma set_always_same (c : ClassIR) : set_always (_always_initialized_attrs c) c = c.
Proof. by destruct c. Qed.

Lemma update_using_subclasses_childless (fuel : nat) (cl : cid) (s s' : Heap * gset cid) :
  update_always_defined_attrs_using_subclasses fuel cl s = Some s' ->
  forall c, children (s.1 c) = Some [] -> s'.1 c = s.1 c.
Proof.
  revert cl s s'. induction fuel as [| fuel IH]; intros cl [h seen] s' Hrun; [done |].
  simpl in Hrun. destruct (decide (cl ∈ seen)).
  { by simplify_eq. }
  destruct (children (h cl)) as [chs |] eqn:Hch.
  2:{ by simplify_eq. }
  destruct (for_each _ _ _) as [[[h2 seen2] removed] |] eqn:Hloop; [| done].
  simplify_eq. simpl.
  assert (Hinv : (forall c, children (h c) = Some [] -> h2 c = h c)
                 ∧ (chs = [] -> removed = ∅)).
  { refine (for_each_inv _
              (fun t : Heap * gset cid * gset string =>
                 (forall c, children (h c) = Some [] -> t.1.1 c = h c)
                 ∧ (chs = [] -> t.2 = ∅))
              _ (h, seen, ∅) (h2, seen2, removed) _ _ Hloop); [| done].
    intros attr t t' _ Ht Hattr.
    refine (for_each_inv _
              (fun t : Heap * gset cid * gset string =>
                 (forall c, children (h c) = Some [] -> t.1.1 c = h c)
                 ∧ (chs = [] -> t.2 = ∅))
              _ t t' _ Ht Hattr).
    intros child [[h1 seen1] rem1] u' Hchild [Hu Hrem] Hstep. simpl in Hu, Hrem.
    unfold update_children in Hstep.
    destruct (update_always_defined_attrs_using_subclasses fuel child (h1, seen1))
      as [[h3 seen3] |] eqn:E; [| done].
    pose proof (IH _ _ _ E) as E'. simpl in E'.
    assert (Hkeep : forall c, children (h c) = Some [] -> h3 c = h c).
    { intros c Hc. rewrite E'; [by apply Hu |]. by rewrite Hu. }
    split.
    - case_match; simplify_eq; done.
    - intros ->. by apply elem_of_nil in Hchild. }
  destruct Hinv as [Hkeep Hrem].
  intros c Hc. destruct (decide (c = cl)) as [-> | Hne].
  - rewrite upd_eq. rewrite Hrem by congruence.
    rewrite difference_empty_L, set_always_same. by apply Hkeep.
  - rewrite upd_ne by done. by apply Hkeep.
Qed.

Lemma second_pass_childless (fuel : nat) (class_irs : list cid) (h h' : Heap) (c : cid) :
  second_pass fuel class_irs h = Some h' -> children (h c) = Some [] -> h' c = h c.
Proof.
  unfold second_pass. intros Hrun.
  destruct (for_each _ _ _) as [[h1 seen1] |] eqn:Hloop; [| done].
  simpl in Hrun. simplify_eq. revert c.
  refine (for_each_inv _
            (fun s : Heap * gset cid => forall c, children (h c) = Some [] -> s.1 c = h c)
            class_irs (h, ∅) (h', seen1) _ _ Hloop); [| done].
  intros cl s s' _ Hs Hstep c Hc.
  rewrite (update_using_subclasses_childless _ _ _ _ Hstep); [by apply Hs |].
  by rewrite Hs.
Qed.

(** The walk of [find_always_defined_attributes] keeps an attribute that
    is nowhere maybe undefined and that is maybe defined wherever the walk
    freezes. *)
Section Keep.
Variable self_reg : Register.
Variable maybe_defined maybe_undefined : AnalysisResult string.
Variable dirty : AnalysisResult unit.
Variable a : string.
Hypothesis Hnever : forall b i, a ∉ before maybe_undefined b i.
Hypothesis Hnever' : forall b i, a ∉ after maybe_undefined b i.
Hypothesis Hedge : forall t, before dirty t 0 ≠ ∅ -> a ∈ after maybe_defined t 0.

Lemma always_checks_keep (b : Label) (i : nat) (op : Op) (A : gset string) :
  a ∈ A -> a ∈ always_checks self_reg maybe_defined maybe_undefined b i op A.
Proof.
  intros Ha. unfold always_checks. specialize (Hnever b i).
  destruct op; try done.
  - case_match eqn:E; [| done]. apply andb_true_iff in E as [_ E].
    apply bool_decide_eq_true in E. set_solver.
  - case_match eqn:E; [| done]. apply andb_true_iff in E as [_ E].
    apply andb_true_iff in E as [E _]. apply bool_decide_eq_true in E. set_solver.
Qed.

Lemma always_targets_keep (b : Label) (i : nat) (ts : list Label) (A : gset string) :
  a ∈ A -> a ∈ always_targets maybe_defined maybe_undefined dirty b i ts A.
Proof.
  unfold always_targets. revert A.
  induction ts as [| t ts IH]; intros A Ha; simpl; [done |].
  apply IH. case_match eqn:E; [| done].
  apply andb_true_iff in E as [_ E]. apply nonempty_true in E.
  specialize (Hedge t E). specialize (Hnever' t 0). set_solver.
Qed.

Lemma always_ops_keep (b : Label) (l : list Op) (i : nat) (A : gset string) :
  (forall k, k < length l -> a ∈ after maybe_defined b (i + k)) ->
  a ∈ A -> a ∈ always_ops self_reg maybe_defined maybe_undefined dirty b i l A.
Proof.
  revert i A. induction l as [| op l IH]; intros i A Hd Ha; simpl; [done |].
  pose proof (always_checks_keep b i op A Ha) as Hc.
  destruct (nonempty (after dirty b i)).
  - destruct (negb (nonempty (before dirty b i))); [| done].
    specialize (Hd 0 ltac:(simpl; lia)). rewrite Nat.add_0_r in Hd.
    specialize (Hnever' b i). set_solver.
  - apply IH.
    + intros k Hk. rewrite Nat.add_succ_comm. apply Hd. simpl. lia.
    + destruct (is_control_op op); [by apply always_targets_keep | done].
Qed.

Lemma always_blocks_keep (bs : list BasicBlock) (b0 : Label) (A : gset string) :
  (forall j block k, bs !! j = Some block -> k < length (ops block) ->
                     a ∈ after maybe_defined (b0 + j) k) ->
  a ∈ A -> a ∈ always_blocks self_reg maybe_defined maybe_undefined dirty b0 bs A.
Proof.
  revert b0 A. induction bs as [| block bs IH]; intros b0 A Hd Ha; simpl; [done |].
  apply IH.
  - intros j bl k Hj Hk. rewrite Nat.add_succ_comm. by apply (Hd (S j) bl k).
  - apply always_ops_keep; [| done]. intros k Hk.
    specialize (Hd 0 block k eq_refl Hk). by rewrite Nat.add_0_r in Hd.
Qed.
End Keep.

(** The sets computed by the modelled engine stay within [universe]. *)
Section Bounded.
Context {T : Type} `{Countable T}.
Variable gen_and_kill : Op -> gset T * gset T.
Variable blocks : list BasicBlock.
Variable cfg : Model.CFG.
Variable initial : gset T.

Abbreviation b_universe := (Model.universe gen_and_kill blocks initial).

Lemma iterate_bounded (fuel : nat) (out : list (gset T)) :
  Forall (fun X => X ⊆ b_universe) out ->
  Forall (fun X => X ⊆ b_universe) (Model.iterate gen_and_kill blocks cfg initial fuel out).
Proof.
  revert out. induction fuel as [| fuel IH]; intros out Hb; simpl; [done |].
  case_decide; [done |]. apply IH. by apply round_bounded.
Qed.

Lemma solve_bounded (b : Label) (i : nat) :
  before (Model.solve gen_and_kill blocks cfg initial) b i ⊆ b_universe
  ∧ after (Model.solve gen_and_kill blocks cfg initial) b i ⊆ b_universe.
Proof.
  assert (Hout : Forall (fun X => X ⊆ b_universe)
                        (Model.block_out gen_and_kill blocks cfg initial)).
  { unfold Model.block_out. apply iterate_bounded. apply Forall_replicate. set_solver. }
  assert (Htake : forall n, Model.block_transfer gen_and_kill
                    (take n (default [] (ops <$> blocks !! b)))
                    (Model.block_before cfg initial
                       (Model.block_out gen_and_kill blocks cfg initial) b)
                  ⊆ b_universe).
  { intros n. apply block_transfer_bounded; [| by apply block_before_bounded].
    intros op Hop.
    destruct (blocks !! b) as [block |] eqn:Hb; simpl in Hop.
    - apply (gen_in_universe gen_and_kill blocks initial block op).
      + by eapply list_elem_of_lookup_2.
      + rewrite <- (take_drop n (ops block)). apply elem_of_app. by left.
    - rewrite take_nil in Hop. by apply elem_of_nil in Hop. }
  split; apply Htake.
Qed.
End Bounded.

Lemma maybe_undefined_universe (h : Heap) (self_reg : Register)
    (blocks : list BasicBlock) (initial : gset string) :
  Model.universe (accept (AttributeMaybeUndefinedVisitor h self_reg)) blocks initial
    ⊆ initial.
Proof.
  unfold Model.universe. intros x [Hx | Hx]%elem_of_union; [done |].
  apply elem_of_union_list in Hx as (X & HX & Hx).
  apply list_elem_of_fmap in HX as (block & -> & _).
  apply elem_of_union_list in Hx as (Y & HY & Hx).
  apply list_elem_of_fmap in HY as (op & -> & _).
  destruct (visitors_dual_on_op h self_reg op) as (_ & Hgen & _).
  rewrite Hgen in Hx. by apply not_elem_of_empty in Hx.
Qed.

(** The modelled escape oracle reports nothing outside the block list. *)
Lemma model_dirty_in_range (blocks : list BasicBlock) (self_reg : Register) (t : Label) :
  before (Model.analyze_self_leaks blocks self_reg (Model.get_cfg blocks)) t 0 ≠ ∅ ->
  t < length blocks.
Proof.
  intros Hne. destruct (decide (t < length blocks)) as [| Hge]; [done |].
  exfalso. apply Hne. unfold Model.analyze_self_leaks, Model.solve. cbn [before].
  rewrite take_0. unfold Model.block_transfer. simpl.
  unfold Model.block_before, Model.get_cfg. cbn [Model.pred].
  rewrite (lookup_ge_None_2 _ t).
  2:{ rewrite length_fmap, length_seq. lia. }
  simpl. case_decide; set_solver.
Qed.

(** X18: a class-body default makes an attribute always defined.  With the
    modelled engine and oracle, in a listed class without subclasses that
    the guard does not exclude and whose constructor has no dead blocks
    (every block is reachable from the entry), an attribute that has a
    class-body default, is declared in the MRO and is not deletable is in
    [_always_initialized_attrs] after the analysis, whatever the
    constructor does. *)
Theorem default_always_defined (fuel : nat) (class_irs : list cid) (st st' : State)
    (cl : cid) (m : FuncIR) (a : string) :
  Model.analyze_always_defined_attrs fuel class_irs st = Some st' ->
  cl ∈ class_irs ->
  gives_up (classes st cl) = false ->
  init_method (classes st cl) = Some m ->
  children (classes st cl) = Some [] ->
  (forall b block, blocks m !! b = Some block -> reachable (blocks m) b) ->
  a ∈ attrs_with_defaults (classes st cl) ->
  a ∈ all_attrs_of (classes st) (classes st cl) ->
  is_deletable (classes st cl) a = false ->
  a ∈ _always_initialized_attrs (classes st' cl).
Proof.
  intros Hrun Hcl Hg Hm Hch Hreach Hdef Hdecl Hdel.
  destruct (analysis_spec _ _ _ _ _ _ _ _ Hrun)
    as (st1 & h2 & H1 & H2 & _ & Hd1 & _ & Hlater).
  destruct (first_pass_detail_spec _ _ _ _ _ _ _ _ H1)
    as (seen1 & _ & (_ & _ & Hnew & _) & Hseen).
  destruct (Hnew cl m (Hseen cl Hcl) ltac:(set_solver) Hg Hm)
    as (h & self_reg & rest & Hargs & Hdh & Hres & _).
  simpl in Hdh, Hres.
  destruct (decl_of_fields _ _ (Hd1 cl)) as (_ & Hch1 & _ & _ & _ & Hdef1 & Hdel1 & _).
  destruct (Hlater cl) as (_ & -> & _).
  rewrite (second_pass_childless _ _ _ _ cl H2) by (by rewrite Hch1).
  rewrite Hres. apply elem_of_filter. split.
  { unfold is_deletable in Hdel |- *. rewrite Hdel1, Hdel. done. }
  set (md := analyze_maybe_defined_attrs_in_init Model.CFG Model.run_analysis h
               (blocks m) self_reg (attrs_with_defaults (classes st1 cl))
               (Model.get_cfg (blocks m))).
  set (mu := analyze_maybe_undefined_attrs_in_init Model.CFG Model.run_analysis h
               (blocks m) self_reg
               (all_attrs_of h (classes st1 cl) ∖ attrs_with_defaults (classes st1 cl))
               (Model.get_cfg (blocks m))).
  assert (Hsol : forward_solution (blocks m) (accept (AttributeMaybeDefinedVisitor h self_reg))
                   (attrs_with_defaults (classes st1 cl)) md)
    by apply model_run_analysis_solution.
  assert (Hmu : forall b i, (a ∉ before mu b i) ∧ (a ∉ after mu b i)).
  { intros b i.
    destruct (solve_bounded (accept (AttributeMaybeUndefinedVisitor h self_reg))
                (blocks m) (Model.get_cfg (blocks m))
                (all_attrs_of h (classes st1 cl) ∖ attrs_with_defaults (classes st1 cl))
                b i) as [Hb Ha].
    pose proof (maybe_undefined_universe h self_reg (blocks m)
                  (all_attrs_of h (classes st1 cl) ∖ attrs_with_defaults (classes st1 cl)))
      as Hu.
    rewrite <- Hdef1 in Hdef.
    split; intros Hin; [apply Hb in Hin | apply Ha in Hin]; apply Hu in Hin; set_solver. }
  assert (Hentry : forall b block, (blocks m) !! b = Some block ->
                     attrs_with_defaults (classes st1 cl) ⊆ before md b 0).
  { intros b block Hb.
    apply (forward_solution_reachable _ _ _ _ Hsol (maybe_defined_kill_empty h self_reg)
             b block); [by eapply Hreach | done]. }
  assert (Hmd : forall b block k, (blocks m) !! b = Some block -> k < length (ops block) ->
                  a ∈ after md b k).
  { intros b block k Hb Hk.
    destruct (forward_solution_block _ _ _ _ Hsol (maybe_defined_kill_empty h self_reg)
                b block (attrs_with_defaults (classes st1 cl)) k Hb (Hentry b block Hb) Hk)
      as [_ Hafter].
    apply Hafter. by rewrite Hdef1. }
  unfold find_always_defined_attributes. apply always_blocks_keep.
  - intros b i. apply Hmu.
  - intros b i. apply Hmu.
  - intros t Ht. apply model_dirty_in_range in Ht.
    destruct (lookup_lt_is_Some_2 (blocks m) t Ht) as [block Hb].
    destruct (decide (0 < length (ops block))) as [Hlen | Hlen]; [by eapply Hmd |].
    assert (Hops : ops block = []) by (destruct (ops block); [done | simpl in Hlen; lia]).
    pose proof (Hentry t block Hb a ltac:(by rewrite Hdef1)) as Hbefore.
    unfold md, analyze_maybe_defined_attrs_in_init, Model.run_analysis, Model.solve
      in Hbefore |- *.
    cbn [before after] in Hbefore |- *. unfold Label in *.
    rewrite Hb in Hbefore |- *. simpl in Hbefore |- *.
    rewrite Hops. exact Hbefore.
  - intros j block k Hj Hk. simpl. by eapply Hmd.
  - rewrite (all_attrs_of_decl h (classes st) (classes st1 cl) (classes st cl) Hdh (Hd1 cl)).
    done.
Qed.

Lemma default_always_defined_witness :
  "a"%string ∈ _always_initialized_attrs
                 (classes (Examples.run [0] Examples.default_write_heap) 0).
Proof.
  apply (default_always_defined 3 [0] (Examples.start Examples.default_write_heap)
           (Examples.run [0] Examples.default_write_heap) 0
           Examples.default_write_init "a").
  - apply Some_default. by_eval.
  - by_eval.
  - reflexivity.
  - reflexivity.
  - reflexivity.
  - intros b block Hb. destruct b as [| [| b]]; simpl in Hb.
    + apply reachable_entry.
    + exact default_write_reachable.
    + by rewrite lookup_nil in Hb.
  - by_eval.
  - by_eval.
  - reflexivity.
Defined.

(** ** The first write to an attribute in the entry block *)

Lemma mark_ops_intro (self_reg : Register) (maybe_defined : AnalysisResult string)
    (dirty : AnalysisResult unit) (b : Label) (l : list Op) (i0 k : nat)
    (attr : string) (src : Value) :
  l !! k = Some (SetAttr self_reg attr src) ->
  attr ∉ before maybe_defined b (i0 + k) ->
  after dirty b (i0 + k) = ∅ ->
  (b, i0 + k) ∈ mark_ops self_reg maybe_defined dirty b i0 l.
Proof.
  revert i0 k. induction l as [| op l IH]; intros i0 k Hk Hnot Hclean; [done |].
  simpl. apply elem_of_app. destruct k as [| k]; simpl in Hk.
  - left. simplify_eq. rewrite Nat.add_0_r in Hnot, Hclean |- *.
    rewrite bool_decide_eq_true_2 by done.
    rewrite bool_decide_eq_false_2 by done.
    rewrite (proj2 (nonempty_false _) Hclean). simpl. by left.
  - right. rewrite <- Nat.add_succ_comm in Hnot, Hclean |- *. by apply IH.
Qed.

Lemma mark_blocks_intro (self_reg : Register) (maybe_defined : AnalysisResult string)
    (dirty : AnalysisResult unit) (bs : list BasicBlock) (b0 j : nat)
    (block : BasicBlock) (i : nat) (attr : string) (src : Value) :
  bs !! j = Some block ->
  ops block !! i = Some (SetAttr self_reg attr src) ->
  attr ∉ before maybe_defined (b0 + j) i ->
  after dirty (b0 + j) i = ∅ ->
  (b0 + j, i) ∈ mark_blocks self_reg maybe_defined dirty b0 bs.
Proof.
  revert b0 j. induction bs as [| block' bs IH]; intros b0 j Hj Hi Hnot Hclean; [done |].
  simpl. apply elem_of_app. destruct j as [| j]; simpl in Hj.
  - left. simplify_eq. rewrite Nat.add_0_r in Hnot, Hclean |- *.
    by apply (mark_ops_intro self_reg maybe_defined dirty b0 (ops block) 0 i attr src).
  - right. rewrite <- Nat.add_succ_comm in Hnot, Hclean |- *. by apply IH.
Qed.

(** Facts about the modelled engine. *)
Section EngineFacts.
Context {T : Type} `{Countable T}.
Variable gen_and_kill : Op -> gset T * gset T.
Variable blocks : list BasicBlock.
Variable initial : gset T.

Abbreviation e_cfg := (Model.get_cfg blocks).
Abbreviation e_out := (Model.block_out gen_and_kill blocks e_cfg initial).
Abbreviation e_solve := (Model.solve gen_and_kill blocks e_cfg initial).

(** When no block jumps to the entry block, the set at its entry is the
    initial value. *)
Lemma model_entry_before (out : list (gset T)) :
  (forall b block op, blocks !! b = Some block -> last (ops block) = Some op ->
                      0 ∉ targets op) ->
  Model.block_before e_cfg initial out 0 = initial.
Proof.
  intros Hnopred. unfold Model.block_before. rewrite decide_True by done.
  apply set_eq. intros x. rewrite elem_of_union. split; [| by left].
  intros [Hx | Hx]; [done |]. exfalso.
  apply elem_of_union_list in Hx as (X & HX & Hx).
  apply list_elem_of_fmap in HX as (p & -> & Hp).
  unfold Model.get_cfg in Hp. cbn [Model.pred] in Hp. unfold Label in *.
  destruct (decide (0 < length blocks)) as [Hlen | Hlen].
  2:{ rewrite lookup_ge_None_2 in Hp by (rewrite length_fmap, length_seq; lia).
      by apply elem_of_nil in Hp. }
  rewrite list_lookup_fmap, (lookup_seq_lt 0 _ 0 Hlen) in Hp. simpl in Hp.
  apply list_elem_of_filter in Hp as [Hp Hin].
  rewrite list_lookup_fmap in Hp.
  destruct (blocks !! p) as [block |] eqn:Hb; simpl in Hp; [| by apply elem_of_nil in Hp].
  unfold Model.terminator_targets in Hp.
  destruct (last (ops block)) as [op |] eqn:Hlast; [| by apply elem_of_nil in Hp].
  by apply (Hnopred p block op Hb Hlast).
Qed.

(** An element that no op generates does not appear by itself. *)
Lemma block_transfer_absent (l : list Op) (X : gset T) (x : T) :
  (forall op, op ∈ l -> x ∉ fst (gen_and_kill op)) ->
  x ∉ X -> x ∉ Model.block_transfer gen_and_kill l X.
Proof.
  unfold Model.block_transfer. revert X.
  induction l as [| op l IH]; intros X Hgen HX; simpl; [done |].
  apply IH.
  - intros op' Hop'. apply Hgen. by right.
  - unfold Model.transfer. specialize (Hgen op ltac:(by left)). set_solver.
Qed.

(** An element that some op kills and no op generates is gone at the end. *)
Lemma block_transfer_killed (l : list Op) (X : gset T) (x : T) (op : Op) :
  (forall op, op ∈ l -> x ∉ fst (gen_and_kill op)) ->
  op ∈ l -> x ∈ snd (gen_and_kill op) ->
  x ∉ Model.block_transfer gen_and_kill l X.
Proof.
  unfold Model.block_transfer. revert X.
  induction l as [| op' l IH]; intros X Hgen Hop Hkill; simpl.
  - by apply elem_of_nil in Hop.
  - apply elem_of_cons in Hop as [<- | Hop].
    + apply (block_transfer_absent l); [intros op' Hop'; apply Hgen; by right |].
      unfold Model.transfer. specialize (Hgen op ltac:(by left)). set_solver.
    + apply IH; [| done | done]. intros op'' Hop''. apply Hgen. by right.
Qed.

(** An element that nothing generates, that is killed in the entry block
    and that is absent from the sets at the exits of all blocks stays
    absent through a round. *)
Lemma round_absent (out : list (gset T)) (x : T) (block0 : BasicBlock) (op : Op) :
  (forall op, x ∉ fst (gen_and_kill op)) ->
  blocks !! 0 = Some block0 -> op ∈ ops block0 -> x ∈ snd (gen_and_kill op) ->
  Forall (fun X => x ∉ X) out ->
  Forall (fun X => x ∉ X) (Model.round gen_and_kill blocks e_cfg initial out).
Proof.
  intros Hgen H0 Hop Hkill Hout. apply Forall_lookup. intros b X. unfold Model.round.
  rewrite list_lookup_imap.
  destruct (blocks !! b) as [block |] eqn:Hb; simpl; [| done].
  intros [= <-]. destruct (decide (b = 0)) as [-> | Hne].
  - unfold Label in *. simplify_eq.
    by apply (block_transfer_killed (ops block0) _ x op).
  - apply block_transfer_absent; [done |].
    unfold Model.block_before. rewrite decide_False by done.
    intros [Hx | Hx]%elem_of_union; [by apply not_elem_of_empty in Hx |].
    apply elem_of_union_list in Hx as (Y & HY & Hx).
    apply list_elem_of_fmap in HY as (p & -> & Hp).
    destruct (out !! p) as [Xp |] eqn:E; simpl in Hx; [| by apply not_elem_of_empty in Hx].
    by apply (Forall_lookup_1 _ _ _ _ Hout E).
Qed.

Lemma block_out_absent (x : T) (block0 : BasicBlock) (op : Op) :
  (forall op, x ∉ fst (gen_and_kill op)) ->
  blocks !! 0 = Some block0 -> op ∈ ops block0 -> x ∈ snd (gen_and_kill op) ->
  Forall (fun X => x ∉ X) e_out.
Proof.
  intros Hgen H0 Hop Hkill. unfold Model.block_out.
  generalize (replicate (length blocks) (∅ : gset T)) (Model.rounds gen_and_kill blocks initial)
             (Forall_replicate (fun X : gset T => x ∉ X) (length blocks) ∅
                               (not_elem_of_empty x)).
  intros out fuel. revert out. induction fuel as [| fuel IH]; intros out Hout; simpl; [done |].
  case_decide; [done |]. apply IH. by eapply round_absent.
Qed.

(** Outside the entry block such an element is in no set of the result. *)
Lemma solve_absent_elsewhere (x : T) (block0 : BasicBlock) (op : Op) (b : Label) (k : nat) :
  (forall op, x ∉ fst (gen_and_kill op)) ->
  blocks !! 0 = Some block0 -> op ∈ ops block0 -> x ∈ snd (gen_and_kill op) ->
  b ≠ 0 ->
  (x ∉ before e_solve b k) ∧ (x ∉ after e_solve b k).
Proof.
  intros Hgen H0 Hop Hkill Hne.
  pose proof (block_out_absent x block0 op Hgen H0 Hop Hkill) as Hout.
  assert (Hentry : x ∉ Model.block_before e_cfg initial e_out b).
  { unfold Model.block_before. rewrite decide_False by done.
    intros [Hx | Hx]%elem_of_union; [by apply not_elem_of_empty in Hx |].
    apply elem_of_union_list in Hx as (Y & HY & Hx).
    apply list_elem_of_fmap in HY as (p & -> & Hp).
    destruct (e_out !! p) as [Xp |] eqn:E; simpl in Hx; [| by apply not_elem_of_empty in Hx].
    by apply (Forall_lookup_1 _ _ _ _ Hout E). }
  unfold Model.solve. cbn [before after].
  split; apply block_transfer_absent; done.
Qed.

(** In the entry block it is in no set after the op that kills it. *)
Lemma solve_absent_after_kill (x : T) (block0 : BasicBlock) (op : Op) (i k : nat) :
  (forall op, x ∉ fst (gen_and_kill op)) ->
  blocks !! 0 = Some block0 -> ops block0 !! i = Some op -> x ∈ snd (gen_and_kill op) ->
  i < k ->
  x ∉ before e_solve 0 k.
Proof.
  intros Hgen H0 Hop Hkill Hik. unfold Model.solve. cbn [before]. unfold Label in *.
  rewrite H0. simpl.
  apply (block_transfer_killed _ _ x op); [done | | done].
  apply list_elem_of_lookup. exists i. rewrite lookup_take_lt by lia. done.
Qed.
End EngineFacts.

Lemma solve_absent_from_kill {T : Type} `{Countable T}
    (gen_and_kill : Op -> gset T * gset T) (blocks : list BasicBlock) (initial : gset T)
    (x : T) (block0 : BasicBlock) (op : Op) (i k : nat) :
  (forall op, x ∉ fst (gen_and_kill op)) ->
  blocks !! 0 = Some block0 -> ops block0 !! i = Some op -> x ∈ snd (gen_and_kill op) ->
  i <= k ->
  x ∉ after (Model.solve gen_and_kill blocks (Model.get_cfg blocks) initial) 0 k.
Proof.
  intros Hgen H0 Hop Hkill Hik. unfold Model.solve. cbn [after]. unfold Label in *.
  rewrite H0. simpl.
  apply (block_transfer_killed _ _ _ x op); [done | | done].
  apply list_elem_of_lookup. exists i. rewrite lookup_take_lt by lia. done.
Qed.

(** The checks on reads and writes leave alone an attribute that the op
    neither reads nor writes on the receiver. *)
Lemma always_checks_other (self_reg : Register)
    (maybe_defined maybe_undefined : AnalysisResult string)
    (b : Label) (i : nat) (op : Op) (a : string) (A : gset string) :
  op ≠ GetAttr self_reg a -> (forall src, op ≠ SetAttr self_reg a src) ->
  a ∈ A -> a ∈ always_checks self_reg maybe_defined maybe_undefined b i op A.
Proof.
  intros Hget Hset Ha. unfold always_checks. destruct op; try done.
  - case_match eqn:E; [| done]. apply andb_true_iff in E as [E _].
    apply bool_decide_eq_true in E. subst obj.
    apply elem_of_difference. split; [done |]. intros ->%elem_of_singleton. done.
  - case_match eqn:E; [| done]. apply andb_true_iff in E as [E _].
    apply bool_decide_eq_true in E. subst obj.
    apply elem_of_difference. split; [done |]. intros ->%elem_of_singleton.
    by apply (Hset src).
Qed.

Section FirstWriteWalk.
Variable self_reg : Register.
Variable maybe_defined maybe_undefined : AnalysisResult string.
Variable dirty : AnalysisResult unit.
Variable a : string.

(** The walk of a block keeps [a] from an index on from which [a] is
    maybe defined and not maybe undefined. *)
Lemma always_ops_keep_from (b : Label) (l : list Op) (i : nat) (A : gset string) :
  (forall k op, l !! k = Some op ->
     (a ∉ before maybe_undefined b (i + k))
     ∧ a ∈ after maybe_defined b (i + k)
     ∧ (a ∉ after maybe_undefined b (i + k))
     ∧ forall t, t ∈ targets op -> before dirty t 0 ≠ ∅ ->
         a ∈ after maybe_defined t 0 ∧ (a ∉ after maybe_undefined t 0)) ->
  a ∈ A -> a ∈ always_ops self_reg maybe_defined maybe_undefined dirty b i l A.
Proof.
  revert i A. induction l as [| op l IH]; intros i A Hl Ha; simpl; [done |].
  destruct (Hl 0 op eq_refl) as (Hu & Hd & Hu' & Ht). rewrite Nat.add_0_r in Hu, Hd, Hu'.
  assert (Hc : a ∈ always_checks self_reg maybe_defined maybe_undefined b i op A).
  { unfold always_checks. destruct op; try done.
    - case_match eqn:E; [| done]. apply andb_true_iff in E as [_ E].
      apply bool_decide_eq_true in E. set_solver.
    - case_match eqn:E; [| done]. apply andb_true_iff in E as [_ E].
      apply andb_true_iff in E as [E _]. apply bool_decide_eq_true in E. set_solver. }
  destruct (nonempty (after dirty b i)).
  - destruct (negb (nonempty (before dirty b i))); set_solver.
  - apply IH.
    + intros k op' Hk. rewrite Nat.add_succ_comm. by apply (Hl (S k)).
    + destruct (is_control_op op); [| done].
      unfold always_targets.
      assert (Hts : forall t, t ∈ targets op -> before dirty t 0 ≠ ∅ ->
                a ∈ after maybe_defined t 0 ∧ (a ∉ after maybe_undefined t 0)) by done.
      revert Hts Hc. generalize (targets op)
        (always_checks self_reg maybe_defined maybe_undefined b i op A).
      intros ts. induction ts as [| t ts IHts]; intros B Hts HB; simpl; [done |].
      apply IHts; [intros t' Ht'; apply Hts; by right |].
      case_match eqn:E; [| done]. apply andb_true_iff in E as [_ E].
      apply nonempty_true in E. destruct (Hts t ltac:(by left) E). set_solver.
Qed.

(** The walk of a block keeps [a] when the block first leaves [a] alone,
    then writes it where it is not maybe defined, and from there on has it
    maybe defined and not maybe undefined. *)
Lemma always_ops_first_write (b : Label) (l : list Op) (i k : nat) (src : Value)
    (A : gset string) :
  l !! k = Some (SetAttr self_reg a src) ->
  (forall j op, j < k -> l !! j = Some op ->
     is_control_op op = false ∧ op ≠ GetAttr self_reg a
     ∧ (forall src, op ≠ SetAttr self_reg a src)
     ∧ after dirty b (i + j) = ∅) ->
  a ∉ before maybe_defined b (i + k) ->
  a ∈ after maybe_defined b (i + k) ->
  a ∉ after maybe_undefined b (i + k) ->
  (forall j op, k < j -> l !! j = Some op ->
     (a ∉ before maybe_undefined b (i + j))
     ∧ a ∈ after maybe_defined b (i + j)
     ∧ (a ∉ after maybe_undefined b (i + j))
     ∧ forall t, t ∈ targets op -> before dirty t 0 ≠ ∅ ->
         a ∈ after maybe_defined t 0 ∧ (a ∉ after maybe_undefined t 0)) ->
  a ∈ A -> a ∈ always_ops self_reg maybe_defined maybe_undefined dirty b i l A.
Proof.
  revert i k A. induction l as [| op l IH]; intros i k A Hk Hpre Hnot Hd Hu Hpost Ha; [done |].
  destruct k as [| k]; simpl in Hk.
  - simplify_eq. rewrite Nat.add_0_r in Hnot, Hd, Hu. simpl.
    rewrite bool_decide_eq_true_2 by done.
    rewrite (bool_decide_eq_false_2 (a ∈ before maybe_defined b i)) by done.
    rewrite andb_false_r. simpl.
    destruct (nonempty (after dirty b i)).
    + destruct (negb (nonempty (before dirty b i))); set_solver.
    + apply always_ops_keep_from; [| done].
      intros j op Hj. rewrite Nat.add_succ_comm. apply (Hpost (S j)); [lia | done].
  - destruct (Hpre 0 op ltac:(lia) eq_refl) as (Hctl & Hget & Hset & Hclean).
    rewrite Nat.add_0_r in Hclean. simpl.
    rewrite (proj2 (nonempty_false _) Hclean), Hctl.
    apply (IH (S i) k); try done.
    + intros j op' Hj Hop'. rewrite Nat.add_succ_comm. apply (Hpre (S j)); [lia | done].
    + by rewrite Nat.add_succ_comm.
    + by rewrite Nat.add_succ_comm.
    + by rewrite Nat.add_succ_comm.
    + intros j op' Hj Hop'. rewrite Nat.add_succ_comm. apply (Hpost (S j)); [lia | done].
    + by apply always_checks_other.
Qed.

(** The walk of the remaining blocks keeps [a] when it is maybe defined
    and not maybe undefined everywhere in them. *)
Lemma always_blocks_keep_from (bs : list BasicBlock) (b0 : Label) (A : gset string) :
  (forall j block k op, bs !! j = Some block -> ops block !! k = Some op ->
     (a ∉ before maybe_undefined (b0 + j) k)
     ∧ a ∈ after maybe_defined (b0 + j) k
     ∧ (a ∉ after maybe_undefined (b0 + j) k)
     ∧ forall t, t ∈ targets op -> before dirty t 0 ≠ ∅ ->
         a ∈ after maybe_defined t 0 ∧ (a ∉ after maybe_undefined t 0)) ->
  a ∈ A -> a ∈ always_blocks self_reg maybe_defined maybe_undefined dirty b0 bs A.
Proof.
  revert b0 A. induction bs as [| block bs IH]; intros b0 A Hbs Ha; simpl; [done |].
  apply IH.
  - intros j bl k op Hj Hk. rewrite Nat.add_succ_comm. by apply (Hbs (S j) bl k op).
  - apply always_ops_keep_from; [| done]. intros k op Hk.
    specialize (Hbs 0 block k op eq_refl Hk). by rewrite Nat.add_0_r in Hbs.
Qed.
End FirstWriteWalk.

Lemma block_transfer_present {T : Type} `{Countable T}
    (gen_and_kill : Op -> gset T * gset T) (l : list Op) (X : gset T) (x : T) :
  (forall op, op ∈ l -> x ∉ snd (gen_and_kill op)) ->
  x ∈ X -> x ∈ Model.block_transfer gen_and_kill l X.
Proof.
  unfold Model.block_transfer. revert X.
  induction l as [| op l IH]; intros X Hkill HX; simpl; [done |].
  apply IH.
  - intros op' Hop'. apply Hkill. by right.
  - unfold Model.transfer. specialize (Hkill op ltac:(by left)). set_solver.
Qed.

Lemma block_transfer_generated {T : Type} `{Countable T}
    (gen_and_kill : Op -> gset T * gset T) (l : list Op) (X : gset T) (x : T) (op : Op) :
  (forall op, op ∈ l -> x ∉ snd (gen_and_kill op)) ->
  op ∈ l -> x ∈ fst (gen_and_kill op) ->
  x ∈ Model.block_transfer gen_and_kill l X.
Proof.
  unfold Model.block_transfer. revert X.
  induction l as [| op' l IH]; intros X Hkill Hop Hgen; simpl.
  - by apply elem_of_nil in Hop.
  - apply elem_of_cons in Hop as [<- | Hop].
    + apply (block_transfer_present gen_and_kill l);
        [intros op' Hop'; apply Hkill; by right |].
      unfold Model.transfer. set_solver.
    + apply IH; [| done | done]. intros op'' Hop''. apply Hkill. by right.
Qed.

Lemma last_elem_of {A : Type} (l : list A) (x : A) : last l = Some x -> x ∈ l.
Proof. intros [l' ->]%last_Some. apply elem_of_app. right. by left. Qed.

Lemma always_blocks_head (self_reg : Register)
    (maybe_defined maybe_undefined : AnalysisResult string) (dirty : AnalysisResult unit)
    (bs : list BasicBlock) (b0 : Label) (block0 : BasicBlock) (A : gset string) :
  bs !! 0 = Some block0 ->
  always_blocks self_reg maybe_defined maybe_undefined dirty b0 bs A
    = always_blocks self_reg maybe_defined maybe_undefined dirty (S b0) (drop 1 bs)
        (always_ops self_reg maybe_defined maybe_undefined dirty b0 0 (ops block0) A).
Proof. destruct bs as [| b rest]; [done |]. intros [= ->]. done. Qed.

Section FirstWrite.
Variable h : Heap.
Variable self_reg : Register.
Variable blocks : list BasicBlock.
Variable defaults all_attrs : gset string.
Variable block0 : BasicBlock.
Variable i : nat.
Variable a : string.
Variable src : Value.
Hypothesis H0 : blocks !! 0 = Some block0.
Hypothesis Hop : ops block0 !! i = Some (SetAttr self_reg a src).
Hypothesis Hnew : a ∉ defaults.
Hypothesis Hfirst : forall j op, j < i -> ops block0 !! j = Some op ->
  a ∉ fst (accept (AttributeMaybeDefinedVisitor h self_reg) op).
Hypothesis Hnojump : forall b block op,
  blocks !! b = Some block -> op ∈ ops block -> 0 ∉ targets op.

Abbreviation w_md :=
  (analyze_maybe_defined_attrs_in_init Model.CFG Model.run_analysis h blocks self_reg
                                       defaults (Model.get_cfg blocks)).
Abbreviation w_mu :=
  (analyze_maybe_undefined_attrs_in_init Model.CFG Model.run_analysis h blocks self_reg
                                         (all_attrs ∖ defaults) (Model.get_cfg blocks)).
Abbreviation w_dirty := (Model.analyze_self_leaks blocks self_reg (Model.get_cfg blocks)).

Lemma first_write_sets :
  fst (accept (AttributeMaybeDefinedVisitor h self_reg) (SetAttr self_reg a src)) = {[a]}
  ∧ snd (accept (AttributeMaybeUndefinedVisitor h self_reg) (SetAttr self_reg a src))
    = {[a]}.
Proof. simpl. by rewrite !decide_True. Qed.

Lemma first_write_not_defined (j : nat) : j <= i -> a ∉ before w_md 0 j.
Proof.
  intros Hj. unfold analyze_maybe_defined_attrs_in_init, Model.run_analysis, Model.solve.
  cbn [before]. unfold Label in *. rewrite H0. simpl.
  rewrite model_entry_before.
  2:{ intros b block op Hb Hlast. apply (Hnojump b block op Hb). by apply last_elem_of. }
  apply block_transfer_absent; [| done].
  intros op Hin. apply list_elem_of_lookup in Hin as [j' Hj'].
  apply lookup_take_Some in Hj' as [Hj' Hlt]. apply (Hfirst j' op); [lia | done].
Qed.

Lemma first_write_defined_after (k : nat) : i <= k -> a ∈ after w_md 0 k.
Proof.
  intros Hk. unfold analyze_maybe_defined_attrs_in_init, Model.run_analysis, Model.solve.
  cbn [after]. unfold Label in *. rewrite H0. simpl.
  apply (block_transfer_generated _ _ _ a (SetAttr self_reg a src)).
  - intros op _. rewrite maybe_defined_kill_empty. set_solver.
  - apply list_elem_of_lookup. exists i. rewrite lookup_take_lt by lia. done.
  - rewrite (proj1 first_write_sets). set_solver.
Qed.

Lemma first_write_undefined_gen (op : Op) :
  a ∉ fst (accept (AttributeMaybeUndefinedVisitor h self_reg) op).
Proof.
  destruct (visitors_dual_on_op h self_reg op) as (_ & -> & _). set_solver.
Qed.

Lemma first_write_not_undefined (k : nat) :
  (i < k -> a ∉ before w_mu 0 k) ∧ (i <= k -> a ∉ after w_mu 0 k).
Proof.
  split; intros Hk.
  - apply (solve_absent_after_kill _ _ _ a block0 (SetAttr self_reg a src) i k);
      [apply first_write_undefined_gen | done | done | | done].
    rewrite (proj2 first_write_sets). set_solver.
  - apply (solve_absent_from_kill _ _ _ a block0 (SetAttr self_reg a src) i k);
      [apply first_write_undefined_gen | done | done | | done].
    rewrite (proj2 first_write_sets). set_solver.
Qed.

Lemma first_write_not_undefined_elsewhere (b : Label) (k : nat) :
  b ≠ 0 -> (a ∉ before w_mu b k) ∧ (a ∉ after w_mu b k).
Proof.
  intros Hb.
  apply (solve_absent_elsewhere _ _ _ a block0 (SetAttr self_reg a src));
    [apply first_write_undefined_gen | done | by eapply list_elem_of_lookup_2 | | done].
  rewrite (proj2 first_write_sets). set_solver.
Qed.

Lemma first_write_solution :
  forward_solution blocks (accept (AttributeMaybeDefinedVisitor h self_reg)) defaults w_md.
Proof. apply model_run_analysis_solution. Qed.

Lemma first_write_reaches (b : Label) (block : BasicBlock) :
  reachable blocks b -> b ≠ 0 -> blocks !! b = Some block -> a ∈ before w_md b 0.
Proof.
  intros Hreach. revert block.
  induction Hreach as [| c cblock op b Hreach IH Hc Hlast Ht]; intros block Hne Hb; [done |].
  pose proof first_write_solution as Hsol.
  assert (Hlen : length (ops cblock) - 1 < length (ops cblock)).
  { destruct (ops cblock); [done | simpl; lia]. }
  assert (Hafter : a ∈ after w_md c (length (ops cblock) - 1)).
  { destruct (decide (c = 0)) as [-> | Hc0].
    - unfold Label in *. simplify_eq. apply first_write_defined_after.
      apply lookup_lt_Some in Hop. lia.
    - specialize (IH cblock Hc0 Hc).
      destruct (forward_solution_block _ _ _ _ Hsol (maybe_defined_kill_empty h self_reg)
                  c cblock {[a]} _ Hc ltac:(set_solver) Hlen) as [_ Hin].
      set_solver. }
  destruct Hsol as (_ & _ & _ & Hedge).
  by apply (Hedge c cblock op b Hc Hlast Ht ltac:(by eexists)).
Qed.

Lemma first_write_defined_elsewhere (b : Label) (block : BasicBlock) (k : nat) :
  reachable blocks b -> b ≠ 0 -> blocks !! b = Some block ->
  k < length (ops block) ∨ k = 0 -> a ∈ after w_md b k.
Proof.
  intros Hreach Hne Hb Hk.
  pose proof (first_write_reaches b block Hreach Hne Hb) as Hbefore.
  destruct (decide (k < length (ops block))) as [Hlt | Hge].
  - destruct (forward_solution_block _ _ _ _ first_write_solution
                (maybe_defined_kill_empty h self_reg)
                b block {[a]} k Hb ltac:(set_solver) Hlt) as [_ Hin].
    set_solver.
  - destruct Hk as [? | ->]; [done |].
    assert (Hops : ops block = []) by (destruct (ops block); [done | simpl in Hge; lia]).
    unfold analyze_maybe_defined_attrs_in_init, Model.run_analysis, Model.solve
      in Hbefore |- *.
    cbn [before after] in Hbefore |- *. unfold Label in *.
    rewrite Hb in Hbefore |- *. simpl in Hbefore |- *. rewrite Hops. exact Hbefore.
Qed.

Hypothesis Hreach : forall b block, blocks !! b = Some block -> reachable blocks b.
Hypothesis Hpre : forall j op, j < i -> ops block0 !! j = Some op ->
  is_control_op op = false ∧ op ≠ GetAttr self_reg a ∧ after w_dirty 0 j = ∅.

Lemma first_write_targets (b : Label) (block : BasicBlock) (op : Op) (t : Label) :
  blocks !! b = Some block -> op ∈ ops block -> t ∈ targets op ->
  before w_dirty t 0 ≠ ∅ ->
  a ∈ after w_md t 0 ∧ (a ∉ after w_mu t 0).
Proof.
  intros Hb Hin Ht Hdirty.
  assert (Hne : t ≠ 0).
  { intros ->. by apply (Hnojump b block op Hb Hin). }
  apply model_dirty_in_range in Hdirty.
  destruct (lookup_lt_is_Some_2 blocks t Hdirty) as [tblock Htb].
  split.
  - apply (first_write_defined_elsewhere t tblock); [by eapply Hreach | done | done |].
    by right.
  - by apply first_write_not_undefined_elsewhere.
Qed.

(** The walk keeps the attribute. *)
Lemma first_write_kept :
  a ∈ all_attrs ->
  a ∈ find_always_defined_attributes self_reg w_md w_mu w_dirty blocks all_attrs.
Proof.
  intros Ha. unfold find_always_defined_attributes.
  rewrite (always_blocks_head self_reg w_md w_mu w_dirty blocks 0 block0 all_attrs H0).
  apply always_blocks_keep_from.
  - intros j block k op Hj Hk. rewrite lookup_drop in Hj.
    assert (Hin : op ∈ ops block) by (by eapply list_elem_of_lookup_2).
    destruct (first_write_not_undefined_elsewhere (1 + j) k ltac:(lia)) as [Hu Hu'].
    split; [done |]. split; [| split; [done |]].
    + apply (first_write_defined_elsewhere (1 + j) block); [by eapply Hreach | lia | done |].
      left. by eapply lookup_lt_Some.
    + intros t Ht Hd. by apply (first_write_targets (1 + j) block op t).
  - apply (always_ops_first_write self_reg w_md w_mu w_dirty a 0 (ops block0) 0 i src);
      [done | | | | | | done]; simpl.
    + intros j op Hj Hjop. destruct (Hpre j op Hj Hjop) as (Hctl & Hget & Hclean).
      split; [done |]. split; [done |]. split; [| done].
      intros src' ->. apply (Hfirst j _ Hj Hjop). simpl.
      rewrite decide_True by done. set_solver.
    + by apply first_write_not_defined.
    + by apply first_write_defined_after.
    + by apply first_write_not_undefined.
    + intros j op Hj Hjop.
      assert (Hin : op ∈ ops block0) by (by eapply list_elem_of_lookup_2).
      split; [by apply first_write_not_undefined |].
      split; [apply first_write_defined_after; lia |].
      split; [apply first_write_not_undefined; lia |].
      intros t Ht Hd. by apply (first_write_targets 0 block0 op t).
Qed.
End FirstWrite.

(** X19: the first write to an attribute in the entry block is recognised
    as its initialization.  With the modelled engine, when no block jumps
    back to the entry block, the attribute has no class-body default and no
    earlier op of the entry block defines it, the attribute is not in
    maybe-defined-before at the write; if the escape flag is not set after
    the write, [mark_attr_initialization_ops] tags it. *)
Theorem first_write_tagged (h : Heap) (self_reg : Register) (blocks : list BasicBlock)
    (attrs_with_defaults : gset string) (dirty : AnalysisResult unit)
    (block0 : BasicBlock) (i : nat) (attr : string) (src : Value) :
  let maybe_defined :=
    analyze_maybe_defined_attrs_in_init Model.CFG Model.run_analysis h blocks self_reg
                                        attrs_with_defaults (Model.get_cfg blocks) in
  blocks !! 0 = Some block0 ->
  ops block0 !! i = Some (SetAttr self_reg attr src) ->
  attr ∉ attrs_with_defaults ->
  (forall j op, j < i -> ops block0 !! j = Some op ->
     attr ∉ fst (accept (AttributeMaybeDefinedVisitor h self_reg) op)) ->
  (forall b block op, blocks !! b = Some block -> op ∈ ops block -> 0 ∉ targets op) ->
  after dirty 0 i = ∅ ->
  (attr ∉ before maybe_defined 0 i)
  ∧ (0, i) ∈ mark_attr_initialization_ops self_reg maybe_defined dirty blocks.
Proof.
  intros md H0 Hop Hnew Hfirst Hnojump Hclean.
  assert (Hnot : attr ∉ before md 0 i).
  { by apply (first_write_not_defined h self_reg blocks attrs_with_defaults block0 i attr). }
  split; [done |].
  unfold mark_attr_initialization_ops.
  by apply (mark_blocks_intro self_reg md dirty blocks 0 0 block0 i attr src).
Qed.

Lemma first_write_tagged_witness :
  ("x"%string ∉ before (Examples.model_defined Examples.branch_heap Examples.branch_init) 0 0)
  ∧ (0, 0) ∈ mark_attr_initialization_ops 0
       (Examples.model_defined Examples.branch_heap Examples.branch_init)
       (Examples.model_dirty Examples.branch_init) (blocks Examples.branch_init).
Proof.
  apply (first_write_tagged Examples.branch_heap 0 (blocks Examples.branch_init) ∅
           (Examples.model_dirty Examples.branch_init)
           {| ops := [SetAttr 0 "x" 10; OtherOp []; Branch 1 1 2] |} 0 "x" 10).
  - reflexivity.
  - reflexivity.
  - set_solver.
  - intros j op Hj. lia.
  - intros b block op Hb Hin.
    destruct b as [| [| [| [| b]]]]; simpl in Hb; try (by rewrite lookup_nil in Hb);
      injection Hb as <-; simpl in Hin;
      repeat (apply elem_of_cons in Hin as [-> | Hin]; [simpl; set_solver |]);
      by apply elem_of_nil in Hin.
  - by_eval.
Defined.

(** X20: an attribute that the constructor assigns in its entry block
    before anything else touches it is always defined.  With the modelled
    engine and oracle, in a listed class without subclasses that the guard
    does not exclude: when every block of the constructor is reachable, no
    block jumps back to the entry block, the entry block writes the
    attribute on the receiver at op [i], and the ops before [i] are not
    control ops, do not read the attribute on the receiver, do not define
    it (whatever the state of the other classes) and do not let the
    receiver escape, then the attribute, if declared in the MRO, without
    class-body default and not deletable, is in [_always_initialized_attrs]
    after the analysis. *)
Theorem first_write_always_defined (fuel : nat) (class_irs : list cid) (st st' : State)
    (cl : cid) (m : FuncIR) (self_reg : Register) (rest : list Register)
    (block0 : BasicBlock) (i : nat) (a : string) (src : Value) :
  Model.analyze_always_defined_attrs fuel class_irs st = Some st' ->
  cl ∈ class_irs ->
  gives_up (classes st cl) = false ->
  init_method (classes st cl) = Some m ->
  arg_regs m = self_reg :: rest ->
  children (classes st cl) = Some [] ->
  (forall b block, blocks m !! b = Some block -> reachable (blocks m) b) ->
  (forall b block op, blocks m !! b = Some block -> op ∈ ops block -> 0 ∉ targets op) ->
  blocks m !! 0 = Some block0 ->
  ops block0 !! i = Some (SetAttr self_reg a src) ->
  (forall j op, j < i -> ops block0 !! j = Some op ->
     is_control_op op = false ∧ op ≠ GetAttr self_reg a
     ∧ (forall h, a ∉ fst (accept (AttributeMaybeDefinedVisitor h self_reg) op))
     ∧ after (init_dirty Model.CFG Model.get_cfg Model.analyze_self_leaks m) 0 j = ∅) ->
  a ∉ attrs_with_defaults (classes st cl) ->
  a ∈ all_attrs_of (classes st) (classes st cl) ->
  is_deletable (classes st cl) a = false ->
  a ∈ _always_initialized_attrs (classes st' cl).
Proof.
  intros Hrun Hcl Hg Hm Hargs Hch Hreach Hnojump H0 Hop Hpre Hnew Hdecl Hdel.
  destruct (analysis_spec _ _ _ _ _ _ _ _ Hrun)
    as (st1 & h2 & H1 & H2 & _ & Hd1 & _ & Hlater).
  destruct (first_pass_detail_spec _ _ _ _ _ _ _ _ H1)
    as (seen1 & _ & (_ & _ & Hnewc & _) & Hseen).
  destruct (Hnewc cl m (Hseen cl Hcl) ltac:(set_solver) Hg Hm)
    as (h & self_reg' & rest' & Hargs' & Hdh & Hres & _).
  rewrite Hargs in Hargs'. injection Hargs' as <- <-.
  simpl in Hdh, Hres.
  destruct (decl_of_fields _ _ (Hd1 cl)) as (_ & Hch1 & _ & _ & _ & Hdef1 & Hdel1 & _).
  destruct (Hlater cl) as (_ & -> & _).
  rewrite (second_pass_childless _ _ _ _ cl H2) by (by rewrite Hch1).
  rewrite Hres. apply elem_of_filter. split.
  { unfold is_deletable in Hdel |- *. rewrite Hdel1, Hdel. done. }
  apply (first_write_kept h self_reg (blocks m)
           (attrs_with_defaults (classes st1 cl)) (all_attrs_of h (classes st1 cl))
           block0 i a src); try done.
  - by rewrite Hdef1.
  - intros j op Hj Hjop. by destruct (Hpre j op Hj Hjop) as (_ & _ & ? & _).
  - intros j op Hj Hjop. destruct (Hpre j op Hj Hjop) as (? & ? & _ & Hclean).
    split; [done |]. split; [done |].
    unfold init_dirty in Hclean. by rewrite Hargs in Hclean.
  - by rewrite (all_attrs_of_decl h (classes st) (classes st1 cl) (classes st cl) Hdh (Hd1 cl)).
Qed.

Lemma first_write_always_defined_witness :
  "x"%string ∈ _always_initialized_attrs (classes (Examples.run [0] Examples.branch_heap) 0).
Proof.
  apply (first_write_always_defined 3 [0] (Examples.start Examples.branch_heap)
           (Examples.run [0] Examples.branch_heap) 0 Examples.branch_init 0 []
           {| ops := [SetAttr 0 "x" 10; OtherOp []; Branch 1 1 2] |} 0 "x" 10).
  - apply Some_default. by_eval.
  - by_eval.
  - reflexivity.
  - reflexivity.
  - reflexivity.
  - reflexivity.
  - intros b block Hb.
    assert (H1 : reachable (blocks Examples.branch_init) 1).
    { eapply (reachable_edge _ 0 _ (Branch 1 1 2) 1);
        [apply reachable_entry | reflexivity | reflexivity | simpl; set_solver]. }
    destruct b as [| [| [| [| b]]]]; simpl in Hb.
    + apply reachable_entry.
    + exact H1.
    + eapply (reachable_edge _ 0 _ (Branch 1 1 2) 2);
        [apply reachable_entry | reflexivity | reflexivity | simpl; set_solver].
    + eapply (reachable_edge _ 1 _ (Goto 3) 3);
        [exact H1 | reflexivity | reflexivity | simpl; set_solver].
    + by rewrite lookup_nil in Hb.
  - intros b block op Hb Hin.
    destruct b as [| [| [| [| b]]]]; simpl in Hb; try (by rewrite lookup_nil in Hb);
      injection Hb as <-; simpl in Hin;
      repeat (apply elem_of_cons in Hin as [-> | Hin]; [simpl; set_solver |]);
      by apply elem_of_nil in Hin.
  - reflexivity.
  - reflexivity.
  - intros j op Hj. lia.
  - simpl. set_solver.
  - by_eval.
  - reflexivity.
Defined.

(** ** A class that is listed more than once *)

Lemma for_each_skip {A S : Type} (f : A -> S -> option S) (p q : list A) (x : A) (s0 : S) :
  (forall s, for_each f p s0 = Some s -> f x s = Some s) ->
  for_each f (p ++ x :: q) s0 = for_each f (p ++ q) s0.
Proof.
  intros Hskip. rewrite !for_each_app.
  destruct (for_each f p s0) as [s |] eqn:E; simpl; [| done].
  by rewrite (Hskip s).
Qed.

Lemma for_each_nonempty_fuel {A S : Type} (f : nat -> A -> S -> option S)
    (fuel : nat) (p : list A) (x : A) (s0 s : S) :
  (forall y t, f 0 y t = None) -> x ∈ p -> for_each (f fuel) p s0 = Some s ->
  exists fuel', fuel = Datatypes.S fuel'.
Proof.
  intros Hzero Hx Hrun. destruct fuel as [| fuel']; [| by eexists].
  destruct p as [| y p]; [by apply elem_of_nil in Hx |].
  simpl in Hrun. by rewrite Hzero in Hrun.
Qed.

Section Repeated.
Variable CFG : Type.
Variable get_cfg : list BasicBlock -> CFG.
Variable run_analysis :
  list BasicBlock -> CFG -> BaseAnalysisVisitor -> gset string ->
  bool -> AnalysisKind -> AnalysisResult string.
Variable analyze_self_leaks :
  list BasicBlock -> Register -> CFG -> AnalysisResult unit.

Abbreviation analyze_class_3 :=
  (analyze_always_defined_attrs_in_class CFG get_cfg run_analysis analyze_self_leaks).

Lemma first_pass_again (fuel : nat) (p : list cid) (cl : cid) (s0 s : State * gset cid) :
  cl ∈ p -> for_each (analyze_class_3 fuel) p s0 = Some s ->
  analyze_class_3 fuel cl s = Some s.
Proof.
  intros Hcl Hrun.
  destruct (for_each_nonempty_fuel analyze_class_3 fuel p cl s0 s) as [fuel' ->];
    [done | done | done |].
  destruct (for_each_establish (analyze_class_3 (S fuel')) (fun _ => True)
              (fun c t => c ∈ t.2) p s0 s) as [_ Hseen]; [| | done | done |].
  - intros c t t' _ _ Hc. apply analyze_in_class_step in Hc as [_ ?]. done.
  - intros x c t t' _ _ Hx Hc. apply analyze_in_class_step in Hc as [(? & _) _].
    set_solver.
  - destruct s as [st seen]. simpl. rewrite decide_True; [done |]. by apply Hseen.
Qed.
End Repeated.

Lemma update_using_subclasses_seen (fuel : nat) (cl : cid) (s s' : Heap * gset cid) :
  update_always_defined_attrs_using_subclasses fuel cl s = Some s' ->
  s.2 ⊆ s'.2 ∧ (cl ∈ s'.2 ∨ children (s'.1 cl) = None).
Proof.
  revert cl s s'. induction fuel as [| fuel IH]; intros cl [h seen] s' Hrun; [done |].
  simpl in Hrun. destruct (decide (cl ∈ seen)).
  { simplify_eq. split; [done | by left]. }
  destruct (children (h cl)) as [chs |] eqn:Hch.
  2:{ simplify_eq. split; [done | by right]. }
  destruct (for_each _ _ _) as [[[h2 seen2] removed] |] eqn:Hloop; [| done].
  simplify_eq. simpl. split; [| left; set_solver].
  assert (seen ⊆ seen2); [| set_solver].
  apply (for_each_rel _ (fun t t' : Heap * gset cid * gset string => t.1.2 ⊆ t'.1.2))
    in Hloop; [exact Hloop | done | intros ? ? ? ? ?; set_solver |].
  intros attr t t' _ Hattr.
  apply (for_each_rel _ (fun t t' : Heap * gset cid * gset string => t.1.2 ⊆ t'.1.2))
    in Hattr; [exact Hattr | done | intros ? ? ? ? ?; set_solver |].
  intros child [[h1 seen1] rem1] u' _ Hchild. unfold update_children in Hchild.
  destruct (update_always_defined_attrs_using_subclasses fuel child (h1, seen1))
    as [[h3 seen3] |] eqn:E; [| done].
  apply IH in E as [E _]. case_match; simplify_eq; done.
Qed.

Lemma second_pass_again (fuel : nat) (p : list cid) (cl : cid) (s0 s : Heap * gset cid) :
  cl ∈ p -> for_each (update_always_defined_attrs_using_subclasses fuel) p s0 = Some s ->
  update_always_defined_attrs_using_subclasses fuel cl s = Some s.
Proof.
  intros Hcl Hrun.
  destruct (for_each_nonempty_fuel update_always_defined_attrs_using_subclasses
              fuel p cl s0 s) as [fuel' ->]; [done | done | done |].
  destruct (for_each_establish (update_always_defined_attrs_using_subclasses (S fuel'))
              (fun _ => True)
              (fun c t => c ∈ t.2 ∨ children (t.1 c) = None) p s0 s)
    as [_ Hseen]; [| | done | done |].
  - intros c t t' _ _ Hc. by apply update_using_subclasses_seen in Hc as [_ ?].
  - intros x c t t' _ _ Hx Hc.
    pose proof (update_using_subclasses_step _ _ _ _ Hc) as Hstep.
    apply update_using_subclasses_seen in Hc as [Hsub _].
    destruct Hx as [Hx | Hx]; [left; set_solver | right].
    by rewrite (second_pass_step_children _ _ x Hstep).
  - destruct s as [h seen]. simpl. destruct (decide (cl ∈ seen)); [done |].
    destruct (Hseen cl Hcl) as [? | Hopen]; [done |]. simpl in Hopen. by rewrite Hopen.
Qed.

Lemma final_pass_again (fuel : nat) (p : list cid) (cl : cid) (s0 s : Heap * gset cid) :
  cl ∈ p -> for_each (detect_undefined_bitmap fuel) p s0 = Some s ->
  detect_undefined_bitmap fuel cl s = Some s.
Proof.
  intros Hcl Hrun.
  destruct (for_each_nonempty_fuel detect_undefined_bitmap fuel p cl s0 s)
    as [fuel' ->]; [done | done | done |].
  destruct (final_pass_loop _ _ _ _ Hrun) as (Hfs & _ & _ & _ & _ & Hall).
  assert (Htrait : is_trait (s.1 cl) = is_trait (s0.1 cl)).
  { specialize (Hfs cl). apply set_bitmap_attrs_fields in Hfs as (Hd & _).
    by destruct (decl_of_fields _ _ Hd) as (? & _). }
  destruct s as [h seen]. simpl in Htrait |- *.
  destruct (is_trait (h cl)) eqn:Ht; [done |].
  rewrite decide_True; [done |]. apply (Hall cl Hcl). by rewrite <- Htrait.
Qed.

(** X21: a class that is listed more than once is analysed once.  Every
    pass keeps a set of the classes it has seen, so a later occurrence of a
    class in the list changes nothing: the analysis of a list gives the
    same result, or fails alike, when a repeated occurrence is removed. *)
Theorem repeated_class_ignored (CFG : Type) (get_cfg : list BasicBlock -> CFG)
    (run_analysis : list BasicBlock -> CFG -> BaseAnalysisVisitor -> gset string ->
                    bool -> AnalysisKind -> AnalysisResult string)
    (analyze_self_leaks : list BasicBlock -> Register -> CFG -> AnalysisResult unit)
    (fuel : nat) (p q : list cid) (cl : cid) (st : State) :
  cl ∈ p ->
  analyze_always_defined_attrs CFG get_cfg run_analysis analyze_self_leaks
                               fuel (p ++ cl :: q) st
  = analyze_always_defined_attrs CFG get_cfg run_analysis analyze_self_leaks
                                 fuel (p ++ q) st.
Proof.
  intros Hcl. unfold analyze_always_defined_attrs, first_pass, second_pass, final_pass.
  rewrite (for_each_skip _ p q cl (st, ∅)).
  2:{ intros s. by apply first_pass_again. }
  destruct (for_each _ (p ++ q) (st, ∅)) as [[st1 seen1] |]; simpl; [| done].
  rewrite (for_each_skip _ p q cl (classes st1, ∅)).
  2:{ intros s. by apply second_pass_again. }
  destruct (for_each _ (p ++ q) (classes st1, ∅)) as [[h2 seen2] |]; simpl; [| done].
  rewrite (for_each_skip _ p q cl (h2, ∅)).
  2:{ intros s. by apply final_pass_again. }
  done.
Qed.

Lemma repeated_class_ignored_witness :
  Model.analyze_always_defined_attrs 3 ([0; 1] ++ 1 :: [])
    (Examples.start Examples.bitmap_heap)
  = Model.analyze_always_defined_attrs 3 ([0; 1] ++ [])
      (Examples.start Examples.bitmap_heap).
Proof.
  apply (repeated_class_ignored Model.CFG Model.get_cfg Model.run_analysis
           Model.analyze_self_leaks 3 [0; 1] [] 1 (Examples.start Examples.bitmap_heap)).
  by_eval.
Defined.

(** * The argument groups of a wrapper function *)

Lemma append_nil (s : string) : ("" +:+ s)%string = s.
Proof. reflexivity. Qed.

Lemma append_cons (c : Ascii.ascii) (s t : string) :
  (String c s +:+ t)%string = String c (s +:+ t).
Proof. reflexivity. Qed.

Lemma append_assoc (s t u : string) : ((s +:+ t) +:+ u)%string = (s +:+ (t +:+ u))%string.
Proof. induction s as [| c s IH]; [done |]. by rewrite !append_cons, IH. Qed.

Lemma append_nil_r (s : string) : (s +:+ "")%string = s.
Proof. induction s as [| c s IH]; [done |]. by rewrite append_cons, IH. Qed.

Lemma count_char_app (c : Ascii.ascii) (s t : string) :
  EmitWrapper.count_char c (s +:+ t)
    = EmitWrapper.count_char c s + EmitWrapper.count_char c t.
Proof.
  induction s as [| c' s IH]; [done |].
  rewrite append_cons. simpl. rewrite IH. lia.
Qed.

Lemma count_char_repeat_O (n : nat) :
  EmitWrapper.count_char (EmitWrapper.char_of "O") (EmitWrapper.repeat_str "O" n) = n.
Proof.
  induction n as [| n IH]; [done |].
  simpl EmitWrapper.repeat_str. rewrite append_cons, append_nil.
  simpl in *. by rewrite IH.
Qed.

Lemma delimiters_app (s t : string) :
  EmitWrapper.delimiters (s +:+ t) = EmitWrapper.delimiters s ++ EmitWrapper.delimiters t.
Proof.
  induction s as [| c s IH]; [done |].
  rewrite append_cons. simpl. rewrite IH. by case_match.
Qed.

Lemma delimiters_repeat_O (n : nat) :
  EmitWrapper.delimiters (EmitWrapper.repeat_str "O" n) = [].
Proof.
  induction n as [| n IH]; [done |].
  simpl EmitWrapper.repeat_str. rewrite append_cons, append_nil.
  simpl in *. by rewrite IH.
Qed.

(** Mutually exclusive groups partition the elements that belong to one of
    them. *)
Lemma filter_partition_four {A : Type} (P1 P2 P3 P4 Q : A -> Prop)
    `{forall x, Decision (P1 x)} `{forall x, Decision (P2 x)}
    `{forall x, Decision (P3 x)} `{forall x, Decision (P4 x)}
    `{forall x, Decision (Q x)} (l : list A) :
  (forall x, P1 x -> Q x ∧ ¬ P2 x ∧ ¬ P3 x ∧ ¬ P4 x) ->
  (forall x, P2 x -> Q x ∧ ¬ P1 x ∧ ¬ P3 x ∧ ¬ P4 x) ->
  (forall x, P3 x -> Q x ∧ ¬ P1 x ∧ ¬ P2 x ∧ ¬ P4 x) ->
  (forall x, P4 x -> Q x ∧ ¬ P1 x ∧ ¬ P2 x ∧ ¬ P3 x) ->
  (forall x, Q x -> P1 x ∨ P2 x ∨ P3 x ∨ P4 x) ->
  filter P1 l ++ filter P2 l ++ filter P3 l ++ filter P4 l ≡ₚ filter Q l.
Proof.
  intros E1 E2 E3 E4 HQ. induction l as [| x l IH]; [done |].
  rewrite !filter_cons.
  destruct (decide (P1 x)) as [Hx | Hn1].
  { destruct (E1 x Hx) as (Hq & Hn2 & Hn3 & Hn4).
    rewrite (decide_True (P:=Q x)) by done.
    rewrite (decide_False (P:=P2 x)), (decide_False (P:=P3 x)),
      (decide_False (P:=P4 x)) by done.
    simpl. by rewrite IH. }
  destruct (decide (P2 x)) as [Hx | Hn2].
  { destruct (E2 x Hx) as (Hq & _ & Hn3 & Hn4).
    rewrite (decide_True (P:=Q x)) by done.
    rewrite (decide_False (P:=P3 x)), (decide_False (P:=P4 x)) by done.
    simpl. rewrite <- Permutation_middle. by rewrite IH. }
  destruct (decide (P3 x)) as [Hx | Hn3].
  { destruct (E3 x Hx) as (Hq & _ & _ & Hn4).
    rewrite (decide_True (P:=Q x)) by done.
    rewrite (decide_False (P:=P4 x)) by done.
    simpl. rewrite (app_assoc (filter P1 l)), <- Permutation_middle, <- app_assoc.
    by rewrite IH. }
  destruct (decide (P4 x)) as [Hx | Hn4].
  { destruct (E4 x Hx) as (Hq & _).
    rewrite (decide_True (P:=Q x)) by done.
    simpl. rewrite !app_assoc, <- Permutation_middle, <- !app_assoc.
    by rewrite IH. }
  rewrite (decide_False (P:=Q x)); [done |].
  intros Hq. destruct (HQ x Hq) as [? | [? | [? | ?]]]; done.
Qed.

Section ArgGroupFacts.
Variable ArgKind : Type.
Context `{EqDecision ArgKind}.
Variable ARG_POS ARG_OPT ARG_STAR ARG_NAMED ARG_STAR2 ARG_NAMED_OPT : ArgKind.
Variable all_kinds : list ArgKind.
Hypothesis Hall : forall k,
  k ∈ [ARG_POS; ARG_OPT; ARG_STAR; ARG_NAMED; ARG_STAR2; ARG_NAMED_OPT] -> k ∈ all_kinds.

Abbreviation g_of args := (EmitWrapper.make_arg_groups ArgKind all_kinds args).
Abbreviation of_kind k args :=
  (filter (fun arg : EmitWrapper.RuntimeArg ArgKind => EmitWrapper.kind arg = k) args).

(** The dict built by [make_arg_groups] has an item for every member of
    the enumeration. *)
Lemma getitem_make_arg_groups (k : ArgKind) (args : list (EmitWrapper.RuntimeArg ArgKind)) :
  k ∈ all_kinds -> EmitWrapper.getitem ArgKind (g_of args) k = Some (of_kind k args).
Proof.
  unfold EmitWrapper.make_arg_groups. clear Hall.
  induction all_kinds as [| k' ks IH]; intros Hk; [by apply elem_of_nil in Hk |].
  simpl. case_decide as Heq; [by subst k' |].
  apply IH. apply elem_of_cons in Hk as [-> | Hk]; done.
Qed.

Lemma getitem_member (k : ArgKind) (args : list (EmitWrapper.RuntimeArg ArgKind)) :
  k ∈ [ARG_POS; ARG_OPT; ARG_STAR; ARG_NAMED; ARG_STAR2; ARG_NAMED_OPT] ->
  EmitWrapper.getitem ArgKind (g_of args) k = Some (of_kind k args).
Proof. intros Hk. apply getitem_make_arg_groups. by apply Hall. Qed.

Lemma either_make_arg_groups (k1 k2 : ArgKind) (args : list (EmitWrapper.RuntimeArg ArgKind)) :
  k1 ∈ [ARG_POS; ARG_OPT; ARG_STAR; ARG_NAMED; ARG_STAR2; ARG_NAMED_OPT] ->
  k2 ∈ [ARG_POS; ARG_OPT; ARG_STAR; ARG_NAMED; ARG_STAR2; ARG_NAMED_OPT] ->
  EmitWrapper.either ArgKind (g_of args) k1 k2
    = Some (EmitWrapper.truthy (of_kind k1 args) || EmitWrapper.truthy (of_kind k2 args)).
Proof.
  intros H1 H2. unfold EmitWrapper.either.
  rewrite !getitem_member by done. simpl.
  by destruct (EmitWrapper.truthy (of_kind k1 args)).
Qed.

Lemma reorder_make_arg_groups (args : list (EmitWrapper.RuntimeArg ArgKind)) :
  EmitWrapper.reorder_arg_groups ArgKind ARG_POS ARG_OPT ARG_NAMED ARG_NAMED_OPT (g_of args)
    = Some (of_kind ARG_POS args ++ of_kind ARG_OPT args
            ++ of_kind ARG_NAMED_OPT args ++ of_kind ARG_NAMED args).
Proof.
  unfold EmitWrapper.reorder_arg_groups.
  rewrite !getitem_member by set_solver. done.
Qed.

(** The format string for the dict built by [make_arg_groups]. *)
Lemma format_make_arg_groups (func_name : option string)
    (args : list (EmitWrapper.RuntimeArg ArgKind)) :
  let star := EmitWrapper.truthy (of_kind ARG_STAR args)
              || EmitWrapper.truthy (of_kind ARG_STAR2 args) in
  let optional := EmitWrapper.truthy (of_kind ARG_OPT args)
                  || (EmitWrapper.truthy (of_kind ARG_NAMED_OPT args)
                      || EmitWrapper.truthy (of_kind ARG_NAMED args)) in
  let keyword_only := EmitWrapper.truthy (of_kind ARG_NAMED_OPT args)
                      || EmitWrapper.truthy (of_kind ARG_NAMED args) in
  let named := EmitWrapper.truthy (of_kind ARG_NAMED args) in
  let rep n := EmitWrapper.repeat_str "O" n in
  let f0 := ((if star then "" +:+ "%" else "") +:+ rep (length (of_kind ARG_POS args)))%string in
  let f1 := if optional then f0 +:+ ("|" +:+ rep (length (of_kind ARG_OPT args))) else f0 in
  let f2 := if keyword_only
            then f1 +:+ ("$" +:+ rep (length (of_kind ARG_NAMED_OPT args))) else f1 in
  let f3 := if named then f2 +:+ ("@" +:+ rep (length (of_kind ARG_NAMED args))) else f2 in
  EmitWrapper.make_format_string ArgKind ARG_POS ARG_OPT ARG_STAR ARG_NAMED ARG_STAR2
                                 ARG_NAMED_OPT func_name (g_of args)
    = Some (match func_name with
            | Some func_name => f3 +:+ (":" +:+ func_name)
            | None => f3
            end).
Proof.
  intros star optional keyword_only named rep f0 f1 f2 f3.
  unfold EmitWrapper.make_format_string.
  rewrite !either_make_arg_groups by set_solver.
  rewrite !getitem_member by set_solver. simpl.
  fold star keyword_only named.
  assert (Hopt : (if EmitWrapper.truthy (of_kind ARG_OPT args)
                  then Some true else Some keyword_only) = Some optional).
  { unfold optional. fold keyword_only. by destruct (EmitWrapper.truthy (of_kind ARG_OPT args)). }
  rewrite Hopt. simpl.
  subst f3 f2 f1 f0 rep. simpl.
  destruct optional, keyword_only, named; simpl; done.
Qed.

Lemma format_none_closed (args : list (EmitWrapper.RuntimeArg ArgKind)) :
  let star := EmitWrapper.truthy (of_kind ARG_STAR args)
              || EmitWrapper.truthy (of_kind ARG_STAR2 args) in
  let rep n := EmitWrapper.repeat_str "O" n in
  EmitWrapper.make_format_string ArgKind ARG_POS ARG_OPT ARG_STAR ARG_NAMED ARG_STAR2
                                 ARG_NAMED_OPT None (g_of args)
    = Some ((if star then "%" else "") +:+ rep (length (of_kind ARG_POS args))
            +:+ (if EmitWrapper.truthy (of_kind ARG_NAMED args)
                 then "|" +:+ rep (length (of_kind ARG_OPT args))
                      +:+ "$" +:+ rep (length (of_kind ARG_NAMED_OPT args))
                      +:+ "@" +:+ rep (length (of_kind ARG_NAMED args))
                 else if EmitWrapper.truthy (of_kind ARG_NAMED_OPT args)
                 then "|" +:+ rep (length (of_kind ARG_OPT args))
                      +:+ "$" +:+ rep (length (of_kind ARG_NAMED_OPT args))
                 else if EmitWrapper.truthy (of_kind ARG_OPT args)
                 then "|" +:+ rep (length (of_kind ARG_OPT args))
                 else ""))%string.
Proof.
  intros star rep. rewrite format_make_arg_groups. fold star. f_equal.
  destruct star, (EmitWrapper.truthy (of_kind ARG_NAMED args)),
    (EmitWrapper.truthy (of_kind ARG_NAMED_OPT args)),
    (EmitWrapper.truthy (of_kind ARG_OPT args)); simpl;
    rewrite ?append_nil, ?append_assoc, ?append_nil; try done.
  all: try (rewrite ?append_cons, ?append_nil; done).
  all: subst rep; simpl; by rewrite ?append_assoc, ?append_nil_r.
Qed.

Lemma format_string_shape_aux (args : list (EmitWrapper.RuntimeArg ArgKind)) :
  exists fmt reordered,
    EmitWrapper.make_format_string ArgKind ARG_POS ARG_OPT ARG_STAR ARG_NAMED ARG_STAR2
      ARG_NAMED_OPT None (g_of args) = Some fmt
    ∧ EmitWrapper.reorder_arg_groups ArgKind ARG_POS ARG_OPT ARG_NAMED ARG_NAMED_OPT
        (g_of args) = Some reordered
    ∧ EmitWrapper.count_char (EmitWrapper.char_of "O") fmt = length reordered.
Proof.
  eexists _, _. split; [apply format_none_closed |].
  split; [apply reorder_make_arg_groups |].
  assert (Hlen : forall l : list (EmitWrapper.RuntimeArg ArgKind),
             EmitWrapper.truthy l = false -> length l = 0) by (by intros []).
  rewrite !length_app.
  destruct (EmitWrapper.truthy (of_kind ARG_NAMED args)) eqn:E1,
    (EmitWrapper.truthy (of_kind ARG_NAMED_OPT args)) eqn:E2,
    (EmitWrapper.truthy (of_kind ARG_OPT args)) eqn:E3,
    (EmitWrapper.truthy (of_kind ARG_STAR args)
     || EmitWrapper.truthy (of_kind ARG_STAR2 args));
    rewrite !count_char_app, ?count_char_repeat_O;
    rewrite ?(Hlen _ E1), ?(Hlen _ E2), ?(Hlen _ E3); simpl; lia.
Qed.

(** X22 (reorder_arg_groups, make_arg_groups): when the enumeration has the
    six kinds among its members and the four non-star kinds are distinct,
    reordering the groups of an argument list raises no KeyError and gives
    the positional, the optional, the optional keyword-only and the required
    keyword-only arguments, in this order and each group in the order of
    the argument list: a permutation of the arguments that are neither
    * nor ** arguments. *)
Theorem reorder_arg_groups_permutation (args : list (EmitWrapper.RuntimeArg ArgKind)) :
  NoDup [ARG_POS; ARG_OPT; ARG_NAMED_OPT; ARG_NAMED] ->
  exists reordered,
    EmitWrapper.reorder_arg_groups ArgKind ARG_POS ARG_OPT ARG_NAMED ARG_NAMED_OPT
      (EmitWrapper.make_arg_groups ArgKind all_kinds args) = Some reordered
    ∧ reordered = of_kind ARG_POS args ++ of_kind ARG_OPT args
                  ++ of_kind ARG_NAMED_OPT args ++ of_kind ARG_NAMED args
    ∧ reordered ≡ₚ filter (fun arg : EmitWrapper.RuntimeArg ArgKind =>
                             EmitWrapper.kind arg ∈ [ARG_POS; ARG_OPT; ARG_NAMED_OPT; ARG_NAMED])
                          args
    ∧ forall k, k ∈ [ARG_POS; ARG_OPT; ARG_NAMED_OPT; ARG_NAMED] ->
        of_kind k reordered = of_kind k args.
Proof.
  intros Hnd. eexists. split; [apply reorder_make_arg_groups |]. split; [done |].
  apply NoDup_cons in Hnd as [Hn1 Hnd]. apply NoDup_cons in Hnd as [Hn2 Hnd].
  apply NoDup_cons in Hnd as [Hn3 _].
  assert (ARG_POS <> ARG_OPT) by set_solver.
  assert (ARG_POS <> ARG_NAMED_OPT) by set_solver.
  assert (ARG_POS <> ARG_NAMED) by set_solver.
  assert (ARG_OPT <> ARG_NAMED_OPT) by set_solver.
  assert (ARG_OPT <> ARG_NAMED) by set_solver.
  assert (ARG_NAMED_OPT <> ARG_NAMED) by set_solver.
  split.
  - apply (filter_partition_four
             (fun arg => EmitWrapper.kind arg = ARG_POS)
             (fun arg => EmitWrapper.kind arg = ARG_OPT)
             (fun arg => EmitWrapper.kind arg = ARG_NAMED_OPT)
             (fun arg => EmitWrapper.kind arg = ARG_NAMED)
             (fun arg => EmitWrapper.kind arg
                           ∈ [ARG_POS; ARG_OPT; ARG_NAMED_OPT; ARG_NAMED])).
    + intros x ->. set_solver.
    + intros x ->. set_solver.
    + intros x ->. set_solver.
    + intros x ->. set_solver.
    + intros x Hx. set_solver.
  - intros k Hk. rewrite !filter_app.
    assert (Hff : forall k', of_kind k (of_kind k' args)
                             = if decide (k' = k) then of_kind k args else []).
    { intros k'. case_decide as Hkk.
      - subst k'. induction args as [| x l IH]; [done |].
        rewrite !filter_cons. case_decide; [| done].
        rewrite filter_cons, decide_True by done. by rewrite IH.
      - induction args as [| x l IH]; [done |].
        rewrite !filter_cons. case_decide as Hx; [| done].
        rewrite filter_cons, decide_False by congruence. done. }
    rewrite !Hff.
    repeat case_decide; subst; try congruence; rewrite ?app_nil_r; try done.
    set_solver.
Qed.

(** X23 (make_format_string): when the enumeration has the six kinds among
    its members, the format string of the groups of an argument list is
    built without a KeyError; it has one O for every reordered argument,
    and its other characters are an optional leading percent sign (present
    exactly when there is a * or ** argument) followed by a prefix of the
    delimiters | $ @, as long as the last non-empty group among optional,
    optional keyword-only and required keyword-only requires.  With a
    function name the same string is followed by a colon and the name. *)
Theorem format_string_shape (args : list (EmitWrapper.RuntimeArg ArgKind)) :
  exists fmt reordered,
    EmitWrapper.make_format_string ArgKind ARG_POS ARG_OPT ARG_STAR ARG_NAMED ARG_STAR2
      ARG_NAMED_OPT None (EmitWrapper.make_arg_groups ArgKind all_kinds args) = Some fmt
    ∧ EmitWrapper.reorder_arg_groups ArgKind ARG_POS ARG_OPT ARG_NAMED ARG_NAMED_OPT
        (EmitWrapper.make_arg_groups ArgKind all_kinds args) = Some reordered
    ∧ (forall func_name,
         EmitWrapper.make_format_string ArgKind ARG_POS ARG_OPT ARG_STAR ARG_NAMED ARG_STAR2
           ARG_NAMED_OPT (Some func_name) (EmitWrapper.make_arg_groups ArgKind all_kinds args)
         = Some (fmt +:+ (":" +:+ func_name))%string)
    ∧ EmitWrapper.count_char (EmitWrapper.char_of "O") fmt = length reordered
    ∧ EmitWrapper.delimiters fmt
      = (if EmitWrapper.truthy (of_kind ARG_STAR args)
            || EmitWrapper.truthy (of_kind ARG_STAR2 args)
         then [EmitWrapper.char_of "%"] else [])
        ++ take (if EmitWrapper.truthy (of_kind ARG_NAMED args) then 3
                 else if EmitWrapper.truthy (of_kind ARG_NAMED_OPT args) then 2
                 else if EmitWrapper.truthy (of_kind ARG_OPT args) then 1
                 else 0)
                [EmitWrapper.char_of "|"; EmitWrapper.char_of "$"; EmitWrapper.char_of "@"].
Proof.
  eexists _, _. split; [apply format_none_closed |].
  split; [apply reorder_make_arg_groups |].
  split.
  { intros func_name. rewrite format_make_arg_groups.
    pose proof (format_make_arg_groups None args) as Hnone.
    rewrite format_none_closed in Hnone. simpl in Hnone.
    injection Hnone as ->. done. }
  assert (Hlen : forall l : list (EmitWrapper.RuntimeArg ArgKind),
             EmitWrapper.truthy l = false -> length l = 0) by (by intros []).
  split.
  - rewrite !length_app.
    destruct (EmitWrapper.truthy (of_kind ARG_NAMED args)) eqn:E1,
      (EmitWrapper.truthy (of_kind ARG_NAMED_OPT args)) eqn:E2,
      (EmitWrapper.truthy (of_kind ARG_OPT args)) eqn:E3,
      (EmitWrapper.truthy (of_kind ARG_STAR args)
       || EmitWrapper.truthy (of_kind ARG_STAR2 args));
      rewrite !count_char_app, ?count_char_repeat_O;
      rewrite ?(Hlen _ E1), ?(Hlen _ E2), ?(Hlen _ E3); simpl; lia.
  - destruct (EmitWrapper.truthy (of_kind ARG_NAMED args)),
      (EmitWrapper.truthy (of_kind ARG_NAMED_OPT args)),
      (EmitWrapper.truthy (of_kind ARG_OPT args)),
      (EmitWrapper.truthy (of_kind ARG_STAR args)
       || EmitWrapper.truthy (of_kind ARG_STAR2 args));
      rewrite !delimiters_app, ?delimiters_repeat_O; reflexivity.
Qed.

Lemma star_ptr_make_arg_groups (k : ArgKind) (args : list (EmitWrapper.RuntimeArg ArgKind)) :
  k ∈ [ARG_POS; ARG_OPT; ARG_STAR; ARG_NAMED; ARG_STAR2; ARG_NAMED_OPT] ->
  exists p, EmitWrapper.star_ptr ArgKind (g_of args) k = Some p.
Proof.
  intros Hk. unfold EmitWrapper.star_ptr. rewrite !getitem_member by done. simpl.
  destruct (of_kind k args) as [| a l] eqn:E; simpl.
  - by eexists.
  - rewrite ?E. simpl. by eexists.
Qed.

Lemma format_none_starts (args : list (EmitWrapper.RuntimeArg ArgKind)) (fmt : string) :
  EmitWrapper.make_format_string ArgKind ARG_POS ARG_OPT ARG_STAR ARG_NAMED ARG_STAR2
    ARG_NAMED_OPT None (g_of args) = Some fmt ->
  EmitWrapper.starts_with_percent fmt
    = EmitWrapper.truthy (of_kind ARG_STAR args) || EmitWrapper.truthy (of_kind ARG_STAR2 args).
Proof.
  rewrite format_none_closed. intros [= <-].
  destruct (EmitWrapper.truthy (of_kind ARG_STAR args)
            || EmitWrapper.truthy (of_kind ARG_STAR2 args)); [done |].
  rewrite append_nil.
  destruct (length (of_kind ARG_POS args)); [| done].
  simpl EmitWrapper.repeat_str. rewrite append_nil.
  by destruct (EmitWrapper.truthy (of_kind ARG_NAMED args)),
    (EmitWrapper.truthy (of_kind ARG_NAMED_OPT args)),
    (EmitWrapper.truthy (of_kind ARG_OPT args)).
Qed.

(** X24 (generate_wrapper_function, generate_legacy_wrapper_function,
    make_format_string): when the enumeration has the six kinds among its
    members, the list of pointer arguments for the argument parser is built
    without a KeyError or IndexError, and it agrees with the format string:
    two pointers for * and ** exactly when the format string starts with a
    percent sign, followed by one pointer for every O of the format string,
    the pointers of the reordered arguments in their order. *)
Theorem arg_ptrs_match_format (args : list (EmitWrapper.RuntimeArg ArgKind)) :
  exists fmt reordered ptrs,
    EmitWrapper.make_format_string ArgKind ARG_POS ARG_OPT ARG_STAR ARG_NAMED ARG_STAR2
      ARG_NAMED_OPT None (EmitWrapper.make_arg_groups ArgKind all_kinds args) = Some fmt
    ∧ EmitWrapper.reorder_arg_groups ArgKind ARG_POS ARG_OPT ARG_NAMED ARG_NAMED_OPT
        (EmitWrapper.make_arg_groups ArgKind all_kinds args) = Some reordered
    ∧ EmitWrapper.arg_ptrs ArgKind ARG_STAR ARG_STAR2
        (EmitWrapper.make_arg_groups ArgKind all_kinds args) reordered = Some ptrs
    ∧ length ptrs = (if EmitWrapper.starts_with_percent fmt then 2 else 0)
                    + EmitWrapper.count_char (EmitWrapper.char_of "O") fmt
    ∧ drop (if EmitWrapper.starts_with_percent fmt then 2 else 0) ptrs
      = map (fun arg => "&obj_" +:+ EmitWrapper.name arg)%string reordered.
Proof.
  destruct (format_string_shape_aux args) as (fmt & reordered & Hfmt & Hre & Hcount).
  pose proof (format_none_starts args fmt Hfmt) as Hstart.
  destruct (star_ptr_make_arg_groups ARG_STAR args) as [p1 Hp1]; [set_solver |].
  destruct (star_ptr_make_arg_groups ARG_STAR2 args) as [p2 Hp2]; [set_solver |].
  exists fmt, reordered.
  unfold EmitWrapper.arg_ptrs.
  rewrite either_make_arg_groups by set_solver.
  rewrite Hstart.
  destruct (EmitWrapper.truthy (of_kind ARG_STAR args)
            || EmitWrapper.truthy (of_kind ARG_STAR2 args)).
  - rewrite Hp1, Hp2. eexists. split; [exact Hfmt |]. split; [exact Hre |].
    split; [reflexivity |]. rewrite Hcount. split; [| reflexivity].
    cbn [length app]. by rewrite length_map.
  - eexists. split; [exact Hfmt |]. split; [exact Hre |].
    split; [reflexivity |]. rewrite Hcount. split; [| reflexivity].
    cbn [length app]. by rewrite length_map.
Qed.
End ArgGroupFacts.

Lemma reorder_arg_groups_permutation_witness :
  exists reordered,
    EmitWrapper.reorder_arg_groups EmitWrapper.Kind EmitWrapper.POS EmitWrapper.OPT
      EmitWrapper.NAMED EmitWrapper.NAMED_OPT
      (EmitWrapper.make_arg_groups EmitWrapper.Kind EmitWrapper.kinds
         EmitWrapper.example_args) = Some reordered
    ∧ map EmitWrapper.name reordered = ["a"; "b"; "d"; "c"]%string.
Proof.
  destruct (reorder_arg_groups_permutation EmitWrapper.Kind
              EmitWrapper.POS EmitWrapper.OPT EmitWrapper.STAR EmitWrapper.NAMED
              EmitWrapper.STAR2 EmitWrapper.NAMED_OPT EmitWrapper.kinds
              (fun k Hk => Hk) EmitWrapper.example_args)
    as (reordered & Hre & -> & _).
  - by_eval.
  - exists (filter (fun arg => EmitWrapper.kind arg = EmitWrapper.POS) EmitWrapper.example_args
            ++ filter (fun arg => EmitWrapper.kind arg = EmitWrapper.OPT) EmitWrapper.example_args
            ++ filter (fun arg => EmitWrapper.kind arg = EmitWrapper.NAMED_OPT) EmitWrapper.example_args
            ++ filter (fun arg => EmitWrapper.kind arg = EmitWrapper.NAMED) EmitWrapper.example_args).
    split; [exact Hre | reflexivity].
Defined.

Lemma format_string_shape_witness :
  exists fmt reordered,
    EmitWrapper.make_format_string EmitWrapper.Kind EmitWrapper.POS EmitWrapper.OPT
      EmitWrapper.STAR EmitWrapper.NAMED EmitWrapper.STAR2 EmitWrapper.NAMED_OPT None
      (EmitWrapper.make_arg_groups EmitWrapper.Kind EmitWrapper.kinds
         EmitWrapper.example_args) = Some fmt
    ∧ EmitWrapper.reorder_arg_groups EmitWrapper.Kind EmitWrapper.POS EmitWrapper.OPT
        EmitWrapper.NAMED EmitWrapper.NAMED_OPT
        (EmitWrapper.make_arg_groups EmitWrapper.Kind EmitWrapper.kinds
           EmitWrapper.example_args) = Some reordered
    ∧ EmitWrapper.count_char (EmitWrapper.char_of "O") fmt = length reordered.
Proof.
  destruct (format_string_shape EmitWrapper.Kind
              EmitWrapper.POS EmitWrapper.OPT EmitWrapper.STAR EmitWrapper.NAMED
              EmitWrapper.STAR2 EmitWrapper.NAMED_OPT EmitWrapper.kinds
              (fun k Hk => Hk) EmitWrapper.example_args)
    as (fmt & reordered & Hfmt & Hre & _ & Hcount & _).
  exists fmt, reordered. exact (conj Hfmt (conj Hre Hcount)).
Defined.

Lemma arg_ptrs_match_format_witness :
  exists fmt reordered ptrs,
    EmitWrapper.make_format_string EmitWrapper.Kind EmitWrapper.POS EmitWrapper.OPT
      EmitWrapper.STAR EmitWrapper.NAMED EmitWrapper.STAR2 EmitWrapper.NAMED_OPT None
      (EmitWrapper.make_arg_groups EmitWrapper.Kind EmitWrapper.kinds
         EmitWrapper.example_args) = Some fmt
    ∧ EmitWrapper.arg_ptrs EmitWrapper.Kind EmitWrapper.STAR EmitWrapper.STAR2
        (EmitWrapper.make_arg_groups EmitWrapper.Kind EmitWrapper.kinds
           EmitWrapper.example_args) reordered = Some ptrs
    ∧ length ptrs = (if EmitWrapper.starts_with_percent fmt then 2 else 0)
                    + EmitWrapper.count_char (EmitWrapper.char_of "O") fmt.
Proof.
  destruct (arg_ptrs_match_format EmitWrapper.Kind
              EmitWrapper.POS EmitWrapper.OPT EmitWrapper.STAR EmitWrapper.NAMED
              EmitWrapper.STAR2 EmitWrapper.NAMED_OPT EmitWrapper.kinds
              (fun k Hk => Hk) EmitWrapper.example_args)
    as (fmt & reordered & ptrs & Hfmt & _ & Hptrs & Hlen & _).
  exists fmt, reordered, ptrs. exact (conj Hfmt (conj Hptrs Hlen)).
Defined.

(** * Names for IR values *)

(** A loop whose steps each fit a budget returns, within the budget. *)
Lemma for_each_budget {A St : Type} (f : A -> St -> option St) (P : A -> Prop)
    (cost : A -> nat) (m : St -> nat) (fuel : nat) :
  (forall x s, P x -> m s + cost x < fuel ->
     exists s', f x s = Some s' ∧ m s' <= m s + cost x) ->
  forall l s, (forall x, x ∈ l -> P x) -> m s + sum_list (map cost l) < fuel ->
    exists s', for_each f l s = Some s' ∧ m s' <= m s + sum_list (map cost l).
Proof.
  intros Hstep l. induction l as [| x l IH]; intros s HP Hfuel; simpl in *.
  - exists s. split; [done | lia].
  - destruct (Hstep x s) as (s1 & -> & Hm1); [apply HP; by left | lia |].
    destruct (IH s1) as (s2 & -> & Hm2); [intros y Hy; apply HP; by right | lia |].
    exists s2. split; [done | lia].
Qed.

Lemma sum_list_ones {A : Type} (l : list A) : sum_list (map (fun _ => 1) l) = length l.
Proof. induction l as [| x l IH]; simpl; [done | by rewrite IH]. Qed.

Lemma candidate_inj (name : string) : Inj (=) (=) (fun n : nat => name +:+ "_" +:+ pretty n).
Proof.
  intros n1 n2 Heq.
  apply (inj (String.app name)) in Heq. apply (inj (String.app "_")) in Heq.
  by apply (inj pretty) in Heq.
Qed.

Lemma unique_suffix_fresh (fuel : nat) (name : string) (used : gset string) (n : nat)
    (c : string) :
  PPrint.unique_suffix fuel name used n = Some c -> c ∉ used.
Proof.
  revert n. induction fuel as [| fuel IH]; intros n Hrun; simpl in Hrun; [done |].
  case_decide as Hc; [by simplify_eq | by apply (IH (S n))].
Qed.

Lemma unique_suffix_exhausted (fuel : nat) (name : string) (used : gset string) (n : nat) :
  PPrint.unique_suffix fuel name used n = None ->
  forall k, k ∈ seq n fuel -> name +:+ "_" +:+ pretty k ∈ used.
Proof.
  revert n. induction fuel as [| fuel IH]; intros n Hrun k Hk; simpl in *.
  - by apply elem_of_nil in Hk.
  - case_decide as Hc; [done |].
    apply elem_of_cons in Hk as [-> | Hk].
    + exact Hc.
    + by apply (IH (S n)).
Qed.

(** The search for a suffix ends: among more candidates than there are
    used names, one is unused. *)
Lemma unique_suffix_total (fuel : nat) (name : string) (used : gset string) (n : nat) :
  size used < fuel -> exists c, PPrint.unique_suffix fuel name used n = Some c.
Proof.
  intros Hfuel. destruct (PPrint.unique_suffix fuel name used n) as [c |] eqn:E; [by eexists |].
  exfalso. pose proof (unique_suffix_exhausted _ _ _ _ E) as Hall.
  assert (Hsub : list_to_set ((fun k : nat => name +:+ "_" +:+ pretty k) <$> seq n fuel)
                   ⊆ used).
  { intros c Hc. apply elem_of_list_to_set, list_elem_of_fmap in Hc as (k & -> & Hk).
    by apply Hall. }
  apply subseteq_size in Hsub.
  rewrite size_list_to_set in Hsub.
  - rewrite length_fmap, length_seq in Hsub. lia.
  - apply NoDup_fmap_2_strong; [| apply NoDup_seq].
    intros x y _ _ Heq. by apply (candidate_inj name).
Qed.

Section NameFacts.
Variable kind_of : Value -> PPrint.ValueKind.

Local Abbreviation names_unique := PPrint.names_unique.
Local Abbreviation names_kept := PPrint.names_kept.
Local Abbreviation no_literal := (PPrint.no_literal kind_of).
Local Abbreviation name_block := (PPrint.name_block kind_of).
Local Abbreviation block_cost := (PPrint.block_cost kind_of).
Local Abbreviation start := PPrint.start.


Lemma name_value_spec (fuel : nat) (value : Value) (st st' : PPrint.NameState) :
  PPrint.name_value kind_of fuel value st = Some st' ->
  st' = st
  ∨ (PPrint.names st !! value = None ∧ (kind_of value ≠ PPrint.LiteralV)
     ∧ exists name ti, (name ∉ PPrint.used_names st)
         ∧ st' = {| PPrint.names := <[value := name]> (PPrint.names st);
                    PPrint.used_names := {[name]} ∪ PPrint.used_names st;
                    PPrint.temp_index := ti |}).
Proof.
  unfold PPrint.name_value. intros Hrun.
  case_decide as Hin; [left; by simplify_eq |].
  apply eq_None_not_Some in Hin.
  destruct (PPrint.choose_name kind_of (PPrint.temp_index st) value) as [[name ti] |] eqn:Hch;
    [| left; by simplify_eq].
  right. split; [done |]. split.
  { intros Hlit. unfold PPrint.choose_name in Hch. by rewrite Hlit in Hch. }
  case_decide as Hused.
  - destruct (PPrint.unique_suffix fuel name (PPrint.used_names st) 2) as [c |] eqn:Hc;
      simpl in Hrun; [| done].
    exists c, ti. split; [by eapply unique_suffix_fresh | by simplify_eq].
  - simpl in Hrun. exists name, ti. split; [done | by simplify_eq].
Qed.

Lemma name_value_unique (fuel : nat) (value : Value) (st st' : PPrint.NameState) :
  names_unique st -> PPrint.name_value kind_of fuel value st = Some st' -> names_unique st'.
Proof.
  intros [Hused Hinj] Hrun.
  destruct (name_value_spec _ _ _ _ Hrun) as [-> | (Hnew & _ & name & ti & Hfresh & ->)];
    [done |].
  split; simpl.
  - intros v n Hv. destruct (decide (v = value)) as [-> | Hne].
    + rewrite lookup_insert_eq in Hv. set_solver.
    + rewrite lookup_insert_ne in Hv by done. apply Hused in Hv. set_solver.
  - intros v w n Hv Hw.
    destruct (decide (v = value)) as [-> | Hv'], (decide (w = value)) as [-> | Hw'];
      [done | | |].
    + rewrite lookup_insert_eq in Hv. rewrite lookup_insert_ne in Hw by done.
      simplify_eq. by apply Hused in Hw.
    + rewrite lookup_insert_eq in Hw. rewrite lookup_insert_ne in Hv by done.
      simplify_eq. by apply Hused in Hv.
    + rewrite lookup_insert_ne in Hv, Hw by done. by eapply Hinj.
Qed.

Lemma name_value_kept (fuel : nat) (value : Value) (st st' : PPrint.NameState) :
  PPrint.name_value kind_of fuel value st = Some st' -> names_kept st st'.
Proof.
  intros Hrun v n Hv.
  destruct (name_value_spec _ _ _ _ Hrun) as [-> | (Hnew & _ & name & ti & Hfresh & ->)];
    [done |].
  simpl. rewrite lookup_insert_ne; [done |]. intros <-. by rewrite Hnew in Hv.
Qed.

Lemma name_value_no_literal (fuel : nat) (value : Value) (st st' : PPrint.NameState) :
  no_literal st -> PPrint.name_value kind_of fuel value st = Some st' -> no_literal st'.
Proof.
  intros Hlit Hrun v Hv.
  destruct (name_value_spec _ _ _ _ Hrun) as [-> | (Hnew & Hnl & name & ti & Hfresh & ->)];
    [by apply Hlit |].
  simpl. rewrite lookup_insert_ne; [by apply Hlit |]. by intros <-.
Qed.

Lemma name_value_total (fuel : nat) (value : Value) (st : PPrint.NameState) :
  size (PPrint.used_names st) + 1 < fuel ->
  exists st', PPrint.name_value kind_of fuel value st = Some st'
    ∧ size (PPrint.used_names st') <= size (PPrint.used_names st) + 1.
Proof.
  intros Hfuel. unfold PPrint.name_value.
  case_decide; [exists st; split; [done | lia] |].
  destruct (PPrint.choose_name kind_of (PPrint.temp_index st) value) as [[name ti] |];
    [| exists st; split; [done | lia]].
  assert (Hsize : forall c : string, size ({[c]} ∪ PPrint.used_names st)
                                     <= size (PPrint.used_names st) + 1).
  { intros c. rewrite size_union_alt, size_singleton.
    assert (Hle : size (PPrint.used_names st ∖ {[c]}) <= size (PPrint.used_names st))
      by (apply subseteq_size; set_solver).
    lia. }
  case_decide.
  - destruct (unique_suffix_total fuel name (PPrint.used_names st) 2) as [c ->]; [lia |].
    simpl. eexists. split; [done |]. simpl. apply Hsize.
  - simpl. eexists. split; [done |]. simpl. apply Hsize.
Qed.

Lemma name_op_inv (fuel : nat) (I : PPrint.NameState -> Prop) (op : Value)
    (st st' : PPrint.NameState) :
  (forall value s s', I s -> PPrint.name_value kind_of fuel value s = Some s' -> I s') ->
  I st -> PPrint.name_op kind_of fuel op st = Some st' -> I st'.
Proof.
  intros Hstep Hst Hrun. unfold PPrint.name_op in Hrun.
  destruct (PPrint.op_values kind_of (PPrint.names st) op) as [values |]; simpl in Hrun;
    [| done].
  refine (for_each_inv _ I values st st' _ Hst Hrun).
  intros value s s' _. apply Hstep.
Qed.

Lemma name_blocks_inv (fuel : nat) (I : PPrint.NameState -> Prop)
    (blocks : list PPrint.BasicBlock) (st st' : PPrint.NameState) :
  (forall value s s', I s -> PPrint.name_value kind_of fuel value s = Some s' -> I s') ->
  I st -> for_each (name_block fuel) blocks st = Some st' -> I st'.
Proof.
  intros Hstep Hst Hrun.
  refine (for_each_inv _ I blocks st st' _ Hst Hrun).
  intros block s s' _ Hs Hblock.
  refine (for_each_inv _ I (PPrint.ops block) s s' _ Hs Hblock).
  intros op t t' _. by apply name_op_inv.
Qed.

Lemma op_values_length (nm : gmap Value string) (op : Value) (values : list Value) :
  PPrint.op_values kind_of nm op = Some values ->
  length values <= S (length (PPrint.sources_of kind_of op)).
Proof.
  unfold PPrint.op_values, PPrint.sources_of.
  destruct (kind_of op) as [| | dest sources | sources | sources]; intros Hv; simplify_eq.
  - rewrite length_app. simpl. rewrite Nat.add_1_r. apply le_n_S, length_filter.
  - simpl. lia.
  - case_decide.
    + rewrite length_app. simpl. rewrite Nat.add_1_r. apply le_n_S, length_filter.
    + etrans; [apply length_filter | lia].
Qed.

Lemma name_values_total (fuel : nat) (values : list Value) (st : PPrint.NameState) :
  size (PPrint.used_names st) + S (length values) < fuel ->
  exists st', for_each (PPrint.name_value kind_of fuel) values st = Some st'
    ∧ size (PPrint.used_names st') <= size (PPrint.used_names st) + length values.
Proof.
  intros Hfuel.
  destruct (for_each_budget (PPrint.name_value kind_of fuel) (fun _ => True) (fun _ => 1)
              (fun s => size (PPrint.used_names s)) (fuel - 1)) with (l := values) (s := st)
    as (st' & Hrun & Hsize).
  - intros x s _ Hs. apply name_value_total. lia.
  - done.
  - rewrite sum_list_ones. lia.
  - exists st'. split; [done |]. by rewrite sum_list_ones in Hsize.
Qed.

Lemma name_op_total (fuel : nat) (op : Value) (st : PPrint.NameState) :
  PPrint.is_op kind_of op ->
  size (PPrint.used_names st) + S (length (PPrint.sources_of kind_of op)) < fuel - 1 ->
  exists st', PPrint.name_op kind_of fuel op st = Some st'
    ∧ size (PPrint.used_names st')
      <= size (PPrint.used_names st) + S (length (PPrint.sources_of kind_of op)).
Proof.
  intros Hop Hfuel. unfold PPrint.name_op.
  destruct (PPrint.op_values kind_of (PPrint.names st) op) as [values |] eqn:Hv.
  - simpl. pose proof (op_values_length _ _ _ Hv) as Hlen.
    destruct (name_values_total fuel values st) as (st' & Hrun & Hsize); [lia |].
    exists st'. split; [done | lia].
  - exfalso. unfold PPrint.op_values in Hv. unfold PPrint.is_op in Hop.
    destruct (kind_of op); done.
Qed.

Lemma name_block_total (fuel : nat) (block : PPrint.BasicBlock) (st : PPrint.NameState) :
  (forall op, op ∈ PPrint.ops block -> PPrint.is_op kind_of op) ->
  size (PPrint.used_names st) + block_cost block < fuel - 1 ->
  exists st', name_block fuel block st = Some st'
    ∧ size (PPrint.used_names st') <= size (PPrint.used_names st) + block_cost block.
Proof.
  intros Hops Hfuel.
  apply (for_each_budget (PPrint.name_op kind_of fuel) (PPrint.is_op kind_of)
           (fun op => S (length (PPrint.sources_of kind_of op)))
           (fun s => size (PPrint.used_names s)) (fuel - 1)); [| done | done].
  intros op s Hop Hs. by apply name_op_total.
Qed.

Lemma name_blocks_total (fuel : nat) (blocks : list PPrint.BasicBlock)
    (st : PPrint.NameState) :
  (forall block op, block ∈ blocks -> op ∈ PPrint.ops block -> PPrint.is_op kind_of op) ->
  size (PPrint.used_names st) + PPrint.n_values kind_of blocks < fuel - 1 ->
  exists st', for_each (name_block fuel) blocks st = Some st'.
Proof.
  intros Hops Hfuel.
  destruct (for_each_budget (name_block fuel)
              (fun block => forall op, op ∈ PPrint.ops block -> PPrint.is_op kind_of op)
              block_cost (fun s => size (PPrint.used_names s)) (fuel - 1))
    with (l := blocks) (s := st) as (st' & Hrun & _).
  - intros block s Hblock Hs. by apply name_block_total.
  - intros block Hblock op Hop. by eapply Hops.
  - exact Hfuel.
  - by exists st'.
Qed.

Lemma add_args_total (args : list Register) :
  (forall arg, arg ∈ args -> exists name, kind_of arg = PPrint.RegisterV name) ->
  exists st, for_each (PPrint.add_arg kind_of) args start = Some st
    ∧ size (PPrint.used_names st) <= length args.
Proof.
  intros Hargs.
  destruct (for_each_budget (PPrint.add_arg kind_of)
              (fun arg => exists name, kind_of arg = PPrint.RegisterV name)
              (fun _ => 1) (fun s => size (PPrint.used_names s)) (S (length args)))
    with (l := args) (s := start) as (st & Hrun & Hsize).
  - intros arg s [name Hname] _. unfold PPrint.add_arg. rewrite Hname.
    eexists. split; [done |]. simpl.
    rewrite size_union_alt, size_singleton.
    assert (size (PPrint.used_names s ∖ {[name]}) <= size (PPrint.used_names s))
      by (apply subseteq_size; set_solver).
    lia.
  - done.
  - rewrite sum_list_ones.
    change (PPrint.used_names start) with (∅ : gset string). rewrite size_empty.
    apply Nat.lt_succ_diag_r.
  - exists st. split; [done |]. rewrite sum_list_ones in Hsize.
    change (PPrint.used_names start) with (∅ : gset string) in Hsize.
    by rewrite size_empty in Hsize.
Qed.

Lemma add_args_unique (args : list Register) (st : PPrint.NameState) :
  (forall a b name, a ∈ args -> b ∈ args ->
     kind_of a = PPrint.RegisterV name -> kind_of b = PPrint.RegisterV name -> a = b) ->
  for_each (PPrint.add_arg kind_of) args start = Some st -> names_unique st.
Proof.
  intros Hdist Hrun.
  assert (J : forall v n, PPrint.names st !! v = Some n ->
                kind_of v = PPrint.RegisterV n ∧ v ∈ args ∧ n ∈ PPrint.used_names st).
  { refine (for_each_inv _ (fun st => forall v n, PPrint.names st !! v = Some n ->
                kind_of v = PPrint.RegisterV n ∧ v ∈ args ∧ n ∈ PPrint.used_names st)
              args start st _ _ Hrun).
    - intros arg s s' Harg Hs Hstep v n Hv. unfold PPrint.add_arg in Hstep.
      destruct (kind_of arg) as [name | | | |] eqn:Hk; simplify_eq. simpl in *.
      destruct (decide (v = arg)) as [-> | Hne].
      + rewrite lookup_insert_eq in Hv. simplify_eq. split; [done |]. split; [done | set_solver].
      + rewrite lookup_insert_ne in Hv by done.
        destruct (Hs v n Hv) as (? & ? & ?). split; [done |]. split; [done | set_solver].
    - intros v n Hv. simpl in Hv. by rewrite lookup_empty in Hv. }
  split.
  - intros v n Hv. by destruct (J v n Hv) as (_ & _ & ?).
  - intros v w n Hv Hw. destruct (J v n Hv) as (? & ? & _), (J w n Hw) as (? & ? & _).
    by eapply Hdist.
Qed.

Lemma add_args_names (args : list Register) (st : PPrint.NameState) :
  for_each (PPrint.add_arg kind_of) args start = Some st ->
  (forall arg name, arg ∈ args -> kind_of arg = PPrint.RegisterV name ->
     PPrint.names st !! arg = Some name)
  ∧ no_literal st.
Proof.
  intros Hrun.
  destruct (for_each_establish (PPrint.add_arg kind_of) no_literal
              (fun arg st => forall name, kind_of arg = PPrint.RegisterV name ->
                               PPrint.names st !! arg = Some name)
              args start st) as [Hlit Hnames]; [| | | done |].
  - intros arg s s' _ Hs Hstep. unfold PPrint.add_arg in Hstep.
    destruct (kind_of arg) as [name | | | |] eqn:Hk; simplify_eq. split.
    + intros v Hv. simpl. rewrite lookup_insert_ne; [by apply Hs | congruence].
    + intros name' [= <-]. simpl. by rewrite lookup_insert_eq.
  - intros x y s s' _ _ Hx Hstep name Hname. unfold PPrint.add_arg in Hstep.
    destruct (kind_of y) as [name' | | | |] eqn:Hk; simplify_eq. simpl.
    destruct (decide (x = y)) as [-> | Hne].
    + rewrite lookup_insert_eq. congruence.
    + rewrite lookup_insert_ne by done. by apply Hx.
  - intros v _. simpl. apply lookup_empty.
  - split; [| done]. intros arg name Harg. by apply Hnames.
Qed.

(** X25 (generate_names_for_ir): on an input whose arguments are
    registers with pairwise distinct names and whose blocks hold ops, the
    function returns (the search for an unused suffix ends; the fuel
    covers the number of arguments and of values looked at), and the names
    it generates are unique: no two values of the dict have the same
    name. *)
Theorem generated_names_unique (fuel : nat) (args : list Register)
    (blocks : list PPrint.BasicBlock) :
  PPrint.well_formed kind_of args blocks ->
  (forall a b name, a ∈ args -> b ∈ args ->
     kind_of a = PPrint.RegisterV name -> kind_of b = PPrint.RegisterV name -> a = b) ->
  length args + PPrint.n_values kind_of blocks + 1 < fuel ->
  exists names,
    PPrint.generate_names_for_ir kind_of fuel args blocks = Some names
    ∧ forall v w name, names !! v = Some name -> names !! w = Some name -> v = w.
Proof.
  intros [Hargs Hops] Hdist Hfuel. unfold PPrint.generate_names_for_ir.
  destruct (add_args_total args Hargs) as (st1 & Hrun1 & Hsize1). rewrite Hrun1. simpl.
  destruct (name_blocks_total fuel blocks st1 Hops) as (st2 & Hrun2); [lia |].
  rewrite Hrun2. simpl. exists (PPrint.names st2). split; [done |].
  apply (name_blocks_inv fuel names_unique blocks st1 st2); [| | done].
  - intros value s s'. apply name_value_unique.
  - by apply (add_args_unique args).
Qed.

(** X26 (generate_names_for_ir): the arguments keep their own names,
    whatever else is named (so two argument registers with the same name
    share it), and an Integer or Float never gets a name. *)
Theorem argument_names_kept (fuel : nat) (args : list Register)
    (blocks : list PPrint.BasicBlock) (names : gmap Value string) :
  PPrint.generate_names_for_ir kind_of fuel args blocks = Some names ->
  (forall arg name, arg ∈ args -> kind_of arg = PPrint.RegisterV name ->
     names !! arg = Some name)
  ∧ (forall v, kind_of v = PPrint.LiteralV -> names !! v = None).
Proof.
  unfold PPrint.generate_names_for_ir. intros Hrun.
  destruct (for_each (PPrint.add_arg kind_of) args start) as [st1 |] eqn:Hrun1;
    simpl in Hrun; [| done].
  destruct (for_each (name_block fuel) blocks st1) as [st2 |] eqn:Hrun2;
    simpl in Hrun; [| done].
  injection Hrun as <-.
  destruct (add_args_names args st1 Hrun1) as [Hnames Hlit]. split.
  - intros arg name Harg Hk.
    assert (Hkept : names_kept st1 st2).
    { apply (name_blocks_inv fuel (names_kept st1) blocks st1 st2 ); [| | exact Hrun2].
      - intros value s s' Hs Hstep v n Hv. by eapply name_value_kept, Hs.
      - by intros v n Hv. }
    by apply Hkept, Hnames.
  - apply (name_blocks_inv fuel no_literal blocks st1 st2); [| done | done].
    intros value s s'. apply name_value_no_literal.
Qed.
Lemma names_kept_refl (st : PPrint.NameState) : names_kept st st.
Proof. by intros v n Hv. Qed.

Lemma names_kept_trans (s1 s2 s3 : PPrint.NameState) :
  names_kept s1 s2 -> names_kept s2 s3 -> names_kept s1 s3.
Proof. intros H12 H23 v n Hv. by apply H23, H12. Qed.

Lemma name_values_kept (fuel : nat) (values : list Value) (st st' : PPrint.NameState) :
  for_each (PPrint.name_value kind_of fuel) values st = Some st' -> names_kept st st'.
Proof.
  intros Hrun.
  refine (for_each_rel _ names_kept values st st' names_kept_refl names_kept_trans _ Hrun).
  intros value s s' _. apply name_value_kept.
Qed.

Lemma name_op_kept (fuel : nat) (op : Value) (st st' : PPrint.NameState) :
  PPrint.name_op kind_of fuel op st = Some st' -> names_kept st st'.
Proof.
  unfold PPrint.name_op. intros Hrun.
  destruct (PPrint.op_values kind_of (PPrint.names st) op) as [values |]; simpl in Hrun;
    [| done].
  by eapply name_values_kept.
Qed.

Lemma name_block_kept (fuel : nat) (block : PPrint.BasicBlock) (st st' : PPrint.NameState) :
  name_block fuel block st = Some st' -> names_kept st st'.
Proof.
  intros Hrun.
  refine (for_each_rel _ names_kept (PPrint.ops block) st st'
            names_kept_refl names_kept_trans _ Hrun).
  intros op s s' _. apply name_op_kept.
Qed.

(** After the loop body, a value that is not a literal has a name. *)
Lemma name_value_named (fuel : nat) (value : Value) (st st' : PPrint.NameState) :
  PPrint.name_value kind_of fuel value st = Some st' ->
  kind_of value ≠ PPrint.LiteralV ->
  is_Some (PPrint.names st' !! value).
Proof.
  unfold PPrint.name_value. intros Hrun Hnl.
  case_decide as Hin; [by simplify_eq |].
  destruct (PPrint.choose_name kind_of (PPrint.temp_index st) value) as [[name ti] |] eqn:Hch.
  - destruct (if decide (name ∈ PPrint.used_names st)
              then PPrint.unique_suffix fuel name (PPrint.used_names st) 2
              else Some name) as [c |]; simpl in Hrun; [| done].
    simplify_eq. simpl. rewrite lookup_insert_eq. by eexists.
  - exfalso. unfold PPrint.choose_name in Hch.
    destruct (kind_of value) as [nm | | | |]; try done. by destruct (negb (String.eqb nm "")).
Qed.

Lemma name_values_named (fuel : nat) (values : list Value) (st st' : PPrint.NameState)
    (value : Value) :
  for_each (PPrint.name_value kind_of fuel) values st = Some st' ->
  value ∈ values -> kind_of value ≠ PPrint.LiteralV ->
  is_Some (PPrint.names st' !! value).
Proof.
  intros Hrun Hin Hnl.
  destruct (for_each_establish (PPrint.name_value kind_of fuel) (fun _ => True)
              (fun v s => kind_of v ≠ PPrint.LiteralV -> is_Some (PPrint.names s !! v))
              values st st') as [_ Hall]; [| | done | done |].
  - intros x s s' _ _ Hstep. split; [done |]. by apply (name_value_named fuel x s s').
  - intros x y s s' _ _ Hx Hstep Hxl. destruct (Hx Hxl) as [n Hn].
    exists n. by apply (name_value_kept _ _ _ _ Hstep).
  - by apply Hall.
Qed.

Lemma name_op_named (fuel : nat) (op : Value) (st st' : PPrint.NameState) (value : Value) :
  PPrint.name_op kind_of fuel op st = Some st' ->
  value ∈ PPrint.operands kind_of op -> kind_of value ≠ PPrint.LiteralV ->
  is_Some (PPrint.names st' !! value).
Proof.
  unfold PPrint.name_op. intros Hrun Hin Hnl.
  destruct (PPrint.op_values kind_of (PPrint.names st) op) as [values |] eqn:Hv;
    simpl in Hrun; [| done].
  destruct (PPrint.names st !! value) as [n |] eqn:Hold.
  { exists n. by apply (name_values_kept _ _ _ _ Hrun). }
  eapply name_values_named; [done | | done].
  unfold PPrint.op_values in Hv. unfold PPrint.operands in Hin.
  destruct (kind_of op) as [| | dest sources | sources | sources]; simplify_eq.
  - apply elem_of_app in Hin as [Hin | Hin]; apply elem_of_app; [left | by right].
    by apply list_elem_of_filter.
  - by apply elem_of_nil in Hin.
  - apply elem_of_app in Hin as [Hin | Hin].
    + case_decide; [apply elem_of_app; left |]; by apply list_elem_of_filter.
    + apply list_elem_of_singleton in Hin as ->.
      rewrite decide_True by done. apply elem_of_app. right. by left.
Qed.

Lemma name_block_named (fuel : nat) (block : PPrint.BasicBlock) (st st' : PPrint.NameState)
    (op value : Value) :
  name_block fuel block st = Some st' ->
  op ∈ PPrint.ops block ->
  value ∈ PPrint.operands kind_of op -> kind_of value ≠ PPrint.LiteralV ->
  is_Some (PPrint.names st' !! value).
Proof.
  intros Hrun Hop Hin Hnl.
  destruct (for_each_establish (PPrint.name_op kind_of fuel) (fun _ => True)
              (fun op s => forall value, value ∈ PPrint.operands kind_of op ->
                 kind_of value ≠ PPrint.LiteralV -> is_Some (PPrint.names s !! value))
              (PPrint.ops block) st st') as [_ Hall]; [| | done | exact Hrun |].
  - intros x s s' _ _ Hstep. split; [done |]. intros v. by apply (name_op_named fuel x s s').
  - intros x y s s' _ _ Hx Hstep v Hv Hvl. destruct (Hx v Hv Hvl) as [n Hn].
    exists n. by apply (name_op_kept _ _ _ _ Hstep).
  - by apply (Hall op).
Qed.

(** X27 (generate_names_for_ir): every value that an op of the blocks
    names has a name in the result, unless it is an Integer or a Float: the
    sources and the destination of every assignment, and the sources and
    the result of every op that is neither a control op nor void. *)
Theorem operands_named (fuel : nat) (args : list Register)
    (blocks : list PPrint.BasicBlock) (names : gmap Value string)
    (block : PPrint.BasicBlock) (op value : Value) :
  PPrint.generate_names_for_ir kind_of fuel args blocks = Some names ->
  block ∈ blocks -> op ∈ PPrint.ops block ->
  value ∈ match kind_of op with
          | PPrint.AssignV dest sources => sources ++ [dest]
          | PPrint.OpV sources => sources ++ [op]
          | _ => []
          end ->
  kind_of value ≠ PPrint.LiteralV ->
  is_Some (names !! value).
Proof.
  unfold PPrint.generate_names_for_ir. intros Hrun Hblock Hop Hin Hnl.
  destruct (for_each (PPrint.add_arg kind_of) args start) as [st1 |] eqn:Hrun1;
    simpl in Hrun; [| done].
  destruct (for_each (name_block fuel) blocks st1) as [st2 |] eqn:Hrun2;
    simpl in Hrun; [| done].
  injection Hrun as <-.
  destruct (for_each_establish (name_block fuel) (fun _ => True)
              (fun block s => forall op value, op ∈ PPrint.ops block ->
                 value ∈ PPrint.operands kind_of op ->
                 kind_of value ≠ PPrint.LiteralV -> is_Some (PPrint.names s !! value))
              blocks st1 st2) as [_ Hall]; [| | done | exact Hrun2 |].
  - intros x s s' _ _ Hstep. split; [done |]. intros o v.
    by apply (name_block_named fuel x s s').
  - intros x y s s' _ _ Hx Hstep o v Ho Hv Hvl. destruct (Hx o v Ho Hv Hvl) as [n Hn].
    exists n. by apply (name_block_kept _ _ _ _ Hstep).
  - by apply (Hall block Hblock op value).
Qed.
End NameFacts.

Lemma generated_names_unique_witness :
  exists names,
    PPrint.generate_names_for_ir PPrint.example_kind_of 13 PPrint.example_args
      PPrint.example_blocks = Some names
    ∧ forall v w name, names !! v = Some name -> names !! w = Some name -> v = w.
Proof.
  apply (generated_names_unique PPrint.example_kind_of 13 PPrint.example_args
           PPrint.example_blocks).
  - split.
    + intros arg Harg. unfold PPrint.example_args in Harg.
      rewrite !elem_of_cons, elem_of_nil in Harg.
      destruct Harg as [-> | [-> | []]]; eexists; reflexivity.
    + intros block op Hblock Hop. unfold PPrint.example_blocks in Hblock.
      apply list_elem_of_singleton in Hblock as ->. simpl in Hop.
      rewrite !elem_of_cons, elem_of_nil in Hop.
      destruct Hop as [-> | [-> | [-> | [-> | []]]]]; exact I.
  - intros a b name Ha Hb. unfold PPrint.example_args in Ha, Hb.
    rewrite !elem_of_cons, elem_of_nil in Ha, Hb.
    destruct Ha as [-> | [-> | []]], Hb as [-> | [-> | []]]; simpl; congruence.
  - vm_compute. lia.
Defined.

Lemma argument_names_kept_witness :
  exists names,
    PPrint.generate_names_for_ir PPrint.example_kind_of 13 PPrint.example_args
      PPrint.example_blocks = Some names
    ∧ names !! 1 = Some "r0"%string ∧ names !! 6 = None.
Proof.
  destruct (PPrint.generate_names_for_ir PPrint.example_kind_of 13 PPrint.example_args
              PPrint.example_blocks) as [names |] eqn:Hrun; [| by vm_compute in Hrun].
  exists names. split; [done |].
  destruct (argument_names_kept PPrint.example_kind_of 13 PPrint.example_args
              PPrint.example_blocks names Hrun) as [Hargs Hlit].
  split.
  - apply Hargs; [| done]. unfold PPrint.example_args. set_solver.
  - by apply Hlit.
Defined.

Lemma operands_named_witness :
  exists names,
    PPrint.generate_names_for_ir PPrint.example_kind_of 12 PPrint.example_args
      PPrint.example_blocks = Some names
    ∧ is_Some (names !! 3).
Proof.
  destruct (PPrint.generate_names_for_ir PPrint.example_kind_of 12 PPrint.example_args
              PPrint.example_blocks) as [names |] eqn:Hrun; [| by vm_compute in Hrun].
  exists names. split; [done |].
  apply (operands_named PPrint.example_kind_of 12 PPrint.example_args
           PPrint.example_blocks names {| PPrint.ops := [2; 4; 7; 5] |} 4 3 Hrun).
  - by left.
  - simpl. set_solver.
  - simpl. set_solver.
  - done.
Defined.
